(** * RecoverFHE: the recovery-session contract, embedded and verified

    A shallow embedding of [contract RecoverFHE] (Solidity ^0.8.24): the
    three storage mappings, the session-id array and the event log are
    one [State] record, every external function is a function from a
    state to a [result], and a revert is the [inl] branch, which carries
    no state: the caller keeps the state it had.

    The FHE library the contract imports is not part of the contract; it
    is taken as a type class [FHE] of the calls the contract makes, and
    every theorem holds for every instance (two of them, [strictFHE] and
    [laxFHE], serve the examples).

    Integers are [Z]; the tests the contract makes on them are written
    out as the contract has them.  Gas is not modelled: a loop over
    [totalShards] slots always runs to its end.  The loop counters stay
    below [totalShards], so their checked increments cannot overflow;
    the one increment that is not bounded that way, [shardCount++], is
    checked.  [msg.sender] and [block.timestamp] are the [Env] of a
    call. *)

From Stdlib Require Import ZArith Lia.
From Stdlib.Strings Require Import Byte.
From stdpp Require Import gmap strings list fin_maps.

Local Open Scope Z_scope.

(** ** Solidity value types *)

(** [uint256], [uint32], [address], [euint32] (a bytes32 handle) and
    [externalEuint32] are integers; [bytes] is a byte string. *)
Abbreviation uint256 := Z (only parsing).
Abbreviation uint32 := Z (only parsing).
Abbreviation address := Z (only parsing).
Abbreviation euint32 := Z (only parsing).
Abbreviation externalEuint32 := Z (only parsing).
Abbreviation bytes32 := Z (only parsing).
Abbreviation bytes := (list byte) (only parsing).

Definition max_uint256 : Z := 2 ^ 256 - 1.
Definition max_uint32 : Z := 2 ^ 32 - 1.

(** ** Reverts *)

(** A call ends in a state or reverts.  [Revert reason] is a failed
    [require(..., reason)]; [FHERevert] is a revert raised inside the FHE
    library; [Panic] is a compiler-inserted check (checked arithmetic,
    [abi.decode] of malformed data). *)
Inductive error : Type :=
  | Revert (reason : string)
  | FHERevert
  | Panic.

Definition result (A : Type) : Type := error + A.

Definition Ok {A} (a : A) : result A := inr a.
Definition Err {A} (e : error) : result A := inl e.

Definition bind {A B} (m : result A) (k : A -> result B) : result B :=
  match m with
  | inl e => inl e
  | inr a => k a
  end.

Notation "'let!' x ':=' m 'in' k" := (bind m (fun x => k))
  (at level 10, x name, m at level 100, k at level 200).
Notation "m ;;; k" := (bind m (fun _ => k))
  (at level 100, right associativity).

Definition require (cond : bool) (reason : string) : result unit :=
  if cond then Ok tt else Err (Revert reason).

Definition is_ok {A} (r : result A) : Prop := exists a, r = inr a.

(** ** abi.decode(data, (uint32)) *)

(** The first 32-byte word read big-endian; the decoder reverts when the
    data is shorter than one word or the word does not fit [uint32]. *)
Definition be_uint (bs : bytes) : Z :=
  foldl (fun acc b => acc * 256 + Z.of_N (Byte.to_N b)) 0 bs.

Definition abi_decode_uint32 (data : bytes) : result uint32 :=
  if (Z.of_nat (length data) <? 32) then Err Panic
  else
    let word := be_uint (take 32 data) in
    if word <=? max_uint32 then Ok word else Err Panic.

Definition byte_of_Z (z : Z) : byte :=
  match Byte.of_N (Z.to_N (z mod 256)) with
  | Some b => b
  | None => x00
  end.

(** The [n] low bytes of [v], most significant first. *)
Definition be_bytes (n : nat) (v : Z) : bytes :=
  map (fun k => byte_of_Z (v / 256 ^ (Z.of_nat n - 1 - Z.of_nat k))) (seq 0 n).

(** [abi.encode(uint256(v))]: one 32-byte big-endian word (what a caller
    passes as [abiEncodedClearValue]). *)
Definition abi_encode_uint (v : Z) : bytes := be_bytes 32 v.

(** ** Storage *)

Record Shard : Type := mkShard {
  encryptedValue : euint32;
  holder : address;
  isVerified : bool
}.

Record RecoverySession : Type := mkSession {
  name : string;
  threshold : uint256;
  totalShards : uint256;
  publicValue1 : uint256;
  publicValue2 : uint256;
  description : string;
  creator : address;
  timestamp : uint256;
  decryptedValue : uint32;
  isComplete : bool
}.

Inductive Event : Type :=
  | SessionCreated (sessionId : string) (creator : address)
  | ShardAdded (sessionId : string) (shardIndex : uint256) (holder : address)
  | ShardVerified (sessionId : string) (shardIndex : uint256)
  | SessionCompleted (sessionId : string) (decryptedValue : uint32).

(** The contract's storage, and the log of the events emitted so far.  A
    Solidity mapping is total: a key that was never written reads as the
    zero value of the type.  The maps below keep the written keys and
    [session_at], [shard_at] and [shardCount_at] read with that default. *)
Record State : Type := mkState {
  sessions : gmap string RecoverySession;
  sessionShards : gmap (string * Z) Shard;
  shardCount : gmap string Z;
  sessionIds : list string;
  events : list Event
}.

Definition zero_shard : Shard :=
  {| encryptedValue := 0; holder := 0; isVerified := false |}.

Definition zero_session : RecoverySession :=
  {| name := ""; threshold := 0; totalShards := 0;
     publicValue1 := 0; publicValue2 := 0; description := "";
     creator := 0; timestamp := 0; decryptedValue := 0; isComplete := false |}.

Definition session_at (st : State) (sessionId : string) : RecoverySession :=
  default zero_session (sessions st !! sessionId).

Definition shard_at (st : State) (sessionId : string) (i : Z) : Shard :=
  default zero_shard (sessionShards st !! (sessionId, i)).

Definition shardCount_at (st : State) (sessionId : string) : Z :=
  default 0 (shardCount st !! sessionId).

Definition initState : State :=
  {| sessions := ∅; sessionShards := ∅; shardCount := ∅;
     sessionIds := []; events := [] |}.

(** Storage writes. *)
Definition set_session (sessionId : string) (s : RecoverySession) (st : State) : State :=
  {| sessions := <[sessionId := s]> (sessions st);
     sessionShards := sessionShards st;
     shardCount := shardCount st;
     sessionIds := sessionIds st;
     events := events st |}.

Definition set_shard (sessionId : string) (i : Z) (sh : Shard) (st : State) : State :=
  {| sessions := sessions st;
     sessionShards := <[(sessionId, i) := sh]> (sessionShards st);
     shardCount := shardCount st;
     sessionIds := sessionIds st;
     events := events st |}.

Definition set_shardCount (sessionId : string) (n : Z) (st : State) : State :=
  {| sessions := sessions st;
     sessionShards := sessionShards st;
     shardCount := <[sessionId := n]> (shardCount st);
     sessionIds := sessionIds st;
     events := events st |}.

Definition push_sessionId (sessionId : string) (st : State) : State :=
  {| sessions := sessions st;
     sessionShards := sessionShards st;
     shardCount := shardCount st;
     sessionIds := sessionIds st ++ [sessionId];
     events := events st |}.

Definition emit (e : Event) (st : State) : State :=
  {| sessions := sessions st;
     sessionShards := sessionShards st;
     shardCount := shardCount st;
     sessionIds := sessionIds st;
     events := events st ++ [e] |}.

(** Writes of one field of a stored struct. *)
Definition shard_set_isVerified (b : bool) (sh : Shard) : Shard :=
  {| encryptedValue := encryptedValue sh; holder := holder sh; isVerified := b |}.

Definition session_set_decryptedValue (v : Z) (s : RecoverySession) : RecoverySession :=
  {| name := name s; threshold := threshold s; totalShards := totalShards s;
     publicValue1 := publicValue1 s; publicValue2 := publicValue2 s;
     description := description s; creator := creator s;
     timestamp := timestamp s; decryptedValue := v;
     isComplete := isComplete s |}.

Definition session_set_isComplete (b : bool) (s : RecoverySession) : RecoverySession :=
  {| name := name s; threshold := threshold s; totalShards := totalShards s;
     publicValue1 := publicValue1 s; publicValue2 := publicValue2 s;
     description := description s; creator := creator s;
     timestamp := timestamp s; decryptedValue := decryptedValue s;
     isComplete := b |}.

(** The transaction context a function reads. *)
Record Env : Type := mkEnv {
  msg_sender : address;
  block_timestamp : uint256
}.

(** ** The FHE library *)

(** What the contract calls in [FHE]: [fromExternal] checks an input
    proof and returns the handle ([None]: it reverts); [checkSignatures]
    checks a decryption proof for a list of handles and the encoded
    cleartexts (the library reverts when it is [false]);
    [getDecryptionProof] returns the bytes that [combineShards] decodes.
    [FHE.allowThis] and [FHE.makePubliclyDecryptable] write the access
    list of the coprocessor, not the contract's storage, and have no
    counterpart here. *)
Class FHE : Type := {
  fromExternal : externalEuint32 -> bytes -> option euint32;
  checkSignatures : list bytes32 -> bytes -> bytes -> bool;
  getDecryptionProof : euint32 -> bytes
}.

(** [FHE.isInitialized(v)] is [euint32.unwrap(v) != 0]; [FHE.toBytes32]
    unwraps the handle. *)
Definition isInitialized (v : euint32) : bool := negb (v =? 0).
Definition toBytes32 (v : euint32) : bytes32 := v.

(** [for (uint256 i = 0; i < n; i++) body], with and without a revert
    inside the body. *)
Definition for_range {A} (n : Z) (body : A -> Z -> A) (init : A) : A :=
  foldl body init (seqZ 0 n).

Fixpoint loopM {A} (body : A -> Z -> result A) (init : A) (idxs : list Z) : result A :=
  match idxs with
  | [] => Ok init
  | i :: idxs' => let! a := body init i in loopM body a idxs'
  end.

Definition for_rangeM {A} (n : Z) (body : A -> Z -> result A) (init : A) : result A :=
  loopM body init (seqZ 0 n).

Section Contract.
Context {fhe : FHE}.

Definition createSession (env : Env) (sessionId name0 : string)
    (threshold0 totalShards0 publicValue10 publicValue20 : uint256)
    (description0 : string) (st : State) : result State :=
  require (Z.of_nat (String.length (name (session_at st sessionId))) =? 0)
          "Session already exists" ;;;
  require ((0 <? threshold0) && (threshold0 <=? totalShards0))
          "Invalid threshold" ;;;
  let st1 := set_session sessionId
    {| name := name0; threshold := threshold0; totalShards := totalShards0;
       publicValue1 := publicValue10; publicValue2 := publicValue20;
       description := description0; creator := msg_sender env;
       timestamp := block_timestamp env; decryptedValue := 0;
       isComplete := false |} st in
  let st2 := push_sessionId sessionId st1 in
  Ok (emit (SessionCreated sessionId (msg_sender env)) st2).

Definition fromExternal_call (encryptedValue0 : externalEuint32)
    (inputProof : bytes) : result euint32 :=
  match fromExternal encryptedValue0 inputProof with
  | Some h => Ok h
  | None => Err FHERevert
  end.

Definition addShard (env : Env) (sessionId : string) (shardIndex : uint256)
    (encryptedValue0 : externalEuint32) (inputProof : bytes)
    (st : State) : result State :=
  require (0 <? Z.of_nat (String.length (name (session_at st sessionId))))
          "Session does not exist" ;;;
  require ((0 <=? shardIndex) && (shardIndex <? totalShards (session_at st sessionId)))
          "Invalid shard index" ;;;
  require (holder (shard_at st sessionId shardIndex) =? 0)
          "Shard already exists" ;;;
  let! h := fromExternal_call encryptedValue0 inputProof in
  require (isInitialized h) "Invalid encrypted input" ;;;
  let! h' := fromExternal_call encryptedValue0 inputProof in
  let st1 := set_shard sessionId shardIndex
    {| encryptedValue := h'; holder := msg_sender env; isVerified := false |} st in
  (if shardCount_at st1 sessionId + 1 <=? max_uint256 then Ok tt else Err Panic) ;;;
  let st2 := set_shardCount sessionId (shardCount_at st1 sessionId + 1) st1 in
  Ok (emit (ShardAdded sessionId shardIndex (msg_sender env)) st2).

Definition getVerifiedShardCount (st : State) (sessionId : string) : result uint256 :=
  let count := 0 in
  Ok (for_range (totalShards (session_at st sessionId))
        (fun count i =>
           if isVerified (shard_at st sessionId i) then count + 1 else count)
        count).

Definition combineShards (st : State) (sessionId : string) : result uint32 :=
  let combinedValue := 0 in
  for_rangeM (totalShards (session_at st sessionId))
    (fun combinedValue i =>
       if isVerified (shard_at st sessionId i) then
         let! shardValue := abi_decode_uint32
           (getDecryptionProof (encryptedValue (shard_at st sessionId i))) in
         Ok (Z.lxor combinedValue shardValue)
       else Ok combinedValue)
    combinedValue.

Definition completeSession (st : State) (sessionId : string) : result State :=
  require (negb (isComplete (session_at st sessionId)))
          "Session already completed" ;;;
  let! reconstructedValue := combineShards st sessionId in
  let st1 := set_session sessionId
    (session_set_decryptedValue reconstructedValue (session_at st sessionId)) st in
  let st2 := set_session sessionId
    (session_set_isComplete true (session_at st1 sessionId)) st1 in
  Ok (emit (SessionCompleted sessionId reconstructedValue) st2).

Definition verifyShard (sessionId : string) (shardIndex : uint256)
    (abiEncodedClearValue decryptionProof : bytes) (st : State) : result State :=
  require (0 <? Z.of_nat (String.length (name (session_at st sessionId))))
          "Session does not exist" ;;;
  require ((0 <=? shardIndex) && (shardIndex <? totalShards (session_at st sessionId)))
          "Invalid shard index" ;;;
  require (negb (isVerified (shard_at st sessionId shardIndex)))
          "Shard already verified" ;;;
  let cts := [toBytes32 (encryptedValue (shard_at st sessionId shardIndex))] in
  (if checkSignatures cts abiEncodedClearValue decryptionProof
   then Ok tt else Err FHERevert) ;;;
  let! decodedValue := abi_decode_uint32 abiEncodedClearValue in
  require ((decodedValue =? publicValue1 (session_at st sessionId))
           || (decodedValue =? publicValue2 (session_at st sessionId)))
          "Invalid shard value" ;;;
  let st1 := set_shard sessionId shardIndex
    (shard_set_isVerified true (shard_at st sessionId shardIndex)) st in
  let st2 := emit (ShardVerified sessionId shardIndex) st1 in
  let! count := getVerifiedShardCount st2 sessionId in
  if threshold (session_at st2 sessionId) <=? count
  then completeSession st2 sessionId
  else Ok st2.

Definition getShard (st : State) (sessionId : string) (shardIndex : uint256)
    : result (euint32 * address * bool) :=
  require (0 <? Z.of_nat (String.length (name (session_at st sessionId))))
          "Session does not exist" ;;;
  require ((0 <=? shardIndex) && (shardIndex <? totalShards (session_at st sessionId)))
          "Invalid shard index" ;;;
  let shard := shard_at st sessionId shardIndex in
  Ok (encryptedValue shard, holder shard, isVerified shard).

Definition getSession (st : State) (sessionId : string)
    : result (string * Z * Z * Z * Z * string * Z * Z * bool * Z) :=
  require (0 <? Z.of_nat (String.length (name (session_at st sessionId))))
          "Session does not exist" ;;;
  let session := session_at st sessionId in
  Ok (name session, threshold session, totalShards session,
      publicValue1 session, publicValue2 session, description session,
      creator session, timestamp session, isComplete session,
      decryptedValue session).

Definition getAllSessionIds (st : State) : result (list string) :=
  Ok (sessionIds st).

Definition isAvailable : bool := true.

End Contract.

(** ** Transactions *)

(** The state-changing entry points, as the transactions a ledger
    orders.  A transaction that reverts leaves the state as it was. *)
Inductive Call : Type :=
  | CreateSession (sessionId name0 : string)
      (threshold0 totalShards0 publicValue10 publicValue20 : Z)
      (description0 : string)
  | AddShard (sessionId : string) (shardIndex : Z)
      (encryptedValue0 : Z) (inputProof : list byte)
  | VerifyShard (sessionId : string) (shardIndex : Z)
      (abiEncodedClearValue decryptionProof : list byte).

Section Transactions.
Context {fhe : FHE}.

Definition exec (tx : Env * Call) (st : State) : result State :=
  match tx with
  | (env, CreateSession sid nm th tot pv1 pv2 descr) =>
      createSession env sid nm th tot pv1 pv2 descr st
  | (env, AddShard sid i ev prf) => addShard env sid i ev prf st
  | (env, VerifyShard sid i clear prf) => verifyShard sid i clear prf st
  end.

Definition step (tx : Env * Call) (st : State) : State :=
  match exec tx st with
  | inr st' => st'
  | inl _ => st
  end.

Definition run (txs : list (Env * Call)) (st : State) : State :=
  foldl (fun s tx => step tx s) st txs.

(** No transaction is sent by the zero address. *)
Definition valid_tx (tx : Env * Call) : Prop := msg_sender (fst tx) <> 0.

Inductive reachable : State -> Prop :=
  | reachable_init : reachable initState
  | reachable_step st tx :
      reachable st -> valid_tx tx -> reachable (step tx st).

End Transactions.

(** ** Two stand-in FHE libraries *)

(** Both treat a handle as [1000 + cleartext] (the null handle reads as
    0) and accept an input when its proof is not empty.  [strictFHE]
    accepts a decryption proof only for one initialized handle, its own
    cleartext and a non-empty proof; [laxFHE] accepts every non-empty
    proof. *)
Definition nonempty (b : list byte) : bool :=
  match b with [] => false | _ => true end.

Definition mock_fromExternal (ev : Z) (prf : list byte) : option Z :=
  if nonempty prf then Some ev else None.

Definition mock_getDecryptionProof (h : Z) : list byte :=
  abi_encode_uint (Z.max 0 (h - 1000)).

Definition strict_checkSignatures (cts : list Z) (clear prf : list byte) : bool :=
  match cts with
  | [h] =>
      negb (h =? 0) && nonempty prf &&
      match abi_decode_uint32 clear with
      | inr v => v =? h - 1000
      | inl _ => false
      end
  | _ => false
  end.

Definition strictFHE : FHE :=
  {| fromExternal := mock_fromExternal;
     checkSignatures := strict_checkSignatures;
     getDecryptionProof := mock_getDecryptionProof |}.

Definition laxFHE : FHE :=
  {| fromExternal := mock_fromExternal;
     checkSignatures := fun _ _ prf => nonempty prf;
     getDecryptionProof := mock_getDecryptionProof |}.

(** A library is strict on the null handle when no decryption proof is
    accepted for the handle of a slot that holds no ciphertext. *)
Definition rejects_null (fhe : FHE) : Prop :=
  forall clear prf, @checkSignatures fhe [0] clear prf = false.

(** ** Observations on a state *)

Definition verifiedCount (st : State) (sessionId : string) : Z :=
  match getVerifiedShardCount st sessionId with
  | inr count => count
  | inl _ => 0
  end.

(** The body of the counting loop, over any flag function. *)
Definition count_body (f : Z -> bool) (count i : Z) : Z :=
  if f i then count + 1 else count.

(** How many [SessionCompleted] events of a session the log holds. *)
Definition is_completion (sessionId : string) (e : Event) : bool :=
  match e with
  | SessionCompleted sid _ => bool_decide (sid = sessionId)
  | _ => false
  end.

Definition completions (sessionId : string) (log : list Event) : nat :=
  length (List.filter (is_completion sessionId) log).

(** The states the entry points end in when they do not revert. *)
Definition created_state (env : Env) (sessionId name0 : string)
    (threshold0 totalShards0 publicValue10 publicValue20 : Z)
    (description0 : string) (st : State) : State :=
  emit (SessionCreated sessionId (msg_sender env))
    (push_sessionId sessionId
      (set_session sessionId
        {| name := name0; threshold := threshold0; totalShards := totalShards0;
           publicValue1 := publicValue10; publicValue2 := publicValue20;
           description := description0; creator := msg_sender env;
           timestamp := block_timestamp env; decryptedValue := 0;
           isComplete := false |} st)).

Definition added_state (env : Env) (sessionId : string) (i h : Z) (st : State) : State :=
  emit (ShardAdded sessionId i (msg_sender env))
    (set_shardCount sessionId (shardCount_at st sessionId + 1)
      (set_shard sessionId i
        {| encryptedValue := h; holder := msg_sender env; isVerified := false |} st)).

Definition verified_state (sessionId : string) (i : Z) (st : State) : State :=
  emit (ShardVerified sessionId i)
    (set_shard sessionId i (shard_set_isVerified true (shard_at st sessionId i)) st).

Definition completed_state (sessionId : string) (r : Z) (st : State) : State :=
  emit (SessionCompleted sessionId r)
    (set_session sessionId
      (session_set_isComplete true
        (session_set_decryptedValue r (session_at st sessionId))) st).

(** ** Invariants of the reachable states *)

(** What every reachable state satisfies, whatever the FHE library. *)
Record wf (st : State) : Prop := mkWf {
  wf_verified : forall sid i,
    isVerified (shard_at st sid i) = true ->
    name (session_at st sid) <> "" /\ 0 <= i < totalShards (session_at st sid);
  wf_holder : forall sid i,
    holder (shard_at st sid i) <> 0 ->
    name (session_at st sid) <> "" /\ 0 <= i < totalShards (session_at st sid);
  wf_threshold : forall sid,
    name (session_at st sid) <> "" ->
    0 < threshold (session_at st sid) <= totalShards (session_at st sid);
  wf_below : forall sid,
    name (session_at st sid) <> "" ->
    isComplete (session_at st sid) = false ->
    verifiedCount st sid < threshold (session_at st sid);
  wf_ghost : forall sid,
    name (session_at st sid) = "" -> isComplete (session_at st sid) = false;
  wf_events : forall sid,
    completions sid (events st) = if isComplete (session_at st sid) then 1%nat else 0%nat
}.

(** What holds in addition when the library rejects the null handle and
    no sender is the zero address: a slot without holder has the null
    handle, a verified slot holds a shard, and a complete session has
    exactly [threshold] verified shards, whose combination is the stored
    value. *)
Record wf_strict {fhe : FHE} (st : State) : Prop := mkWfStrict {
  wfs_empty : forall sid i,
    holder (shard_at st sid i) = 0 -> encryptedValue (shard_at st sid i) = 0;
  wfs_held : forall sid i,
    isVerified (shard_at st sid i) = true -> holder (shard_at st sid i) <> 0;
  wfs_complete : forall sid,
    isComplete (session_at st sid) = true ->
    verifiedCount st sid = threshold (session_at st sid);
  wfs_value : forall sid,
    isComplete (session_at st sid) = true ->
    combineShards st sid = inr (decryptedValue (session_at st sid))
}.

(** ** The combination, as the specification words it *)

(** "Fold with bitwise exclusive-or across all verified values (identity
    element 0)". *)
Definition xor_fold (values : list Z) : Z := foldr Z.lxor 0 values.

(** The verified slots of a session, in index order, and the cleartext
    the contract reads for a slot. *)
Definition verifiedIndices (st : State) (sessionId : string) : list Z :=
  List.filter (fun i => isVerified (shard_at st sessionId i))
              (seqZ 0 (totalShards (session_at st sessionId))).

Definition shardCleartext {fhe : FHE} (st : State) (sessionId : string) (i : Z) : result Z :=
  abi_decode_uint32 (getDecryptionProof (encryptedValue (shard_at st sessionId i))).

Fixpoint mapM_result {A B} (f : A -> result B) (l : list A) : result (list B) :=
  match l with
  | [] => Ok []
  | a :: l' => let! b := f a in let! bs := mapM_result f l' in Ok (b :: bs)
  end.

Definition verifiedCleartexts {fhe : FHE} (st : State) (sessionId : string) : result (list Z) :=
  mapM_result (shardCleartext st sessionId) (verifiedIndices st sessionId).

(** A sequence of verifications of one session, each of which must
    succeed: (index, encoded cleartext, proof). *)
Fixpoint verifyAll {fhe : FHE} (sessionId : string)
    (calls : list (Z * list byte * list byte)) (st : State) : result State :=
  match calls with
  | [] => Ok st
  | (i, clear, prf) :: calls' =>
      let! st' := verifyShard sessionId i clear prf st in
      verifyAll sessionId calls' st'
  end.

(** The terms of a session fixed at creation. *)
Definition same_terms (s s' : RecoverySession) : Prop :=
  name s' = name s /\ threshold s' = threshold s /\
  totalShards s' = totalShards s /\
  publicValue1 s' = publicValue1 s /\ publicValue2 s' = publicValue2 s /\
  description s' = description s /\ creator s' = creator s /\
  timestamp s' = timestamp s.

(** ** A worked session *)

(** Two senders, a proof the stand-in libraries accept, and the session
    of the scenario: threshold 3 of 5 shards, candidates 7 and 42, the
    five shards encrypting 7, 42, 7, 42, 7. *)
Definition alice : Env := {| msg_sender := 11; block_timestamp := 100 |}.
Definition bob : Env := {| msg_sender := 12; block_timestamp := 200 |}.
Definition someProof : list byte := [x01].

Definition create_tx : Env * Call :=
  (alice, CreateSession "s" "wallet" 3 5 7 42 "recovery of the wallet").

Definition add_txs : list (Env * Call) :=
  [ (alice, AddShard "s" 0 1007 someProof);
    (bob, AddShard "s" 1 1042 someProof);
    (alice, AddShard "s" 2 1007 someProof);
    (bob, AddShard "s" 3 1042 someProof);
    (alice, AddShard "s" 4 1007 someProof) ].

Definition verify_tx (i v : Z) : Env * Call :=
  (bob, VerifyShard "s" i (abi_encode_uint v) someProof).

(** The session with all five shards added, with the first three only,
    and after shards 0, 1 and 2 are verified. *)
Definition st_added : State := @run strictFHE (create_tx :: add_txs) initState.
Definition st_partial : State := @run strictFHE (create_tx :: take 3 add_txs) initState.
Definition st_done : State :=
  @run strictFHE [verify_tx 0 7; verify_tx 1 42; verify_tx 2 7] st_added.

(** A session whose shard 0 encrypts 13, which is no candidate. *)
Definition st_odd : State :=
  @run strictFHE [create_tx; (alice, AddShard "s" 0 1013 someProof)] initState.

(** With the lax library: a session of threshold 2 completed by
    verifying two empty slots, whose slots are then filled. *)
Definition lax_txs : list (Env * Call) :=
  [ (alice, CreateSession "t" "vault" 2 3 7 42 "lax");
    (bob, VerifyShard "t" 0 (abi_encode_uint 7) someProof);
    (bob, VerifyShard "t" 1 (abi_encode_uint 42) someProof);
    (alice, AddShard "t" 0 1007 someProof);
    (alice, AddShard "t" 1 1042 someProof) ].

Definition st_lax : State := @run laxFHE lax_txs initState.

(** A session created with an empty name. *)
Definition unnamed_tx : Env * Call :=
  (alice, CreateSession "s" "" 1 1 7 42 "first").
Definition st_unnamed : State := @step strictFHE unnamed_tx initState.

(** The scenario over any FHE library: the inputs [ev k] with proofs
    [ip k] of the five shards, and the decryption proofs [dp k]. *)
Definition scenario_values : list Z := [7; 42; 7; 42; 7].

Definition scenario_value (k : Z) : Z := List.nth (Z.to_nat k) scenario_values 0.

Definition scenario_setup (env : Env) (ev : Z -> Z) (ip : Z -> list byte)
    : list (Env * Call) :=
  [ (env, CreateSession "s" "wallet" 3 5 7 42 "recovery of the wallet");
    (env, AddShard "s" 0 (ev 0) (ip 0));
    (env, AddShard "s" 1 (ev 1) (ip 1));
    (env, AddShard "s" 2 (ev 2) (ip 2));
    (env, AddShard "s" 3 (ev 3) (ip 3));
    (env, AddShard "s" 4 (ev 4) (ip 4)) ].

Definition scenario_verify (env : Env) (dp : Z -> list byte) (k : Z) : Env * Call :=
  (env, VerifyShard "s" k (abi_encode_uint (scenario_value k)) (dp k)).

(** The states the scenario goes through, given the handles [h k]. *)
Definition scenario_created (env : Env) : State :=
  created_state env "s" "wallet" 3 5 7 42 "recovery of the wallet" initState.

Definition scenario_added (env : Env) (h : Z -> Z) : State :=
  added_state env "s" 4 (h 4) (added_state env "s" 3 (h 3)
    (added_state env "s" 2 (h 2) (added_state env "s" 1 (h 1)
      (added_state env "s" 0 (h 0) (scenario_created env))))).

Definition scenario_verified1 (env : Env) (h : Z -> Z) : State :=
  verified_state "s" 0 (scenario_added env h).

Definition scenario_verified2 (env : Env) (h : Z -> Z) : State :=
  verified_state "s" 1 (scenario_verified1 env h).

Definition scenario_verified3 (env : Env) (h : Z -> Z) : State :=
  completed_state "s" 42 (verified_state "s" 2 (scenario_verified2 env h)).

(** ** Further observations *)

(** How many slots of a session hold a shard: the loop of
    [getVerifiedShardCount] over the test of [addShard] on [holder]. *)
Definition heldCount (st : State) (sessionId : string) : Z :=
  foldl (count_body (fun i => negb (holder (shard_at st sessionId i) =? 0))) 0
        (seqZ 0 (totalShards (session_at st sessionId))).

(** Counting the events of one kind in the log. *)
Definition is_created_event (e : Event) : bool :=
  match e with SessionCreated _ _ => true | _ => false end.

Definition is_added_event (sessionId : string) (e : Event) : bool :=
  match e with
  | ShardAdded sid _ _ => bool_decide (sid = sessionId)
  | _ => false
  end.

Definition is_verified_event (sessionId : string) (e : Event) : bool :=
  match e with
  | ShardVerified sid _ => bool_decide (sid = sessionId)
  | _ => false
  end.

Definition count_events (p : Event -> bool) (log : list Event) : nat :=
  length (List.filter p log).

(** The session a transaction names. *)
Definition call_session (c : Call) : string :=
  match c with
  | CreateSession sid _ _ _ _ _ _ => sid
  | AddShard sid _ _ _ => sid
  | VerifyShard sid _ _ _ => sid
  end.

(** A library whose decryption proofs bind the cleartext that
    [getDecryptionProof] later yields for the handle. *)
Definition consistent (fhe : FHE) : Prop :=
  forall h clear prf v,
    @checkSignatures fhe [h] clear prf = true ->
    abi_decode_uint32 clear = inr v ->
    abi_decode_uint32 (@getDecryptionProof fhe h) = inr v.

(** A stand-in library like [laxFHE] whose [getDecryptionProof] yields
    no bytes. *)
Definition brokenFHE : FHE :=
  {| fromExternal := mock_fromExternal;
     checkSignatures := fun _ _ prf => nonempty prf;
     getDecryptionProof := fun _ => [] |}.

(** A verified slot reads a candidate value. *)
Definition verified_read_candidates {fhe : FHE} (st : State) : Prop :=
  forall sid i,
    isVerified (shard_at st sid i) = true ->
    exists v, shardCleartext st sid i = inr v /\
      (v = publicValue1 (session_at st sid) \/ v = publicValue2 (session_at st sid)).

(** What the storage and the log of a reachable state satisfy besides
    [wf]: shards are stored only in the slots of existing sessions, a
    record is stored exactly for the registered ids, the log counts the
    registrations and the shards, and the stored value is a [uint32],
    zero until the session is complete. *)
Record wf_store (st : State) : Prop := mkWfStore {
  ws_shards : forall sid i,
    is_Some (sessionShards st !! (sid, i)) ->
    name (session_at st sid) <> "" /\ 0 <= i < totalShards (session_at st sid);
  ws_registry : forall sid,
    is_Some (sessions st !! sid) <-> sid ∈ sessionIds st;
  ws_created : count_events is_created_event (events st) = length (sessionIds st);
  ws_added : forall sid,
    Z.of_nat (count_events (is_added_event sid) (events st)) = shardCount_at st sid;
  ws_unset : forall sid,
    isComplete (session_at st sid) = false -> decryptedValue (session_at st sid) = 0;
  ws_range : forall sid,
    0 <= decryptedValue (session_at st sid) <= max_uint32
}.

(** ** The front end (App.tsx) *)

Module App.

(** An entry of [operationHistory]. *)
Record HistoryEntry : Type := mkEntry {
  type : string;
  timestamp : Z;
  data : string
}.

(** [addToHistory]: the new entry in front of the nine most recent
    ones; [now] is [Date.now()]. *)
Definition addToHistory (now : Z) (type0 data0 : string)
    (prev : list HistoryEntry) : list HistoryEntry :=
  {| type := type0; timestamp := now; data := data0 |} :: take 9 prev.

(** The regular expression class [\d]. *)
Definition is_digit (c : Ascii.ascii) : bool :=
  (48 <=? Ascii.nat_of_ascii c)%nat && (Ascii.nat_of_ascii c <=? 57)%nat.

(** [value.replace(/[^\d]/g, '')]. *)
Fixpoint strip_non_digits (value : string) : string :=
  match value with
  | EmptyString => EmptyString
  | String c rest =>
      if is_digit c then String c (strip_non_digits rest)
      else strip_non_digits rest
  end.

(** [handleChange] of the guardian form on an input event of the field
    [name0] with text [value]; the form data is a JavaScript object. *)
Definition handleChange (name0 value : string)
    (guardianData : gmap string string) : gmap string string :=
  if String.eqb name0 "shardValue" then
    let intValue := strip_non_digits value in
    <[name0 := intValue]> guardianData
  else
    <[name0 := value]> guardianData.

(** The form data the component starts from and returns to. *)
Definition initialGuardianData : gmap string string :=
  <["name" := ""]> (<["shardValue" := ""]> (<["description" := ""]> ∅)).

(** [!x] on a property of the form data: missing or empty. *)
Definition falsy (x : option string) : bool :=
  match x with
  | None => true
  | Some s => String.eqb s ""
  end.

(** The [disabled] attribute of the submit button. *)
Definition submitDisabled (adding isEncrypting : bool)
    (guardianData : gmap string string) : bool :=
  adding || isEncrypting || falsy (guardianData !! "name")
  || falsy (guardianData !! "shardValue").

Definition all_digits (s : string) : Prop :=
  forall c, In c (String.list_ascii_of_string s) -> is_digit c = true.

End App.

(** * Proofs *)

Arguments getVerifiedShardCount : simpl never.
Arguments verifiedCount : simpl never.
Arguments combineShards : simpl never.
Arguments completeSession : simpl never.
Arguments seqZ : simpl never.
Arguments xor_fold : simpl never.

(** ** Reading the tests and the storage *)

Lemma name_nonempty_test (s : string) :
  (0 <? Z.of_nat (String.length s)) = true <-> s <> "".
Proof.
  destruct s as [|c s]; simpl.
  - split; [discriminate | congruence].
  - split; [discriminate | intros _; apply Z.ltb_lt; lia].
Qed.

Lemma name_empty_test (s : string) :
  (Z.of_nat (String.length s) =? 0) = true <-> s = "".
Proof.
  destruct s as [|c s]; simpl.
  - split; reflexivity.
  - split; discriminate.
Qed.

Lemma name_tests_opposite (s : string) :
  (0 <? Z.of_nat (String.length s)) = negb (Z.of_nat (String.length s) =? 0).
Proof. destruct s; reflexivity. Qed.

Lemma session_at_set_session sid s st sid' :
  session_at (set_session sid s st) sid' =
  if decide (sid = sid') then s else session_at st sid'.
Proof.
  unfold session_at, set_session; simpl.
  destruct (decide (sid = sid')) as [->|Hne].
  - by rewrite lookup_insert_eq.
  - by rewrite lookup_insert_ne.
Qed.

Lemma session_at_set_session_eq sid s st :
  session_at (set_session sid s st) sid = s.
Proof. rewrite session_at_set_session. by destruct (decide (sid = sid)). Qed.

Lemma session_at_set_session_ne sid s st sid' :
  sid <> sid' -> session_at (set_session sid s st) sid' = session_at st sid'.
Proof. intros. rewrite session_at_set_session. by destruct (decide (sid = sid')). Qed.

Lemma shard_at_set_shard sid i sh st sid' j :
  shard_at (set_shard sid i sh st) sid' j =
  if decide ((sid, i) = (sid', j)) then sh else shard_at st sid' j.
Proof.
  unfold shard_at, set_shard; simpl.
  destruct (decide ((sid, i) = (sid', j))) as [->|Hne].
  - by rewrite lookup_insert_eq.
  - by rewrite lookup_insert_ne.
Qed.

Lemma shard_at_set_shard_eq sid i sh st :
  shard_at (set_shard sid i sh st) sid i = sh.
Proof. rewrite shard_at_set_shard. by destruct (decide ((sid, i) = (sid, i))). Qed.

Lemma shard_at_set_shard_ne sid i sh st sid' j :
  (sid, i) <> (sid', j) ->
  shard_at (set_shard sid i sh st) sid' j = shard_at st sid' j.
Proof. intros. rewrite shard_at_set_shard. by destruct (decide ((sid, i) = (sid', j))). Qed.

Lemma set_session_twice sid s1 s2 st :
  set_session sid s2 (set_session sid s1 st) = set_session sid s2 st.
Proof. unfold set_session; simpl. by rewrite insert_insert_eq. Qed.

(** ** Encoding and decoding a word *)

Lemma byte_of_Z_value z : Z.of_N (Byte.to_N (byte_of_Z z)) = z mod 256.
Proof.
  unfold byte_of_Z.
  assert (0 <= z mod 256 < 256) as Hr by (apply Z.mod_pos_bound; lia).
  destruct (Byte.of_N (Z.to_N (z mod 256))) as [b|] eqn:E.
  - apply Byte.to_of_N in E. rewrite E. apply Z2N.id. lia.
  - apply Byte.of_N_None_iff in E. lia.
Qed.

Lemma be_uint_snoc l b :
  be_uint (l ++ [b]) = be_uint l * 256 + Z.of_N (Byte.to_N b).
Proof. unfold be_uint. by rewrite foldl_app. Qed.

Lemma be_bytes_S n v :
  be_bytes (S n) v = be_bytes n (v / 256) ++ [byte_of_Z v].
Proof.
  unfold be_bytes. rewrite seq_S, map_app. simpl. f_equal.
  - apply map_ext_in. intros k Hk. apply in_seq in Hk. f_equal.
    replace (Z.of_nat (S n) - 1 - Z.of_nat k)
      with (Z.succ (Z.of_nat n - 1 - Z.of_nat k)) by lia.
    rewrite Z.pow_succ_r by lia.
    rewrite Z.div_div by (try apply Z.pow_pos_nonneg; lia). reflexivity.
  - replace (Z.of_nat (S n) - 1 - Z.of_nat n) with 0 by lia.
    by rewrite Z.pow_0_r, Z.div_1_r.
Qed.

Lemma be_uint_be_bytes n : forall v, be_uint (be_bytes n v) = v mod 256 ^ Z.of_nat n.
Proof.
  induction n as [|n IH]; intros v.
  - simpl. by rewrite Z.mod_1_r.
  - rewrite be_bytes_S, be_uint_snoc, IH, byte_of_Z_value.
    rewrite Nat2Z.inj_succ, Z.pow_succ_r by lia.
    rewrite (Z.rem_mul_r v 256 (256 ^ Z.of_nat n))
      by (try apply Z.pow_nonzero; lia).
    lia.
Qed.

(** What a caller encodes is what the contract decodes. *)
Lemma abi_decode_encode v :
  0 <= v <= max_uint32 -> abi_decode_uint32 (abi_encode_uint v) = inr v.
Proof.
  intros Hv. unfold abi_decode_uint32, abi_encode_uint.
  assert (length (be_bytes 32 v) = 32%nat) as Hlen.
  { unfold be_bytes. by rewrite length_map, length_seq. }
  rewrite Hlen. simpl (Z.of_nat 32 <? 32).
  rewrite take_ge by lia. rewrite be_uint_be_bytes.
  assert (max_uint32 < 256 ^ Z.of_nat 32) as Hbig by (by vm_compute).
  rewrite Z.mod_small by lia.
  by rewrite (proj2 (Z.leb_le _ _)) by lia.
Qed.

(** ** The counting loop *)

Lemma count_acc f l a :
  foldl (count_body f) a l = a + foldl (count_body f) 0 l.
Proof.
  revert a. induction l as [|i l IH]; intros a; simpl.
  - lia.
  - rewrite (IH (count_body f a i)), (IH (count_body f 0 i)).
    unfold count_body. destruct (f i); lia.
Qed.

Lemma count_nonneg f l : 0 <= foldl (count_body f) 0 l.
Proof.
  induction l as [|i l IH]; simpl; [lia|].
  rewrite count_acc. unfold count_body at 1. destruct (f i); lia.
Qed.

Lemma count_ext f g l :
  (forall i, i ∈ l -> f i = g i) ->
  foldl (count_body f) 0 l = foldl (count_body g) 0 l.
Proof.
  induction l as [|i l IH]; intros Hfg; simpl; [done|].
  rewrite (count_acc f), (count_acc g), IH.
  - unfold count_body. rewrite (Hfg i); [done | by left].
  - intros j Hj. apply Hfg. by right.
Qed.

Lemma count_le f g l :
  (forall i, i ∈ l -> g i = true -> f i = true) ->
  foldl (count_body g) 0 l <= foldl (count_body f) 0 l.
Proof.
  induction l as [|i l IH]; intros Hfg; simpl; [lia|].
  rewrite (count_acc f), (count_acc g).
  assert (foldl (count_body g) 0 l <= foldl (count_body f) 0 l) as Hle.
  { apply IH. intros j Hj. apply Hfg. by right. }
  unfold count_body at 1 3.
  destruct (g i) eqn:Hg.
  - rewrite (Hfg i); [lia | by left | done].
  - destruct (f i); lia.
Qed.

Lemma count_none f l :
  (forall i, i ∈ l -> f i = false) -> foldl (count_body f) 0 l = 0.
Proof.
  induction l as [|i l IH]; intros Hf; simpl; [done|].
  rewrite count_acc, IH.
  - unfold count_body. rewrite (Hf i); [done | by left].
  - intros j Hj. apply Hf. by right.
Qed.

Lemma count_flip f g l i :
  NoDup l -> i ∈ l -> f i = false -> g i = true ->
  (forall j, j <> i -> g j = f j) ->
  foldl (count_body g) 0 l = foldl (count_body f) 0 l + 1.
Proof.
  intros Hnd Hi Hf Hg Hother.
  induction l as [|k l IH]; [by apply elem_of_nil in Hi|].
  apply NoDup_cons in Hnd as [Hk Hnd]. simpl.
  rewrite (count_acc f), (count_acc g).
  apply elem_of_cons in Hi as [->|Hi].
  - unfold count_body at 1 3. rewrite Hf, Hg.
    rewrite (count_ext g f); [lia|].
    intros j Hj. apply Hother. intros ->. contradiction.
  - rewrite IH by done.
    assert (k <> i) as Hki by (intros ->; contradiction).
    unfold count_body at 1 3. rewrite (Hother k Hki). destruct (f k); lia.
Qed.

Lemma verifiedCount_unfold st sid :
  verifiedCount st sid =
  foldl (count_body (fun i => isVerified (shard_at st sid i))) 0
        (seqZ 0 (totalShards (session_at st sid))).
Proof. reflexivity. Qed.

Lemma getVerifiedShardCount_total st sid :
  getVerifiedShardCount st sid = inr (verifiedCount st sid).
Proof. reflexivity. Qed.

Lemma verifiedCount_nonneg st sid : 0 <= verifiedCount st sid.
Proof. rewrite verifiedCount_unfold. apply count_nonneg. Qed.

(** The count reads the bound and the flags of the session's slots. *)
Lemma verifiedCount_ext st st' sid :
  totalShards (session_at st' sid) = totalShards (session_at st sid) ->
  (forall i, 0 <= i < totalShards (session_at st sid) ->
     isVerified (shard_at st' sid i) = isVerified (shard_at st sid i)) ->
  verifiedCount st' sid = verifiedCount st sid.
Proof.
  intros Htot Hflags. rewrite !verifiedCount_unfold, Htot.
  apply count_ext. intros i Hi. apply elem_of_seqZ in Hi. apply Hflags. lia.
Qed.

Lemma verifiedCount_le st st' sid :
  totalShards (session_at st' sid) = totalShards (session_at st sid) ->
  (forall i, isVerified (shard_at st' sid i) = true ->
     isVerified (shard_at st sid i) = true) ->
  verifiedCount st' sid <= verifiedCount st sid.
Proof.
  intros Htot Hflags. rewrite !verifiedCount_unfold, Htot.
  apply count_le. intros i _. apply Hflags.
Qed.

Lemma verifiedCount_none st sid :
  (forall i, isVerified (shard_at st sid i) = false) -> verifiedCount st sid = 0.
Proof. intros H. rewrite verifiedCount_unfold. apply count_none. auto. Qed.

Lemma verifiedCount_verified_state st sid i :
  0 <= i < totalShards (session_at st sid) ->
  isVerified (shard_at st sid i) = false ->
  verifiedCount (verified_state sid i st) sid = verifiedCount st sid + 1.
Proof.
  intros Hi Hflag. rewrite !verifiedCount_unfold.
  change (session_at (verified_state sid i st) sid) with (session_at st sid).
  apply (count_flip _ _ _ i).
  - apply NoDup_seqZ.
  - apply elem_of_seqZ. lia.
  - done.
  - unfold verified_state.
    change (shard_at (emit ?e ?s) sid i) with (shard_at s sid i).
    by rewrite shard_at_set_shard_eq.
  - intros j Hj. unfold verified_state.
    change (shard_at (emit ?e ?s) sid j) with (shard_at s sid j).
    rewrite shard_at_set_shard_ne; [done | congruence].
Qed.

(** ** The entry points, case by case *)

Lemma index_test_true i n : 0 <= i < n -> ((0 <=? i) && (i <? n)) = true.
Proof. intros. apply andb_true_intro. split; [apply Z.leb_le | apply Z.ltb_lt]; lia. Qed.

Lemma index_test_false i n : ~ 0 <= i < n -> ((0 <=? i) && (i <? n)) = false.
Proof.
  intros H. destruct ((0 <=? i) && (i <? n)) eqn:E; [|done].
  apply andb_prop in E as [E1 E2]. apply Z.leb_le in E1. apply Z.ltb_lt in E2. lia.
Qed.

Lemma index_test_spec i n : ((0 <=? i) && (i <? n)) = true <-> 0 <= i < n.
Proof.
  split; [|apply index_test_true].
  intros E. apply andb_prop in E as [E1 E2].
  apply Z.leb_le in E1. apply Z.ltb_lt in E2. lia.
Qed.

Lemma threshold_test_spec th tot : ((0 <? th) && (th <=? tot)) = true <-> 0 < th <= tot.
Proof.
  split.
  - intros E. apply andb_prop in E as [E1 E2].
    apply Z.ltb_lt in E1. apply Z.leb_le in E2. lia.
  - intros. apply andb_true_intro. split; [apply Z.ltb_lt | apply Z.leb_le]; lia.
Qed.

Lemma candidate_test_spec v pv1 pv2 : ((v =? pv1) || (v =? pv2)) = true <-> v = pv1 \/ v = pv2.
Proof.
  rewrite orb_true_iff, !Z.eqb_eq. tauto.
Qed.

Lemma name_nonempty_true s : s <> "" -> (0 <? Z.of_nat (String.length s)) = true.
Proof. apply name_nonempty_test. Qed.

Lemma name_nonempty_false s : s = "" -> (0 <? Z.of_nat (String.length s)) = false.
Proof. intros ->. reflexivity. Qed.

Lemma name_empty_true s : s = "" -> (Z.of_nat (String.length s) =? 0) = true.
Proof. intros ->. reflexivity. Qed.

Lemma name_empty_false s : s <> "" -> (Z.of_nat (String.length s) =? 0) = false.
Proof. intros H. destruct s; [congruence | reflexivity]. Qed.

Lemma name_dec (s : string) : {s = ""} + {s <> ""}.
Proof. destruct s; [left | right]; congruence. Qed.

(** *** createSession *)

Lemma createSession_exists env sid nm th tot pv1 pv2 d st :
  name (session_at st sid) <> "" ->
  createSession env sid nm th tot pv1 pv2 d st = inl (Revert "Session already exists").
Proof. intros H. unfold createSession. by rewrite (name_empty_false _ H). Qed.

Lemma createSession_bad_threshold env sid nm th tot pv1 pv2 d st :
  name (session_at st sid) = "" -> ~ 0 < th <= tot ->
  createSession env sid nm th tot pv1 pv2 d st = inl (Revert "Invalid threshold").
Proof.
  intros H Hth. unfold createSession. rewrite (name_empty_true _ H). simpl.
  destruct ((0 <? th) && (th <=? tot)) eqn:E; [|done].
  apply threshold_test_spec in E. contradiction.
Qed.

Lemma createSession_ok env sid nm th tot pv1 pv2 d st :
  name (session_at st sid) = "" -> 0 < th <= tot ->
  createSession env sid nm th tot pv1 pv2 d st =
  inr (created_state env sid nm th tot pv1 pv2 d st).
Proof.
  intros H Hth. unfold createSession. rewrite (name_empty_true _ H). simpl.
  by rewrite (proj2 (threshold_test_spec th tot) Hth).
Qed.

Lemma createSession_inv env sid nm th tot pv1 pv2 d st st' :
  createSession env sid nm th tot pv1 pv2 d st = inr st' ->
  name (session_at st sid) = "" /\ 0 < th <= tot /\
  st' = created_state env sid nm th tot pv1 pv2 d st.
Proof.
  intros H.
  destruct (name_dec (name (session_at st sid))) as [Hn|Hn].
  - destruct (decide (0 < th <= tot)) as [Hth|Hth].
    + rewrite createSession_ok in H by done. by inversion H.
    + rewrite createSession_bad_threshold in H by done. discriminate.
  - rewrite createSession_exists in H by done. discriminate.
Qed.

Section EntryPoints.
Context {fhe : FHE}.

(** *** addShard *)

Lemma addShard_missing env sid i ev prf st :
  name (session_at st sid) = "" ->
  addShard env sid i ev prf st = inl (Revert "Session does not exist").
Proof. intros H. unfold addShard. by rewrite (name_nonempty_false _ H). Qed.

Lemma addShard_bad_index env sid i ev prf st :
  name (session_at st sid) <> "" ->
  ~ 0 <= i < totalShards (session_at st sid) ->
  addShard env sid i ev prf st = inl (Revert "Invalid shard index").
Proof.
  intros H Hi. unfold addShard. rewrite (name_nonempty_true _ H). simpl.
  by rewrite (index_test_false _ _ Hi).
Qed.

Lemma addShard_occupied env sid i ev prf st :
  name (session_at st sid) <> "" ->
  0 <= i < totalShards (session_at st sid) ->
  holder (shard_at st sid i) <> 0 ->
  addShard env sid i ev prf st = inl (Revert "Shard already exists").
Proof.
  intros H Hi Hh. unfold addShard. rewrite (name_nonempty_true _ H). simpl.
  rewrite (index_test_true _ _ Hi). simpl.
  by rewrite (proj2 (Z.eqb_neq _ _) Hh).
Qed.

Lemma shardCount_at_set_shard sid i sh st sid' :
  shardCount_at (set_shard sid i sh st) sid' = shardCount_at st sid'.
Proof. reflexivity. Qed.

Lemma addShard_free env sid i ev prf st :
  name (session_at st sid) <> "" ->
  0 <= i < totalShards (session_at st sid) ->
  holder (shard_at st sid i) = 0 ->
  addShard env sid i ev prf st =
  match fromExternal ev prf with
  | None => inl FHERevert
  | Some h =>
      if h =? 0 then inl (Revert "Invalid encrypted input")
      else if shardCount_at st sid + 1 <=? max_uint256
           then inr (added_state env sid i h st)
           else inl Panic
  end.
Proof.
  intros H Hi Hh. unfold addShard. rewrite (name_nonempty_true _ H). simpl.
  rewrite (index_test_true _ _ Hi). simpl.
  rewrite Hh. simpl. unfold fromExternal_call.
  destruct (fromExternal ev prf) as [h|]; simpl; [|done].
  unfold isInitialized. destruct (h =? 0); simpl; [done|].
  rewrite shardCount_at_set_shard.
  by destruct (shardCount_at st sid + 1 <=? max_uint256).
Qed.

Lemma addShard_ok env sid i ev prf h st :
  name (session_at st sid) <> "" ->
  0 <= i < totalShards (session_at st sid) ->
  holder (shard_at st sid i) = 0 ->
  fromExternal ev prf = Some h -> h <> 0 ->
  shardCount_at st sid + 1 <= max_uint256 ->
  addShard env sid i ev prf st = inr (added_state env sid i h st).
Proof.
  intros H Hi Hh Hev Hh0 Hc. rewrite addShard_free by done. rewrite Hev.
  rewrite (proj2 (Z.eqb_neq _ _) Hh0).
  by rewrite (proj2 (Z.leb_le _ _) Hc).
Qed.

Lemma addShard_inv env sid i ev prf st st' :
  addShard env sid i ev prf st = inr st' ->
  name (session_at st sid) <> "" /\
  0 <= i < totalShards (session_at st sid) /\
  holder (shard_at st sid i) = 0 /\
  exists h, fromExternal ev prf = Some h /\ h <> 0 /\
            st' = added_state env sid i h st.
Proof.
  intros Hrun.
  destruct (name_dec (name (session_at st sid))) as [Hn|Hn].
  { rewrite addShard_missing in Hrun by done. discriminate. }
  destruct (decide (0 <= i < totalShards (session_at st sid))) as [Hi|Hi].
  2: { rewrite addShard_bad_index in Hrun by done. discriminate. }
  destruct (decide (holder (shard_at st sid i) = 0)) as [Hh|Hh].
  2: { rewrite addShard_occupied in Hrun by done. discriminate. }
  rewrite addShard_free in Hrun by done.
  destruct (fromExternal ev prf) as [h|]; [|discriminate].
  destruct (h =? 0) eqn:Eh; [discriminate|].
  destruct (shardCount_at st sid + 1 <=? max_uint256); [|discriminate].
  inversion Hrun. apply Z.eqb_neq in Eh. eauto 10.
Qed.

(** *** completeSession *)

Lemma completeSession_done st sid :
  isComplete (session_at st sid) = true ->
  completeSession st sid = inl (Revert "Session already completed").
Proof. intros H. unfold completeSession. by rewrite H. Qed.

Lemma completeSession_open st sid :
  isComplete (session_at st sid) = false ->
  completeSession st sid =
  match combineShards st sid with
  | inr r => inr (completed_state sid r st)
  | inl e => inl e
  end.
Proof.
  intros H. unfold completeSession. rewrite H. simpl.
  destruct (combineShards st sid) as [e|r]; simpl; [done|].
  rewrite session_at_set_session_eq, set_session_twice. reflexivity.
Qed.

(** *** verifyShard *)

Lemma verifyShard_missing sid i clear prf st :
  name (session_at st sid) = "" ->
  verifyShard sid i clear prf st = inl (Revert "Session does not exist").
Proof. intros H. unfold verifyShard. by rewrite (name_nonempty_false _ H). Qed.

Lemma verifyShard_bad_index sid i clear prf st :
  name (session_at st sid) <> "" ->
  ~ 0 <= i < totalShards (session_at st sid) ->
  verifyShard sid i clear prf st = inl (Revert "Invalid shard index").
Proof.
  intros H Hi. unfold verifyShard. rewrite (name_nonempty_true _ H). simpl.
  by rewrite (index_test_false _ _ Hi).
Qed.

Lemma verifyShard_already sid i clear prf st :
  name (session_at st sid) <> "" ->
  0 <= i < totalShards (session_at st sid) ->
  isVerified (shard_at st sid i) = true ->
  verifyShard sid i clear prf st = inl (Revert "Shard already verified").
Proof.
  intros H Hi Hv. unfold verifyShard. rewrite (name_nonempty_true _ H). simpl.
  rewrite (index_test_true _ _ Hi). simpl. by rewrite Hv.
Qed.

(** Past the three storage tests, the call is decided by the proof,
    the decoded value and the count. *)
Lemma verifyShard_unverified sid i clear prf st :
  name (session_at st sid) <> "" ->
  0 <= i < totalShards (session_at st sid) ->
  isVerified (shard_at st sid i) = false ->
  verifyShard sid i clear prf st =
  if checkSignatures [encryptedValue (shard_at st sid i)] clear prf then
    match abi_decode_uint32 clear with
    | inl e => inl e
    | inr v =>
        if (v =? publicValue1 (session_at st sid))
           || (v =? publicValue2 (session_at st sid))
        then
          if threshold (session_at st sid) <=? verifiedCount st sid + 1
          then completeSession (verified_state sid i st) sid
          else inr (verified_state sid i st)
        else inl (Revert "Invalid shard value")
    end
  else inl FHERevert.
Proof.
  intros H Hi Hv. unfold verifyShard. rewrite (name_nonempty_true _ H). simpl.
  rewrite (index_test_true _ _ Hi). simpl. rewrite Hv. simpl.
  unfold toBytes32.
  destruct (checkSignatures _ clear prf); simpl; [|done].
  destruct (abi_decode_uint32 clear) as [e|v]; simpl; [done|].
  destruct ((v =? _) || (v =? _)); simpl; [|done].
  fold (verified_state sid i st).
  change (for_range _ _ 0) with (verifiedCount (verified_state sid i st) sid).
  rewrite verifiedCount_verified_state by done.
  reflexivity.
Qed.

End EntryPoints.

Section VerifyOutcome.
Context {fhe : FHE}.

Lemma verifyShard_inv sid i clear prf st st' :
  verifyShard sid i clear prf st = inr st' ->
  name (session_at st sid) <> "" /\
  0 <= i < totalShards (session_at st sid) /\
  isVerified (shard_at st sid i) = false /\
  checkSignatures [encryptedValue (shard_at st sid i)] clear prf = true /\
  (exists v, abi_decode_uint32 clear = inr v /\
     (v = publicValue1 (session_at st sid) \/ v = publicValue2 (session_at st sid))) /\
  ((verifiedCount st sid + 1 < threshold (session_at st sid) /\
    st' = verified_state sid i st) \/
   (threshold (session_at st sid) <= verifiedCount st sid + 1 /\
    isComplete (session_at st sid) = false /\
    exists r, combineShards (verified_state sid i st) sid = inr r /\
              st' = completed_state sid r (verified_state sid i st))).
Proof.
  intros Hrun.
  destruct (name_dec (name (session_at st sid))) as [Hn|Hn].
  { rewrite verifyShard_missing in Hrun by done. discriminate. }
  destruct (decide (0 <= i < totalShards (session_at st sid))) as [Hi|Hi].
  2: { rewrite verifyShard_bad_index in Hrun by done. discriminate. }
  destruct (isVerified (shard_at st sid i)) eqn:Hv.
  { rewrite verifyShard_already in Hrun by done. discriminate. }
  rewrite verifyShard_unverified in Hrun by done.
  destruct (checkSignatures _ clear prf) eqn:Hsig; [|discriminate].
  destruct (abi_decode_uint32 clear) as [e|v] eqn:Hdec; [discriminate|].
  destruct ((v =? _) || (v =? _)) eqn:Hcand; [|discriminate].
  apply candidate_test_spec in Hcand.
  do 4 (split; [done|]). split; [eauto|].
  destruct (threshold (session_at st sid) <=? verifiedCount st sid + 1) eqn:Hth.
  - apply Z.leb_le in Hth. right.
    destruct (isComplete (session_at st sid)) eqn:Hc.
    + rewrite completeSession_done in Hrun by done. discriminate.
    + rewrite completeSession_open in Hrun by done.
      destruct (combineShards (verified_state sid i st) sid) as [e|r] eqn:Hcomb;
        [discriminate|].
      inversion Hrun. eauto.
  - apply Z.leb_gt in Hth. left. inversion Hrun. split; [lia | done].
Qed.

End VerifyOutcome.

(** ** Reading the end states *)

Lemma shard_at_verified_state sid i st sid' j :
  shard_at (verified_state sid i st) sid' j =
  if decide ((sid, i) = (sid', j))
  then shard_set_isVerified true (shard_at st sid i)
  else shard_at st sid' j.
Proof. unfold verified_state. apply shard_at_set_shard. Qed.

Lemma session_at_verified_state sid i st sid' :
  session_at (verified_state sid i st) sid' = session_at st sid'.
Proof. reflexivity. Qed.

Lemma events_verified_state sid i st :
  events (verified_state sid i st) = events st ++ [ShardVerified sid i].
Proof. reflexivity. Qed.

Lemma shard_at_added_state env sid i h st sid' j :
  shard_at (added_state env sid i h st) sid' j =
  if decide ((sid, i) = (sid', j))
  then {| encryptedValue := h; holder := msg_sender env; isVerified := false |}
  else shard_at st sid' j.
Proof. unfold added_state. apply shard_at_set_shard. Qed.

Lemma session_at_added_state env sid i h st sid' :
  session_at (added_state env sid i h st) sid' = session_at st sid'.
Proof. reflexivity. Qed.

Lemma session_at_created_state env sid nm th tot pv1 pv2 d st sid' :
  session_at (created_state env sid nm th tot pv1 pv2 d st) sid' =
  if decide (sid = sid')
  then {| name := nm; threshold := th; totalShards := tot;
          publicValue1 := pv1; publicValue2 := pv2; description := d;
          creator := msg_sender env; timestamp := block_timestamp env;
          decryptedValue := 0; isComplete := false |}
  else session_at st sid'.
Proof. unfold created_state. apply session_at_set_session. Qed.

Lemma shard_at_created_state env sid nm th tot pv1 pv2 d st sid' j :
  shard_at (created_state env sid nm th tot pv1 pv2 d st) sid' j = shard_at st sid' j.
Proof. reflexivity. Qed.

Lemma session_at_completed_state sid r st sid' :
  session_at (completed_state sid r st) sid' =
  if decide (sid = sid')
  then session_set_isComplete true (session_set_decryptedValue r (session_at st sid))
  else session_at st sid'.
Proof. unfold completed_state. apply session_at_set_session. Qed.

Lemma shard_at_completed_state sid r st sid' j :
  shard_at (completed_state sid r st) sid' j = shard_at st sid' j.
Proof. reflexivity. Qed.

Lemma events_completed_state sid r st :
  events (completed_state sid r st) = events st ++ [SessionCompleted sid r].
Proof. reflexivity. Qed.

Lemma completions_app sid l1 l2 :
  completions sid (l1 ++ l2) = (completions sid l1 + completions sid l2)%nat.
Proof. unfold completions. by rewrite List.filter_app, length_app. Qed.

Lemma completions_other sid e l :
  is_completion sid e = false -> completions sid (l ++ [e]) = completions sid l.
Proof.
  intros H. rewrite completions_app. unfold completions at 2. simpl.
  rewrite H. simpl. lia.
Qed.

Lemma completions_same sid r l :
  completions sid (l ++ [SessionCompleted sid r]) = S (completions sid l).
Proof.
  rewrite completions_app. unfold completions at 2. simpl.
  rewrite bool_decide_eq_true_2 by done. simpl. lia.
Qed.

Lemma verifiedCount_created_state env sid nm th tot pv1 pv2 d st sid' :
  sid <> sid' ->
  verifiedCount (created_state env sid nm th tot pv1 pv2 d st) sid' =
  verifiedCount st sid'.
Proof.
  intros Hne. apply verifiedCount_ext.
  - rewrite session_at_created_state. by destruct (decide (sid = sid')).
  - intros. reflexivity.
Qed.

Lemma verifiedCount_other_verified sid i st sid' :
  sid <> sid' ->
  verifiedCount (verified_state sid i st) sid' = verifiedCount st sid'.
Proof.
  intros Hne. apply verifiedCount_ext; [done|].
  intros j _. rewrite shard_at_verified_state.
  destruct (decide ((sid, i) = (sid', j))); [congruence | done].
Qed.

Lemma totalShards_completed_state sid r st sid' :
  totalShards (session_at (completed_state sid r st) sid') =
  totalShards (session_at st sid').
Proof.
  rewrite session_at_completed_state.
  by destruct (decide (sid = sid')) as [->|].
Qed.

Lemma verifiedCount_completed_state sid r st sid' :
  verifiedCount (completed_state sid r st) sid' = verifiedCount st sid'.
Proof.
  apply verifiedCount_ext; [apply totalShards_completed_state | done].
Qed.

(** ** The invariant is kept by every entry point *)

Lemma session_at_init sid : session_at initState sid = zero_session.
Proof. unfold session_at, initState; simpl. by rewrite lookup_empty. Qed.

Lemma shard_at_init sid i : shard_at initState sid i = zero_shard.
Proof. unfold shard_at, initState; simpl. by rewrite lookup_empty. Qed.

Lemma wf_init : wf initState.
Proof.
  split; intros sid; try intros i; rewrite ?session_at_init, ?shard_at_init;
    simpl; try done.
Qed.

Lemma wf_created env sid nm th tot pv1 pv2 d st :
  wf st -> name (session_at st sid) = "" -> 0 < th <= tot ->
  wf (created_state env sid nm th tot pv1 pv2 d st).
Proof.
  intros Hwf Hn Hth.
  assert (forall j, isVerified (shard_at st sid j) = false) as Hnone.
  { intros j. destruct (isVerified (shard_at st sid j)) eqn:E; [|done].
    apply (wf_verified _ Hwf) in E as [E _]. contradiction. }
  assert (forall j, holder (shard_at st sid j) = 0) as Hfree.
  { intros j. destruct (decide (holder (shard_at st sid j) = 0)) as [|E]; [done|].
    apply (wf_holder _ Hwf) in E as [E _]. contradiction. }
  split.
  - intros sid' i Hv. rewrite shard_at_created_state in Hv.
    rewrite session_at_created_state.
    destruct (decide (sid = sid')) as [<-|Hne].
    + by rewrite Hnone in Hv.
    + by apply (wf_verified _ Hwf).
  - intros sid' i Hh. rewrite shard_at_created_state in Hh.
    rewrite session_at_created_state.
    destruct (decide (sid = sid')) as [<-|Hne].
    + by rewrite Hfree in Hh.
    + by apply (wf_holder _ Hwf).
  - intros sid'. rewrite session_at_created_state.
    destruct (decide (sid = sid')) as [<-|Hne]; simpl; [done|].
    apply (wf_threshold _ Hwf).
  - intros sid'. destruct (decide (sid = sid')) as [<-|Hne].
    + rewrite session_at_created_state.
      destruct (decide (sid = sid)); [simpl | done]. intros _ _.
      rewrite verifiedCount_none; [lia|].
      intros j. rewrite shard_at_created_state. apply Hnone.
    + rewrite verifiedCount_created_state by done.
      rewrite session_at_created_state.
      destruct (decide (sid = sid')); [done|]. apply (wf_below _ Hwf).
  - intros sid'. rewrite session_at_created_state.
    destruct (decide (sid = sid')) as [<-|Hne]; simpl; [done|].
    apply (wf_ghost _ Hwf).
  - intros sid'. unfold created_state at 1. simpl.
    rewrite completions_other by done.
    rewrite session_at_created_state.
    destruct (decide (sid = sid')) as [<-|Hne]; simpl.
    + rewrite (wf_events _ Hwf). by rewrite (wf_ghost _ Hwf sid Hn).
    + apply (wf_events _ Hwf).
Qed.

Lemma verifiedCount_added_le env sid i h st sid' :
  verifiedCount (added_state env sid i h st) sid' <= verifiedCount st sid'.
Proof.
  apply verifiedCount_le; [done|].
  intros j. rewrite shard_at_added_state.
  by destruct (decide ((sid, i) = (sid', j))).
Qed.

Lemma wf_added env sid i h st :
  wf st -> name (session_at st sid) <> "" ->
  0 <= i < totalShards (session_at st sid) ->
  wf (added_state env sid i h st).
Proof.
  intros Hwf Hn Hi. split.
  - intros sid' j Hv. rewrite shard_at_added_state in Hv.
    rewrite session_at_added_state.
    destruct (decide ((sid, i) = (sid', j))); [done|].
    by apply (wf_verified _ Hwf).
  - intros sid' j Hh. rewrite shard_at_added_state in Hh.
    rewrite session_at_added_state.
    destruct (decide ((sid, i) = (sid', j))) as [E|]; [by inversion E; subst|].
    by apply (wf_holder _ Hwf).
  - intros sid'. apply (wf_threshold _ Hwf).
  - intros sid' Hn' Hc. rewrite session_at_added_state in *.
    pose proof (verifiedCount_added_le env sid i h st sid').
    pose proof (wf_below _ Hwf sid' Hn' Hc). lia.
  - intros sid'. apply (wf_ghost _ Hwf).
  - intros sid'. unfold added_state at 1. simpl.
    rewrite completions_other by done. apply (wf_events _ Hwf).
Qed.

Lemma wf_verified_state sid i st :
  wf st -> name (session_at st sid) <> "" ->
  0 <= i < totalShards (session_at st sid) ->
  isVerified (shard_at st sid i) = false ->
  verifiedCount st sid + 1 < threshold (session_at st sid) ->
  wf (verified_state sid i st).
Proof.
  intros Hwf Hn Hi Hv Hlt. split.
  - intros sid' j Hv'. rewrite shard_at_verified_state in Hv'.
    rewrite session_at_verified_state.
    destruct (decide ((sid, i) = (sid', j))) as [E|]; [by inversion E; subst|].
    by apply (wf_verified _ Hwf).
  - intros sid' j Hh. rewrite shard_at_verified_state in Hh.
    rewrite session_at_verified_state.
    destruct (decide ((sid, i) = (sid', j))) as [E|]; [by inversion E; subst|].
    by apply (wf_holder _ Hwf).
  - intros sid'. apply (wf_threshold _ Hwf).
  - intros sid' Hn' Hc. rewrite session_at_verified_state in *.
    destruct (decide (sid = sid')) as [<-|Hne].
    + by rewrite verifiedCount_verified_state.
    + rewrite verifiedCount_other_verified by done. by apply (wf_below _ Hwf).
  - intros sid'. apply (wf_ghost _ Hwf).
  - intros sid'. rewrite events_verified_state.
    rewrite completions_other by done. apply (wf_events _ Hwf).
Qed.

Lemma wf_completed sid i r st :
  wf st -> name (session_at st sid) <> "" ->
  0 <= i < totalShards (session_at st sid) ->
  isVerified (shard_at st sid i) = false ->
  isComplete (session_at st sid) = false ->
  wf (completed_state sid r (verified_state sid i st)).
Proof.
  intros Hwf Hn Hi Hv Hc. split.
  - intros sid' j Hv'. rewrite shard_at_completed_state in Hv'.
    rewrite shard_at_verified_state in Hv'.
    rewrite totalShards_completed_state, session_at_completed_state.
    rewrite !session_at_verified_state.
    assert (name (session_at st sid') <> "" /\ 0 <= j < totalShards (session_at st sid'))
      as [? ?].
    { destruct (decide ((sid, i) = (sid', j))) as [E|]; [by inversion E; subst|].
      by apply (wf_verified _ Hwf). }
    split; [|done]. by destruct (decide (sid = sid')) as [<-|].
  - intros sid' j Hh. rewrite shard_at_completed_state in Hh.
    rewrite shard_at_verified_state in Hh.
    rewrite totalShards_completed_state, session_at_completed_state.
    rewrite !session_at_verified_state.
    assert (name (session_at st sid') <> "" /\ 0 <= j < totalShards (session_at st sid'))
      as [? ?].
    { destruct (decide ((sid, i) = (sid', j))) as [E|]; [by inversion E; subst|].
      by apply (wf_holder _ Hwf). }
    split; [|done]. by destruct (decide (sid = sid')) as [<-|].
  - intros sid'. rewrite session_at_completed_state, !session_at_verified_state.
    destruct (decide (sid = sid')) as [<-|]; simpl; apply (wf_threshold _ Hwf).
  - intros sid'. rewrite verifiedCount_completed_state.
    rewrite session_at_completed_state, !session_at_verified_state.
    destruct (decide (sid = sid')) as [<-|Hne]; simpl; [done|].
    rewrite verifiedCount_other_verified by done. apply (wf_below _ Hwf).
  - intros sid'. rewrite session_at_completed_state, !session_at_verified_state.
    destruct (decide (sid = sid')) as [<-|Hne]; simpl; [done|].
    apply (wf_ghost _ Hwf).
  - intros sid'. rewrite events_completed_state, events_verified_state.
    rewrite session_at_completed_state, !session_at_verified_state.
    destruct (decide (sid = sid')) as [<-|Hne]; simpl.
    + rewrite completions_same, completions_other by done.
      rewrite (wf_events _ Hwf). by rewrite Hc.
    + rewrite completions_other.
      * rewrite completions_other by done. apply (wf_events _ Hwf).
      * simpl. by apply bool_decide_eq_false_2.
Qed.

Section Reachability.
Context {fhe : FHE}.

Lemma wf_exec tx st st' : wf st -> exec tx st = inr st' -> wf st'.
Proof.
  intros Hwf Hrun. destruct tx as [env [sid nm th tot pv1 pv2 d|sid i ev prf|sid i clear prf]];
    simpl in Hrun.
  - apply createSession_inv in Hrun as (Hn & Hth & ->). by apply wf_created.
  - apply addShard_inv in Hrun as (Hn & Hi & _ & h & _ & _ & ->). by apply wf_added.
  - apply verifyShard_inv in Hrun as (Hn & Hi & Hv & _ & _ & Hcase).
    destruct Hcase as [[Hlt ->]|(Hge & Hc & r & _ & ->)].
    + by apply wf_verified_state.
    + by apply wf_completed.
Qed.

Lemma wf_step tx st : wf st -> wf (step tx st).
Proof.
  intros Hwf. unfold step. destruct (exec tx st) as [e|st'] eqn:Hrun; [done|].
  by apply (wf_exec tx st).
Qed.

Lemma reachable_wf st : reachable st -> wf st.
Proof. induction 1; [apply wf_init | by apply wf_step]. Qed.

Lemma wf_run txs st : wf st -> wf (run txs st).
Proof.
  revert st. induction txs as [|tx txs IH]; intros st Hwf; simpl; [done|].
  apply IH. by apply wf_step.
Qed.

Lemma reachable_run txs st :
  reachable st -> Forall valid_tx txs -> reachable (run txs st).
Proof.
  revert st. induction txs as [|tx txs IH]; intros st Hr Hall; simpl; [done|].
  apply Forall_cons in Hall as [Htx Hall].
  apply IH; [|done]. by constructor.
Qed.

End Reachability.

(** ** The combining loop reads the verified slots only *)

Lemma loopM_ext {A} (f g : A -> Z -> result A) (l : list Z) (a : A) :
  (forall b i, i ∈ l -> f b i = g b i) -> loopM f a l = loopM g a l.
Proof.
  revert a. induction l as [|i l IH]; intros a Hfg; simpl; [done|].
  rewrite (Hfg a i) by (by left).
  destruct (g a i) as [e|b]; simpl; [done|].
  apply IH. intros c j Hj. apply Hfg. by right.
Qed.

Section Combine.
Context {fhe : FHE}.

Lemma combineShards_ext st st' sid :
  totalShards (session_at st' sid) = totalShards (session_at st sid) ->
  (forall i, 0 <= i < totalShards (session_at st sid) ->
     isVerified (shard_at st' sid i) = isVerified (shard_at st sid i) /\
     (isVerified (shard_at st sid i) = true ->
      encryptedValue (shard_at st' sid i) = encryptedValue (shard_at st sid i))) ->
  combineShards st' sid = combineShards st sid.
Proof.
  intros Htot Hsame. unfold combineShards, for_rangeM. rewrite Htot.
  apply loopM_ext. intros b i Hi. apply elem_of_seqZ in Hi.
  destruct (Hsame i) as [Hflag Hval]; [lia|].
  rewrite Hflag. destruct (isVerified (shard_at st sid i)); [|done].
  by rewrite Hval.
Qed.

Lemma combineShards_completed_state sid r st sid' :
  combineShards (completed_state sid r st) sid' = combineShards st sid'.
Proof.
  apply combineShards_ext; [apply totalShards_completed_state | done].
Qed.

Lemma combineShards_other_verified sid i st sid' :
  sid <> sid' ->
  combineShards (verified_state sid i st) sid' = combineShards st sid'.
Proof.
  intros Hne. apply combineShards_ext; [done|].
  intros j _. rewrite shard_at_verified_state.
  destruct (decide ((sid, i) = (sid', j))); [congruence | done].
Qed.

Lemma combineShards_created_state env sid nm th tot pv1 pv2 d st sid' :
  sid <> sid' ->
  combineShards (created_state env sid nm th tot pv1 pv2 d st) sid' =
  combineShards st sid'.
Proof.
  intros Hne. apply combineShards_ext; [|done].
  rewrite session_at_created_state. by destruct (decide (sid = sid')).
Qed.

Lemma combineShards_added_state env sid i h st sid' :
  isVerified (shard_at st sid i) = false ->
  combineShards (added_state env sid i h st) sid' = combineShards st sid'.
Proof.
  intros Hv. apply combineShards_ext; [done|].
  intros j _. rewrite shard_at_added_state.
  destruct (decide ((sid, i) = (sid', j))) as [E|]; [|done].
  inversion E; subst. simpl. rewrite Hv. split; [done | discriminate].
Qed.

Lemma verifiedCount_added_state env sid i h st sid' :
  isVerified (shard_at st sid i) = false ->
  verifiedCount (added_state env sid i h st) sid' = verifiedCount st sid'.
Proof.
  intros Hv. apply verifiedCount_ext; [done|].
  intros j _. rewrite shard_at_added_state.
  destruct (decide ((sid, i) = (sid', j))) as [E|]; [|done].
  inversion E; subst. by rewrite Hv.
Qed.

(** ** The strict invariant *)

Lemma wf_strict_init : wf_strict initState.
Proof.
  split; intros sid; try intros i; rewrite ?session_at_init, ?shard_at_init;
    simpl; try done.
Qed.

Lemma wf_strict_created env sid nm th tot pv1 pv2 d st :
  wf_strict st ->
  wf_strict (created_state env sid nm th tot pv1 pv2 d st).
Proof.
  intros Hs. split.
  - intros sid' j. rewrite shard_at_created_state. apply (wfs_empty _ Hs).
  - intros sid' j. rewrite shard_at_created_state. apply (wfs_held _ Hs).
  - intros sid'. rewrite session_at_created_state.
    destruct (decide (sid = sid')) as [<-|Hne]; simpl; [done|].
    rewrite verifiedCount_created_state by done. apply (wfs_complete _ Hs).
  - intros sid'. rewrite session_at_created_state.
    destruct (decide (sid = sid')) as [<-|Hne]; simpl; [done|].
    rewrite combineShards_created_state by done. apply (wfs_value _ Hs).
Qed.

Lemma unheld_unverified st sid i :
  wf_strict st -> holder (shard_at st sid i) = 0 ->
  isVerified (shard_at st sid i) = false.
Proof.
  intros Hs Hh. destruct (isVerified (shard_at st sid i)) eqn:E; [|done].
  by apply (wfs_held _ Hs) in E.
Qed.

Lemma wf_strict_added env sid i h st :
  wf_strict st -> holder (shard_at st sid i) = 0 -> msg_sender env <> 0 ->
  wf_strict (added_state env sid i h st).
Proof.
  intros Hs Hh Hsender.
  pose proof (unheld_unverified st sid i Hs Hh) as Hv.
  split.
  - intros sid' j. rewrite shard_at_added_state.
    destruct (decide ((sid, i) = (sid', j))); [done|]. apply (wfs_empty _ Hs).
  - intros sid' j. rewrite shard_at_added_state.
    destruct (decide ((sid, i) = (sid', j))); [done|]. apply (wfs_held _ Hs).
  - intros sid'. rewrite session_at_added_state.
    rewrite verifiedCount_added_state by done. apply (wfs_complete _ Hs).
  - intros sid'. rewrite session_at_added_state.
    rewrite combineShards_added_state by done. apply (wfs_value _ Hs).
Qed.

Hypothesis strict : rejects_null fhe.

Lemma checked_slot_held st sid i clear prf :
  wf_strict st ->
  checkSignatures [encryptedValue (shard_at st sid i)] clear prf = true ->
  holder (shard_at st sid i) <> 0.
Proof.
  intros Hs Hsig Hh. apply (wfs_empty _ Hs) in Hh. rewrite Hh in Hsig.
  by rewrite strict in Hsig.
Qed.

Lemma wf_strict_shards_verified sid i st clear prf :
  wf_strict st ->
  checkSignatures [encryptedValue (shard_at st sid i)] clear prf = true ->
  (forall sid' j, holder (shard_at (verified_state sid i st) sid' j) = 0 ->
     encryptedValue (shard_at (verified_state sid i st) sid' j) = 0) /\
  (forall sid' j, isVerified (shard_at (verified_state sid i st) sid' j) = true ->
     holder (shard_at (verified_state sid i st) sid' j) <> 0).
Proof.
  intros Hs Hsig. split; intros sid' j; rewrite shard_at_verified_state;
    destruct (decide ((sid, i) = (sid', j))); simpl.
  - apply (wfs_empty _ Hs).
  - apply (wfs_empty _ Hs).
  - intros _. by apply (checked_slot_held st sid i clear prf).
  - apply (wfs_held _ Hs).
Qed.

Lemma wf_strict_verified_state sid i st clear prf :
  wf_strict st ->
  checkSignatures [encryptedValue (shard_at st sid i)] clear prf = true ->
  verifiedCount st sid + 1 < threshold (session_at st sid) ->
  wf_strict (verified_state sid i st).
Proof.
  intros Hs Hsig Hlt.
  destruct (wf_strict_shards_verified sid i st clear prf Hs Hsig) as [He Hh].
  assert (isComplete (session_at st sid) = false) as Hopen.
  { destruct (isComplete (session_at st sid)) eqn:E; [|done].
    apply (wfs_complete _ Hs) in E. lia. }
  split; [done | done | |].
  - intros sid'. rewrite session_at_verified_state.
    destruct (decide (sid = sid')) as [<-|Hne]; [by rewrite Hopen|].
    rewrite verifiedCount_other_verified by done. apply (wfs_complete _ Hs).
  - intros sid'. rewrite session_at_verified_state.
    destruct (decide (sid = sid')) as [<-|Hne]; [by rewrite Hopen|].
    rewrite combineShards_other_verified by done. apply (wfs_value _ Hs).
Qed.

Lemma wf_strict_completed sid i r st clear prf :
  wf st -> wf_strict st ->
  name (session_at st sid) <> "" ->
  0 <= i < totalShards (session_at st sid) ->
  isVerified (shard_at st sid i) = false ->
  checkSignatures [encryptedValue (shard_at st sid i)] clear prf = true ->
  threshold (session_at st sid) <= verifiedCount st sid + 1 ->
  isComplete (session_at st sid) = false ->
  combineShards (verified_state sid i st) sid = inr r ->
  wf_strict (completed_state sid r (verified_state sid i st)).
Proof.
  intros Hwf Hs Hn Hi Hv Hsig Hge Hopen Hcomb.
  destruct (wf_strict_shards_verified sid i st clear prf Hs Hsig) as [He Hh].
  split; [done | done | |].
  - intros sid'. rewrite verifiedCount_completed_state.
    rewrite session_at_completed_state, !session_at_verified_state.
    destruct (decide (sid = sid')) as [<-|Hne]; simpl.
    + intros _. rewrite verifiedCount_verified_state by done.
      pose proof (wf_below _ Hwf sid Hn Hopen). lia.
    + rewrite verifiedCount_other_verified by done. apply (wfs_complete _ Hs).
  - intros sid'. rewrite combineShards_completed_state.
    rewrite session_at_completed_state, !session_at_verified_state.
    destruct (decide (sid = sid')) as [<-|Hne]; simpl; [done|].
    rewrite combineShards_other_verified by done. apply (wfs_value _ Hs).
Qed.

Lemma wf_strict_exec tx st st' :
  wf st -> wf_strict st -> valid_tx tx -> exec tx st = inr st' -> wf_strict st'.
Proof.
  intros Hwf Hs Htx Hrun.
  destruct tx as [env [sid nm th tot pv1 pv2 d|sid i ev prf|sid i clear prf]];
    simpl in Hrun.
  - apply createSession_inv in Hrun as (Hn & Hth & ->). by apply wf_strict_created.
  - apply addShard_inv in Hrun as (Hn & Hi & Hh & h & _ & _ & ->).
    by apply wf_strict_added.
  - apply verifyShard_inv in Hrun as (Hn & Hi & Hv & Hsig & _ & Hcase).
    destruct Hcase as [[Hlt ->]|(Hge & Hc & r & Hcomb & ->)].
    + by apply (wf_strict_verified_state sid i st clear prf).
    + by apply (wf_strict_completed sid i r st clear prf).
Qed.

Lemma reachable_wf_strict st : reachable st -> wf_strict st.
Proof.
  induction 1 as [|st tx Hr IH Htx]; [apply wf_strict_init|].
  unfold step. destruct (exec tx st) as [e|st'] eqn:Hrun; [done|].
  apply (wf_strict_exec tx st); [by apply reachable_wf | done..].
Qed.

End Combine.

(** ** What a transaction leaves in place *)

Lemma same_terms_refl s : same_terms s s.
Proof. by repeat split. Qed.

Lemma same_terms_trans s1 s2 s3 :
  same_terms s1 s2 -> same_terms s2 s3 -> same_terms s1 s3.
Proof.
  unfold same_terms. intros (?&?&?&?&?&?&?&?) (?&?&?&?&?&?&?&?).
  repeat split; congruence.
Qed.

Section Frame.
Context {fhe : FHE}.

(** An existing session keeps its terms. *)
Lemma step_same_terms tx st sid :
  name (session_at st sid) <> "" ->
  same_terms (session_at st sid) (session_at (step tx st) sid).
Proof.
  intros Hn. unfold step. destruct (exec tx st) as [e|st'] eqn:Hrun;
    [apply same_terms_refl|].
  destruct tx as [env [sid' nm th tot pv1 pv2 d|sid' i ev prf|sid' i clear prf]];
    simpl in Hrun.
  - apply createSession_inv in Hrun as (Hn' & _ & ->).
    rewrite session_at_created_state.
    destruct (decide (sid' = sid)) as [->|]; [contradiction|].
    apply same_terms_refl.
  - apply addShard_inv in Hrun as (_ & _ & _ & h & _ & _ & ->).
    apply same_terms_refl.
  - apply verifyShard_inv in Hrun as (_ & _ & _ & _ & _ & Hcase).
    destruct Hcase as [[_ ->]|(_ & _ & r & _ & ->)]; [apply same_terms_refl|].
    rewrite session_at_completed_state, !session_at_verified_state.
    destruct (decide (sid' = sid)) as [->|]; [by repeat split|].
    apply same_terms_refl.
Qed.

Lemma run_same_terms txs st sid :
  name (session_at st sid) <> "" ->
  same_terms (session_at st sid) (session_at (run txs st) sid).
Proof.
  revert st. induction txs as [|tx txs IH]; intros st Hn; simpl;
    [apply same_terms_refl|].
  pose proof (step_same_terms tx st sid Hn) as Hs.
  eapply same_terms_trans; [exact Hs|]. apply IH.
  destruct Hs as [Hname _]. congruence.
Qed.

(** A complete session keeps its whole record. *)
Lemma step_complete_frozen tx st sid :
  wf st -> isComplete (session_at st sid) = true ->
  session_at (step tx st) sid = session_at st sid.
Proof.
  intros Hwf Hc.
  assert (name (session_at st sid) <> "") as Hn.
  { intros Hn. apply (wf_ghost _ Hwf) in Hn. congruence. }
  unfold step. destruct (exec tx st) as [e|st'] eqn:Hrun; [done|].
  destruct tx as [env [sid' nm th tot pv1 pv2 d|sid' i ev prf|sid' i clear prf]];
    simpl in Hrun.
  - apply createSession_inv in Hrun as (Hn' & _ & ->).
    rewrite session_at_created_state.
    destruct (decide (sid' = sid)) as [->|]; [contradiction | done].
  - by apply addShard_inv in Hrun as (_ & _ & _ & h & _ & _ & ->).
  - apply verifyShard_inv in Hrun as (_ & _ & _ & _ & _ & Hcase).
    destruct Hcase as [[_ ->]|(_ & Hopen & r & _ & ->)]; [done|].
    rewrite session_at_completed_state, !session_at_verified_state.
    destruct (decide (sid' = sid)) as [->|]; [congruence | done].
Qed.

Lemma run_complete_frozen txs st sid :
  wf st -> isComplete (session_at st sid) = true ->
  session_at (run txs st) sid = session_at st sid.
Proof.
  revert st. induction txs as [|tx txs IH]; intros st Hwf Hc; simpl; [done|].
  pose proof (step_complete_frozen tx st sid Hwf Hc) as Hs.
  rewrite IH; [done | by apply wf_step | congruence].
Qed.

(** A slot that holds a shard keeps its handle and its holder, and a
    set flag stays set. *)
Lemma step_held tx st sid i :
  holder (shard_at st sid i) <> 0 ->
  encryptedValue (shard_at (step tx st) sid i) = encryptedValue (shard_at st sid i) /\
  holder (shard_at (step tx st) sid i) = holder (shard_at st sid i) /\
  (isVerified (shard_at st sid i) = true ->
   isVerified (shard_at (step tx st) sid i) = true).
Proof.
  intros Hh. unfold step. destruct (exec tx st) as [e|st'] eqn:Hrun; [done|].
  destruct tx as [env [sid' nm th tot pv1 pv2 d|sid' j ev prf|sid' j clear prf]];
    simpl in Hrun.
  - by apply createSession_inv in Hrun as (_ & _ & ->).
  - apply addShard_inv in Hrun as (_ & _ & Hfree & h & _ & _ & ->).
    rewrite shard_at_added_state.
    destruct (decide ((sid', j) = (sid, i))) as [E|]; [|done].
    inversion E; subst. contradiction.
  - apply verifyShard_inv in Hrun as (_ & _ & _ & _ & _ & Hcase).
    assert (encryptedValue (shard_at (verified_state sid' j st) sid i)
              = encryptedValue (shard_at st sid i) /\
            holder (shard_at (verified_state sid' j st) sid i)
              = holder (shard_at st sid i) /\
            (isVerified (shard_at st sid i) = true ->
             isVerified (shard_at (verified_state sid' j st) sid i) = true)) as Hkeep.
    { rewrite shard_at_verified_state.
      destruct (decide ((sid', j) = (sid, i))) as [E|]; [|done].
      by inversion E; subst. }
    by destruct Hcase as [[_ ->]|(_ & _ & r & _ & ->)].
Qed.

Lemma run_held txs st sid i :
  holder (shard_at st sid i) <> 0 ->
  encryptedValue (shard_at (run txs st) sid i) = encryptedValue (shard_at st sid i) /\
  holder (shard_at (run txs st) sid i) = holder (shard_at st sid i) /\
  (isVerified (shard_at st sid i) = true ->
   isVerified (shard_at (run txs st) sid i) = true).
Proof.
  revert st. induction txs as [|tx txs IH]; intros st Hh; simpl; [done|].
  destruct (step_held tx st sid i Hh) as (He & Hh' & Hv).
  destruct (IH (step tx st)) as (He2 & Hh2 & Hv2); [congruence|].
  repeat split; [congruence | congruence | auto].
Qed.

Lemma step_reverted tx st e : exec tx st = inl e -> step tx st = st.
Proof. intros H. unfold step. by rewrite H. Qed.

Lemma step_succeeded tx st st' : exec tx st = inr st' -> step tx st = st'.
Proof. intros H. unfold step. by rewrite H. Qed.

End Frame.

(** ** The stand-in libraries and the worked session *)

Lemma strictFHE_rejects_null : rejects_null strictFHE.
Proof. intros clear prf. reflexivity. Qed.

Lemma valid_tx_intro env c : msg_sender env <> 0 -> @valid_tx (env, c).
Proof. done. Qed.

Lemma reachable_st_added : @reachable strictFHE st_added.
Proof.
  apply reachable_run; [constructor|].
  repeat first [apply Forall_nil_2 | apply Forall_cons_2]; by vm_compute.
Qed.

Lemma reachable_st_partial : @reachable strictFHE st_partial.
Proof.
  apply reachable_run; [constructor|].
  repeat first [apply Forall_nil_2 | apply Forall_cons_2]; by vm_compute.
Qed.

Lemma reachable_st_done : @reachable strictFHE st_done.
Proof.
  apply reachable_run; [apply reachable_st_added|].
  repeat first [apply Forall_nil_2 | apply Forall_cons_2]; by vm_compute.
Qed.

(** Why the library must reject the null handle for what follows: with
    the lax library a complete session verifies a further shard. *)
Example lax_library_verifies_after_completion :
  isComplete (session_at st_lax "t") = true /\
  verifiedCount st_lax "t" = 0 /\
  @verifyShard laxFHE "t" 2 (abi_encode_uint 7) someProof st_lax
    = inr (verified_state "t" 2 st_lax).
Proof. vm_compute. repeat split. Qed.

(** ** Completion *)

Section Completion.
Context {fhe : FHE}.
Hypothesis strict : rejects_null fhe.

Lemma complete_iff_threshold st sid :
  reachable st -> name (session_at st sid) <> "" ->
  isComplete (session_at st sid) = true <->
  verifiedCount st sid = threshold (session_at st sid).
Proof.
  intros Hr Hn. pose proof (reachable_wf st Hr) as Hwf.
  pose proof (reachable_wf_strict strict st Hr) as Hs.
  split; [apply (wfs_complete _ Hs)|].
  intros Heq. destruct (isComplete (session_at st sid)) eqn:E; [done|].
  pose proof (wf_below _ Hwf sid Hn E). lia.
Qed.

(** Once a session is complete no verification of it goes through. *)
Lemma verifyShard_after_completion st sid i clear prf :
  reachable st -> isComplete (session_at st sid) = true ->
  exists e, verifyShard sid i clear prf st = inl e.
Proof.
  intros Hr Hc. pose proof (reachable_wf_strict strict st Hr) as Hs.
  destruct (verifyShard sid i clear prf st) as [e|st'] eqn:Hrun; [eauto|].
  apply verifyShard_inv in Hrun as (_ & _ & _ & _ & _ & Hcase).
  pose proof (wfs_complete _ Hs sid Hc).
  destruct Hcase as [[Hlt _]|(_ & Hopen & _)]; [lia | congruence].
Qed.

(** C1, as the contract has it.  In every reachable state, and with an
    FHE library that accepts no decryption proof for the null handle:
    a [verifyShard] that succeeds finds the session incomplete, raises
    the verified count by one, and completes the session exactly when
    the count becomes [threshold], storing the combination of the
    verified shards and emitting one [SessionCompleted]; a session is
    complete exactly when its count equals its threshold; and once the
    session is complete every [verifyShard] on it reverts (on a still
    unverified shard with a valid proof and a candidate value: with
    "Session already completed", the shard staying unverified), so
    that no later transaction changes the session record or adds a
    [SessionCompleted] to the log. *)
Theorem completion_happens_once st sid :
  reachable st ->
  (forall i clear prf st',
     verifyShard sid i clear prf st = inr st' ->
     isComplete (session_at st sid) = false /\
     verifiedCount st' sid = verifiedCount st sid + 1 /\
     (isComplete (session_at st' sid) = true <->
      verifiedCount st' sid = threshold (session_at st' sid)) /\
     (isComplete (session_at st' sid) = true ->
      combineShards st' sid = inr (decryptedValue (session_at st' sid)) /\
      events st' = events st ++
        [ShardVerified sid i;
         SessionCompleted sid (decryptedValue (session_at st' sid))]) /\
     (isComplete (session_at st' sid) = false ->
      events st' = events st ++ [ShardVerified sid i])) /\
  (name (session_at st sid) <> "" ->
   (isComplete (session_at st sid) = true <->
    verifiedCount st sid = threshold (session_at st sid))) /\
  (isComplete (session_at st sid) = true ->
   (forall i clear prf v,
      0 <= i < totalShards (session_at st sid) ->
      isVerified (shard_at st sid i) = false ->
      checkSignatures [encryptedValue (shard_at st sid i)] clear prf = true ->
      abi_decode_uint32 clear = inr v ->
      v = publicValue1 (session_at st sid) \/ v = publicValue2 (session_at st sid) ->
      verifyShard sid i clear prf st = inl (Revert "Session already completed") /\
      forall env,
        isVerified (shard_at (step (env, VerifyShard sid i clear prf) st) sid i) = false) /\
   (forall i clear prf env,
      (exists e, verifyShard sid i clear prf st = inl e) /\
      step (env, VerifyShard sid i clear prf) st = st) /\
   (forall txs,
      session_at (run txs st) sid = session_at st sid /\
      completions sid (events (run txs st)) = 1%nat)).
Proof.
  intros Hr. pose proof (reachable_wf st Hr) as Hwf.
  pose proof (reachable_wf_strict strict st Hr) as Hs.
  split; [|split].
  - intros i clear prf st' Hrun.
    apply verifyShard_inv in Hrun as (Hn & Hi & Hv & Hsig & _ & Hcase).
    destruct Hcase as [[Hlt ->]|(Hge & Hopen & r & Hcomb & ->)].
    + assert (isComplete (session_at st sid) = false) as Hopen.
      { destruct (isComplete (session_at st sid)) eqn:E; [|done].
        apply (wfs_complete _ Hs) in E. lia. }
      rewrite verifiedCount_verified_state by done.
      rewrite session_at_verified_state, Hopen.
      repeat split; try done. lia.
    + rewrite verifiedCount_completed_state, combineShards_completed_state.
      rewrite verifiedCount_verified_state by done.
      rewrite session_at_completed_state, session_at_verified_state.
      destruct (decide (sid = sid)); [simpl | done].
      pose proof (wf_below _ Hwf sid Hn Hopen).
      repeat split; try done; try lia.
      by rewrite <- app_assoc.
  - by apply complete_iff_threshold.
  - intros Hc.
    assert (name (session_at st sid) <> "") as Hn.
    { intros Hn. apply (wf_ghost _ Hwf) in Hn. congruence. }
    split; [|split].
    + intros i clear prf v Hi Hv Hsig Hdec Hcand.
      assert (verifyShard sid i clear prf st = inl (Revert "Session already completed"))
        as Hrev.
      { rewrite verifyShard_unverified by done.
        rewrite Hsig, Hdec, (proj2 (candidate_test_spec _ _ _) Hcand).
        pose proof (wfs_complete _ Hs sid Hc) as Hcount.
        rewrite (proj2 (Z.leb_le _ _)) by lia.
        by apply completeSession_done. }
      split; [done|]. intros env.
      by rewrite (step_reverted (env, VerifyShard sid i clear prf) st _ Hrev).
    + intros i clear prf env.
      destruct (verifyShard_after_completion st sid i clear prf Hr Hc) as [e He].
      split; [eauto|]. by apply (step_reverted _ _ e).
    + intros txs. rewrite run_complete_frozen by done. split; [done|].
      rewrite (wf_events _ (wf_run txs st Hwf) sid).
      by rewrite run_complete_frozen, Hc.
Qed.

End Completion.

(** C1, as the specification words it, fails on the contract: in the
    worked session, complete after three verifications, shard 3 is
    present and unverified, its proof is accepted and 42 is a candidate,
    yet the call reverts and the flag stays unset. *)
Lemma verify_after_completion_reverts :
  isComplete (session_at st_done "s") = true /\
  holder (shard_at st_done "s" 3) = 12 /\
  isVerified (shard_at st_done "s" 3) = false /\
  @checkSignatures strictFHE [encryptedValue (shard_at st_done "s" 3)]
    (abi_encode_uint 42) someProof = true /\
  abi_decode_uint32 (abi_encode_uint 42) = inr (publicValue2 (session_at st_done "s")) /\
  @verifyShard strictFHE "s" 3 (abi_encode_uint 42) someProof st_done
    = inl (Revert "Session already completed") /\
  isVerified (shard_at (@step strictFHE (verify_tx 3 42) st_done) "s" 3) = false.
Proof. vm_compute. repeat split. Qed.

Lemma completion_happens_once_witness :
  @verifyShard strictFHE "s" 3 (abi_encode_uint 42) someProof st_done
    = inl (Revert "Session already completed") /\
  completions "s" (events (@run strictFHE [verify_tx 3 42; verify_tx 4 7] st_done)) = 1%nat.
Proof.
  destruct (completion_happens_once strictFHE_rejects_null st_done "s" reachable_st_done)
    as (_ & _ & Hafter).
  destruct Hafter as (Hrevert & _ & Hfrozen); [by vm_compute|].
  split.
  - apply (Hrevert 3 (abi_encode_uint 42) someProof 42).
    + by vm_compute.
    + by vm_compute.
    + by vm_compute.
    + by vm_compute.
    + right. by vm_compute.
  - apply Hfrozen.
Defined.

(** ** Which reverts a verification can end in *)

Lemma abi_decode_error data e : abi_decode_uint32 data = inl e -> e = Panic.
Proof.
  unfold abi_decode_uint32.
  destruct (Z.of_nat (length data) <? 32); [by inversion 1|].
  destruct (be_uint (take 32 data) <=? max_uint32); by inversion 1.
Qed.

Lemma loopM_error {A} (body : A -> Z -> result A) (l : list Z) (a : A) e :
  (forall b i e', body b i = inl e' -> e' = Panic) ->
  loopM body a l = inl e -> e = Panic.
Proof.
  intros Hbody. revert a. induction l as [|i l IH]; intros a; simpl; [by inversion 1|].
  destruct (body a i) as [e'|b] eqn:E; simpl.
  - intros H. inversion H; subst. by apply (Hbody a i).
  - apply IH.
Qed.

Section VerifyErrors.
Context {fhe : FHE}.

Lemma combineShards_error st sid e : combineShards st sid = inl e -> e = Panic.
Proof.
  unfold combineShards, for_rangeM. apply loopM_error.
  intros b i e'. destruct (isVerified (shard_at st sid i)); [|by inversion 1].
  destruct (abi_decode_uint32 _) as [e''|v] eqn:E; simpl; [|by inversion 1].
  intros H. inversion H; subst. by apply abi_decode_error in E.
Qed.

Lemma completeSession_revert st sid reason :
  completeSession st sid = inl (Revert reason) -> reason = "Session already completed".
Proof.
  destruct (isComplete (session_at st sid)) eqn:Hc.
  - rewrite completeSession_done by done. by inversion 1.
  - rewrite completeSession_open by done.
    destruct (combineShards st sid) as [e|r] eqn:E; [|by inversion 1].
    apply combineShards_error in E. subst. by inversion 1.
Qed.

Lemma shard_at_unwritten st sid i :
  sessionShards st !! (sid, i) = None -> shard_at st sid i = zero_shard.
Proof. intros H. unfold shard_at. by rewrite H. Qed.

(** C2, as the contract has it.  [verifyShard] has no test that a
    shard was ever added: on a slot never written, of an existing
    session and at a valid index, the call is decided by the signature
    check on the null handle.  It fails in the FHE library, the state
    kept, when that check fails; no [require] of the call is about a
    missing shard; and if the check passes for a candidate value below
    the threshold the empty slot is marked verified. *)
Theorem verifyShard_empty_slot st sid i clear prf env :
  name (session_at st sid) <> "" ->
  0 <= i < totalShards (session_at st sid) ->
  sessionShards st !! (sid, i) = None ->
  (checkSignatures [0] clear prf = false ->
   verifyShard sid i clear prf st = inl FHERevert /\
   step (env, VerifyShard sid i clear prf) st = st) /\
  (forall reason,
     verifyShard sid i clear prf st = inl (Revert reason) ->
     reason = "Invalid shard value" \/ reason = "Session already completed") /\
  (forall v,
     checkSignatures [0] clear prf = true ->
     abi_decode_uint32 clear = inr v ->
     v = publicValue1 (session_at st sid) \/ v = publicValue2 (session_at st sid) ->
     verifiedCount st sid + 1 < threshold (session_at st sid) ->
     verifyShard sid i clear prf st = inr (verified_state sid i st) /\
     isVerified (shard_at (verified_state sid i st) sid i) = true /\
     holder (shard_at (verified_state sid i st) sid i) = 0).
Proof.
  intros Hn Hi Hnone. pose proof (shard_at_unwritten st sid i Hnone) as Hz.
  assert (isVerified (shard_at st sid i) = false) as Hv by (by rewrite Hz).
  pose proof (verifyShard_unverified sid i clear prf st Hn Hi Hv) as Hcase.
  rewrite Hz in Hcase. simpl in Hcase.
  split; [|split].
  - intros Hsig. rewrite Hsig in Hcase. split; [done|].
    by apply (step_reverted _ _ FHERevert).
  - intros reason Hrev. rewrite Hcase in Hrev.
    destruct (checkSignatures [0] clear prf); [|discriminate].
    destruct (abi_decode_uint32 clear) as [e|v] eqn:Hdec.
    { apply abi_decode_error in Hdec. subst. discriminate. }
    destruct ((v =? _) || (v =? _)); [|inversion Hrev; by left].
    destruct (threshold (session_at st sid) <=? verifiedCount st sid + 1);
      [|discriminate].
    right. by apply (completeSession_revert (verified_state sid i st) sid).
  - intros v Hsig Hdec Hcand Hlt.
    rewrite Hsig, Hdec, (proj2 (candidate_test_spec _ _ _) Hcand) in Hcase.
    rewrite (proj2 (Z.leb_gt _ _)) in Hcase by lia.
    split; [done|]. rewrite shard_at_verified_state.
    destruct (decide ((sid, i) = (sid, i))); [|done]. by rewrite Hz.
Qed.

(** ** Candidate values *)

(** C4.  A call whose decoded cleartext is neither candidate reverts
    and changes nothing: the flag, the verified count and [isComplete]
    are as before; when the session exists, the index is valid, the
    shard is unverified and the proof is accepted, the revert is
    "Invalid shard value". *)
Theorem verifyShard_rejects_other_values st sid i clear prf v env :
  abi_decode_uint32 clear = inr v ->
  v <> publicValue1 (session_at st sid) ->
  v <> publicValue2 (session_at st sid) ->
  (exists e, verifyShard sid i clear prf st = inl e) /\
  (name (session_at st sid) <> "" ->
   0 <= i < totalShards (session_at st sid) ->
   isVerified (shard_at st sid i) = false ->
   checkSignatures [encryptedValue (shard_at st sid i)] clear prf = true ->
   verifyShard sid i clear prf st = inl (Revert "Invalid shard value")) /\
  step (env, VerifyShard sid i clear prf) st = st /\
  isVerified (shard_at (step (env, VerifyShard sid i clear prf) st) sid i)
    = isVerified (shard_at st sid i) /\
  verifiedCount (step (env, VerifyShard sid i clear prf) st) sid
    = verifiedCount st sid /\
  isComplete (session_at (step (env, VerifyShard sid i clear prf) st) sid)
    = isComplete (session_at st sid).
Proof.
  intros Hdec Hv1 Hv2.
  assert ((v =? publicValue1 (session_at st sid))
          || (v =? publicValue2 (session_at st sid)) = false) as Hcand.
  { apply orb_false_intro; by apply Z.eqb_neq. }
  assert (exists e, verifyShard sid i clear prf st = inl e) as [e He].
  { destruct (verifyShard sid i clear prf st) as [e|st'] eqn:Hrun; [eauto|].
    apply verifyShard_inv in Hrun as (_ & _ & _ & _ & (v' & Hdec' & Hc) & _).
    rewrite Hdec in Hdec'. inversion Hdec'; subst. destruct Hc; contradiction. }
  assert (step (env, VerifyShard sid i clear prf) st = st) as Hstep
    by (by apply (step_reverted _ _ e)).
  split; [eauto|]. split; [|by rewrite !Hstep].
  intros Hn Hi Hv Hsig. rewrite verifyShard_unverified by done.
  by rewrite Hsig, Hdec, Hcand.
Qed.

End VerifyErrors.

(** C2, as the specification words it, fails on the contract: slot 3 of
    the worked session was never written; with a library that accepts
    the proof the call succeeds and marks the empty slot verified, and
    with one that rejects it the call fails inside the library, not on a
    test of the contract. *)
Lemma verify_empty_slot_no_ShardNotFound :
  name (session_at st_partial "s") = "wallet" /\
  totalShards (session_at st_partial "s") = 5 /\
  sessionShards st_partial !! ("s", 3) = None /\
  @verifyShard laxFHE "s" 3 (abi_encode_uint 7) someProof st_partial
    = inr (verified_state "s" 3 st_partial) /\
  isVerified (shard_at (verified_state "s" 3 st_partial) "s" 3) = true /\
  @verifyShard strictFHE "s" 3 (abi_encode_uint 7) someProof st_partial
    = inl FHERevert.
Proof. vm_compute. repeat split. Qed.

Lemma verifyShard_empty_slot_witness :
  @verifyShard strictFHE "s" 3 (abi_encode_uint 7) someProof st_partial = inl FHERevert /\
  @verifyShard laxFHE "s" 3 (abi_encode_uint 7) someProof st_partial
    = inr (verified_state "s" 3 st_partial).
Proof.
  split.
  - apply (@verifyShard_empty_slot strictFHE st_partial "s" 3
             (abi_encode_uint 7) someProof bob); by vm_compute.
  - apply (@verifyShard_empty_slot laxFHE st_partial "s" 3
             (abi_encode_uint 7) someProof bob) with (v := 7).
    + by vm_compute.
    + by vm_compute.
    + by vm_compute.
    + by vm_compute.
    + by vm_compute.
    + left. by vm_compute.
    + by vm_compute.
Defined.

Lemma verifyShard_rejects_other_values_witness :
  @verifyShard strictFHE "s" 0 (abi_encode_uint 13) someProof st_odd
    = inl (Revert "Invalid shard value") /\
  @step strictFHE (bob, VerifyShard "s" 0 (abi_encode_uint 13) someProof) st_odd
    = st_odd.
Proof.
  destruct (@verifyShard_rejects_other_values strictFHE st_odd "s" 0
              (abi_encode_uint 13) someProof 13 bob) as (_ & Hrev & Hkeep & _).
  - by vm_compute.
  - by vm_compute.
  - by vm_compute.
  - split; [apply Hrev; by vm_compute | exact Hkeep].
Defined.

(** ** Session identifiers *)

Section Sessions.
Context {fhe : FHE}.

Lemma run_exists txs st sid :
  name (session_at st sid) <> "" -> name (session_at (run txs st) sid) <> "".
Proof.
  intros Hn. destruct (run_same_terms txs st sid Hn) as [Hname _]. congruence.
Qed.

(** C3, as the contract has it.  While the name stored under an id is
    not empty, which is the contract's test of existence, and whatever
    transactions come in between, [createSession] with that id reverts
    with "Session already exists" and changes nothing: no session is
    written, the registry and the log are as before, and the terms of
    the stored session are those of its creation. *)
Theorem createSession_existing_id st sid :
  name (session_at st sid) <> "" ->
  forall txs env nm th tot pv1 pv2 d,
    createSession env sid nm th tot pv1 pv2 d (run txs st)
      = inl (Revert "Session already exists") /\
    step (env, CreateSession sid nm th tot pv1 pv2 d) (run txs st) = run txs st /\
    same_terms (session_at st sid) (session_at (run txs st) sid).
Proof.
  intros Hn txs env nm th tot pv1 pv2 d.
  pose proof (run_exists txs st sid Hn) as Hn'.
  pose proof (createSession_exists env sid nm th tot pv1 pv2 d _ Hn') as Hrev.
  split; [done|]. split; [|by apply run_same_terms].
  by apply (step_reverted _ _ (Revert "Session already exists")).
Qed.

(** C10.  Existence is the test "the stored name is not empty" and
    nothing else.  [createSession] reverts with "Session already
    exists" exactly when the stored name is not empty; with a valid
    threshold it succeeds exactly when the stored name is empty, and
    then overwrites the stored record; under an empty stored name
    [addShard], [verifyShard], [getShard] and [getSession] revert with
    "Session does not exist".  So a session created with an empty name
    is replaced by the next [createSession] and is refused by the
    other entry points. *)
Theorem existence_is_nonempty_name st sid :
  (forall env nm th tot pv1 pv2 d,
     createSession env sid nm th tot pv1 pv2 d st
       = inl (Revert "Session already exists") <->
     name (session_at st sid) <> "") /\
  (forall env nm th tot pv1 pv2 d,
     0 < th <= tot ->
     (is_ok (createSession env sid nm th tot pv1 pv2 d st) <->
      name (session_at st sid) = "") /\
     (name (session_at st sid) = "" ->
      createSession env sid nm th tot pv1 pv2 d st
        = inr (created_state env sid nm th tot pv1 pv2 d st) /\
      session_at (created_state env sid nm th tot pv1 pv2 d st) sid
        = {| name := nm; threshold := th; totalShards := tot;
             publicValue1 := pv1; publicValue2 := pv2; description := d;
             creator := msg_sender env; timestamp := block_timestamp env;
             decryptedValue := 0; isComplete := false |})) /\
  (name (session_at st sid) = "" ->
   (forall env i ev prf,
      addShard env sid i ev prf st = inl (Revert "Session does not exist")) /\
   (forall i clear prf,
      verifyShard sid i clear prf st = inl (Revert "Session does not exist")) /\
   (forall i, getShard st sid i = inl (Revert "Session does not exist")) /\
   getSession st sid = inl (Revert "Session does not exist")) /\
  (forall env1 th1 tot1 pv11 pv21 d1 st1,
     createSession env1 sid "" th1 tot1 pv11 pv21 d1 st = inr st1 ->
     (forall env i ev prf,
        addShard env sid i ev prf st1 = inl (Revert "Session does not exist")) /\
     (forall i clear prf,
        verifyShard sid i clear prf st1 = inl (Revert "Session does not exist")) /\
     getSession st1 sid = inl (Revert "Session does not exist") /\
     (forall env2 nm th tot pv1 pv2 d,
        0 < th <= tot ->
        createSession env2 sid nm th tot pv1 pv2 d st1
          = inr (created_state env2 sid nm th tot pv1 pv2 d st1))).
Proof.
  split; [|split; [|split]].
  - intros env nm th tot pv1 pv2 d. split.
    + intros Hrev Hn.
      destruct (decide (0 < th <= tot)) as [Hth|Hth].
      * rewrite createSession_ok in Hrev by done. discriminate.
      * rewrite createSession_bad_threshold in Hrev by done. discriminate.
    + apply createSession_exists.
  - intros env nm th tot pv1 pv2 d Hth. split.
    + split.
      * intros [st' Hrun]. by apply createSession_inv in Hrun as (? & _).
      * intros Hn. exists (created_state env sid nm th tot pv1 pv2 d st).
        by apply createSession_ok.
    + intros Hn. split; [by apply createSession_ok|].
      rewrite session_at_created_state. by destruct (decide (sid = sid)).
  - intros Hn. repeat split.
    + intros. by apply addShard_missing.
    + intros. by apply verifyShard_missing.
    + intros i. unfold getShard. by rewrite (name_nonempty_false _ Hn).
    + unfold getSession. by rewrite (name_nonempty_false _ Hn).
  - intros env1 th1 tot1 pv11 pv21 d1 st1 Hrun.
    apply createSession_inv in Hrun as (_ & _ & ->).
    assert (name (session_at (created_state env1 sid "" th1 tot1 pv11 pv21 d1 st) sid) = "")
      as Hn.
    { rewrite session_at_created_state. by destruct (decide (sid = sid)). }
    repeat split.
    + intros. by apply addShard_missing.
    + intros. by apply verifyShard_missing.
    + unfold getSession. by rewrite (name_nonempty_false _ Hn).
    + intros. by apply createSession_ok.
Qed.

(** ** Queries *)

(** The queries on an id whose session does not exist, in every
    reachable state.  [getSession] and [getShard] open with the
    existence test and revert with "Session does not exist";
    [getVerifiedShardCount] lacks that test, reads [totalShards] as 0
    and returns 0; [getAllSessionIds] returns the registry.  The
    missing test is thus not tied to one state: it shows for every
    absent id. *)
Theorem queries_on_missing_session st sid :
  reachable st ->
  name (session_at st sid) = "" ->
  getVerifiedShardCount st sid = inr 0 /\
  getSession st sid = inl (Revert "Session does not exist") /\
  (forall i, getShard st sid i = inl (Revert "Session does not exist")) /\
  getAllSessionIds st = inr (sessionIds st).
Proof.
  intros Hr Hn. pose proof (reachable_wf st Hr) as Hwf. repeat split.
  - rewrite getVerifiedShardCount_total. f_equal. apply verifiedCount_none.
    intros i. destruct (isVerified (shard_at st sid i)) eqn:E; [|done].
    apply (wf_verified _ Hwf) in E as [E _]. contradiction.
  - unfold getSession. by rewrite (name_nonempty_false _ Hn).
  - intros i. unfold getShard. by rewrite (name_nonempty_false _ Hn).
Qed.

End Sessions.

(** C3, as the specification words it, fails on the contract: after a
    first [createSession] whose name is empty the id is stored and
    registered, and a second [createSession] with the same id succeeds,
    replaces the record of the first and registers the id again. *)
Lemma createSession_twice_empty_name :
  creator (session_at st_unnamed "s") = 11 /\
  threshold (session_at st_unnamed "s") = 1 /\
  is_Some (sessions st_unnamed !! "s") /\
  sessionIds st_unnamed = ["s"] /\
  createSession bob "s" "" 2 3 1 2 "second" st_unnamed
    = inr (created_state bob "s" "" 2 3 1 2 "second" st_unnamed) /\
  creator (session_at (created_state bob "s" "" 2 3 1 2 "second" st_unnamed) "s") = 12 /\
  threshold (session_at (created_state bob "s" "" 2 3 1 2 "second" st_unnamed) "s") = 2 /\
  sessionIds (created_state bob "s" "" 2 3 1 2 "second" st_unnamed) = ["s"; "s"].
Proof. vm_compute. repeat split. by eexists. Qed.

Lemma createSession_existing_id_witness :
  createSession bob "s" "other" 1 1 0 0 "again"
    (@run strictFHE [verify_tx 0 7] st_added)
    = inl (Revert "Session already exists").
Proof.
  apply (@createSession_existing_id strictFHE st_added "s"). by vm_compute.
Defined.

Lemma existence_is_nonempty_name_witness :
  is_ok (createSession bob "s" "" 2 3 1 2 "second" st_unnamed) /\
  ~ is_ok (createSession bob "s" "" 2 3 1 2 "second" st_added).
Proof.
  split.
  - apply (@existence_is_nonempty_name strictFHE st_unnamed "s"); [lia | by vm_compute].
  - intros Hok.
    apply (@existence_is_nonempty_name strictFHE st_added "s") in Hok; [|lia].
    by vm_compute in Hok.
Defined.

(** C9: a query on a session id that does not exist is to fail with
    "Session does not exist".  The contract breaks this in
    [getVerifiedShardCount] alone.  After session "s" was created and
    its five shards added, the id "ghost" has no record and is not in
    the registry; [getSession] and [getShard] revert on it with
    "Session does not exist", as [addShard] and [verifyShard] do, each
    through the same opening [require]; [getVerifiedShardCount], which
    has no such [require], returns 0 for it, the answer it also gives
    for the existing session "s". *)
Lemma getVerifiedShardCount_missing_returns :
  sessions st_added !! "ghost" = None /\
  name (session_at st_added "ghost") = "" /\
  getAllSessionIds st_added = inr ["s"] /\
  getSession st_added "ghost" = inl (Revert "Session does not exist") /\
  getShard st_added "ghost" 0 = inl (Revert "Session does not exist") /\
  @addShard strictFHE alice "ghost" 0 1007 someProof st_added
    = inl (Revert "Session does not exist") /\
  @verifyShard strictFHE "ghost" 0 (abi_encode_uint 7) someProof st_added
    = inl (Revert "Session does not exist") /\
  getVerifiedShardCount st_added "ghost" = inr 0 /\
  getVerifiedShardCount st_added "s" = inr 0.
Proof. vm_compute. repeat split. Qed.

Lemma queries_on_missing_session_witness :
  getVerifiedShardCount st_added "ghost" = inr 0.
Proof.
  apply (@queries_on_missing_session strictFHE st_added "ghost" reachable_st_added).
  by vm_compute.
Defined.

(** ** Shard slots *)

Section Slots.
Context {fhe : FHE}.

Lemma occupied_forever st sid i :
  wf st -> holder (shard_at st sid i) <> 0 ->
  forall txs env ev prf,
    addShard env sid i ev prf (run txs st) = inl (Revert "Shard already exists") /\
    step (env, AddShard sid i ev prf) (run txs st) = run txs st /\
    encryptedValue (shard_at (run txs st) sid i) = encryptedValue (shard_at st sid i) /\
    holder (shard_at (run txs st) sid i) = holder (shard_at st sid i).
Proof.
  intros Hwf Hh txs env ev prf.
  destruct (run_held txs st sid i Hh) as (He & Hh' & _).
  assert (holder (shard_at (run txs st) sid i) <> 0) as Hocc by congruence.
  destruct (wf_holder _ (wf_run txs st Hwf) sid i Hocc) as [Hn Hi].
  pose proof (addShard_occupied env sid i ev prf _ Hn Hi Hocc) as Hrev.
  split; [done|]. split; [|done].
  by apply (step_reverted _ _ (Revert "Shard already exists")).
Qed.

(** C8.  A slot is written at most once.  In a reachable state, a
    slot that holds a shard refuses every later [addShard], whatever
    transactions come in between, with "Shard already exists" and no
    change of state, and keeps its ciphertext and its holder; and an
    [addShard] that succeeds, sent by an address that is not zero,
    found the slot free and leaves it held by its sender, so that no
    second one succeeds. *)
Theorem addShard_write_once st sid i :
  reachable st ->
  (holder (shard_at st sid i) <> 0 ->
   forall txs env ev prf,
     addShard env sid i ev prf (run txs st) = inl (Revert "Shard already exists") /\
     step (env, AddShard sid i ev prf) (run txs st) = run txs st /\
     encryptedValue (shard_at (run txs st) sid i) = encryptedValue (shard_at st sid i) /\
     holder (shard_at (run txs st) sid i) = holder (shard_at st sid i)) /\
  (forall env ev prf st1,
     msg_sender env <> 0 ->
     addShard env sid i ev prf st = inr st1 ->
     holder (shard_at st sid i) = 0 /\
     holder (shard_at st1 sid i) = msg_sender env /\
     isVerified (shard_at st1 sid i) = false /\
     forall txs env' ev' prf',
       addShard env' sid i ev' prf' (run txs st1)
         = inl (Revert "Shard already exists") /\
       step (env', AddShard sid i ev' prf') (run txs st1) = run txs st1 /\
       encryptedValue (shard_at (run txs st1) sid i)
         = encryptedValue (shard_at st1 sid i) /\
       holder (shard_at (run txs st1) sid i) = msg_sender env).
Proof.
  intros Hr. pose proof (reachable_wf st Hr) as Hwf. split.
  - intros Hh. by apply occupied_forever.
  - intros env ev prf st1 Hsender Hrun.
    assert (wf st1) as Hwf1 by (by apply (wf_exec (env, AddShard sid i ev prf) st)).
    apply addShard_inv in Hrun as (_ & _ & Hfree & h & _ & _ & ->).
    assert (shard_at (added_state env sid i h st) sid i
            = {| encryptedValue := h; holder := msg_sender env; isVerified := false |})
      as Hnew.
    { rewrite shard_at_added_state. by destruct (decide ((sid, i) = (sid, i))). }
    split; [done|]. rewrite Hnew. simpl. split; [done|]. split; [done|].
    intros txs env' ev' prf'.
    destruct (occupied_forever (added_state env sid i h st) sid i Hwf1)
      with (txs := txs) (env := env') (ev := ev') (prf := prf')
      as (Hrev & Hkeep & He & Hh).
    { by rewrite Hnew. }
    rewrite Hnew in He, Hh. done.
Qed.

(** C7.  [isVerified] is set at most once.  A [verifyShard] that
    succeeds found the flag unset and leaves it set.  In a reachable
    state, on a shard whose flag is set the call reverts with "Shard
    already verified" and leaves the state, hence the verified count,
    the log and the completion, as they were; and when the slot holds
    a shard (always so when the FHE library rejects the null handle)
    the flag stays set through every later transaction, each later
    [verifyShard] on it reverting the same way. *)
Theorem verifyShard_at_most_once st sid i :
  reachable st ->
  (forall clear prf st',
     verifyShard sid i clear prf st = inr st' ->
     isVerified (shard_at st sid i) = false /\
     isVerified (shard_at st' sid i) = true) /\
  (isVerified (shard_at st sid i) = true ->
   (forall clear prf env,
      verifyShard sid i clear prf st = inl (Revert "Shard already verified") /\
      step (env, VerifyShard sid i clear prf) st = st /\
      verifiedCount (step (env, VerifyShard sid i clear prf) st) sid
        = verifiedCount st sid /\
      events (step (env, VerifyShard sid i clear prf) st) = events st /\
      session_at (step (env, VerifyShard sid i clear prf) st) sid
        = session_at st sid) /\
   (holder (shard_at st sid i) <> 0 \/ rejects_null fhe ->
    forall txs clear prf,
      isVerified (shard_at (run txs st) sid i) = true /\
      verifyShard sid i clear prf (run txs st)
        = inl (Revert "Shard already verified"))).
Proof.
  intros Hr. pose proof (reachable_wf st Hr) as Hwf. split.
  - intros clear prf st' Hrun.
    apply verifyShard_inv in Hrun as (_ & _ & Hv & _ & _ & Hcase).
    split; [done|].
    assert (isVerified (shard_at (verified_state sid i st) sid i) = true) as Hset.
    { rewrite shard_at_verified_state. by destruct (decide ((sid, i) = (sid, i))). }
    by destruct Hcase as [[_ ->]|(_ & _ & r & _ & ->)].
  - intros Hv. split.
    + intros clear prf env.
      destruct (wf_verified _ Hwf sid i Hv) as [Hn Hi].
      pose proof (verifyShard_already sid i clear prf st Hn Hi Hv) as Hrev.
      assert (step (env, VerifyShard sid i clear prf) st = st) as Hstep
        by (by apply (step_reverted _ _ (Revert "Shard already verified"))).
      by rewrite !Hstep.
    + intros Hheld txs clear prf.
      assert (holder (shard_at st sid i) <> 0) as Hh.
      { destruct Hheld as [Hh|Hstrict]; [done|].
        by apply (wfs_held _ (reachable_wf_strict Hstrict st Hr)). }
      destruct (run_held txs st sid i Hh) as (_ & _ & Hkeep).
      specialize (Hkeep Hv). split; [done|].
      destruct (wf_verified _ (wf_run txs st Hwf) sid i Hkeep) as [Hn Hi].
      by apply verifyShard_already.
Qed.

End Slots.

Lemma addShard_write_once_witness :
  @addShard strictFHE bob "s" 0 1042 someProof
    (@run strictFHE [verify_tx 0 7; verify_tx 1 42] st_added)
    = inl (Revert "Shard already exists").
Proof.
  destruct (@addShard_write_once strictFHE st_added "s" 0 reachable_st_added)
    as [Hocc _].
  apply Hocc. by vm_compute.
Defined.

Lemma verifyShard_at_most_once_witness :
  @verifyShard strictFHE "s" 0 (abi_encode_uint 7) someProof st_done
    = inl (Revert "Shard already verified") /\
  isVerified (shard_at (@run strictFHE [verify_tx 3 42] st_done) "s" 0) = true.
Proof.
  destruct (@verifyShard_at_most_once strictFHE st_done "s" 0 reachable_st_done)
    as [_ Hset].
  destruct Hset as [Hrev Hkeep]; [by vm_compute|].
  split.
  - apply (Hrev (abi_encode_uint 7) someProof bob).
  - apply (Hkeep (or_intror strictFHE_rejects_null) [verify_tx 3 42] [] []).
Defined.

(** ** The combination *)

Lemma xor_fold_nil : xor_fold [] = 0.
Proof. reflexivity. Qed.

Lemma xor_fold_cons v l : xor_fold (v :: l) = Z.lxor v (xor_fold l).
Proof. reflexivity. Qed.

Lemma xor_fold_app l1 l2 :
  xor_fold (l1 ++ l2) = Z.lxor (xor_fold l1) (xor_fold l2).
Proof.
  induction l1 as [|v l1 IH]; simpl.
  - by rewrite xor_fold_nil, Z.lxor_0_l.
  - rewrite !xor_fold_cons, IH. by rewrite Z.lxor_assoc.
Qed.

Lemma xor_fold_perm l l' : l ≡ₚ l' -> xor_fold l = xor_fold l'.
Proof.
  induction 1 as [|v l l' _ IH|v w l|l1 l2 l3 _ IH1 _ IH2].
  - done.
  - by rewrite !xor_fold_cons, IH.
  - rewrite !xor_fold_cons, <- !Z.lxor_assoc. f_equal. apply Z.lxor_comm.
  - congruence.
Qed.

Section CombineSpec.
Context {fhe : FHE}.

(** The loop of [combineShards] over any index list and from any start
    value is the fold over the cleartexts of the verified indices. *)
Lemma combine_loop st sid (l : list Z) (a : Z) :
  loopM (fun combinedValue i =>
           if isVerified (shard_at st sid i) then
             let! shardValue := abi_decode_uint32
               (getDecryptionProof (encryptedValue (shard_at st sid i))) in
             Ok (Z.lxor combinedValue shardValue)
           else Ok combinedValue) a l =
  (let! vals := mapM_result (shardCleartext st sid)
                  (List.filter (fun i => isVerified (shard_at st sid i)) l) in
   Ok (Z.lxor a (xor_fold vals))).
Proof.
  revert a. induction l as [|i l IH]; intros a; simpl.
  - by rewrite Z.lxor_0_r.
  - destruct (isVerified (shard_at st sid i)); simpl; [|apply IH].
    unfold shardCleartext at 1.
    destruct (abi_decode_uint32 _) as [e|v]; simpl; [done|].
    rewrite IH.
    destruct (mapM_result _ _) as [e|vals]; simpl; [done|].
    by rewrite xor_fold_cons, Z.lxor_assoc.
Qed.

Lemma combineShards_xor_fold st sid :
  combineShards st sid =
  (let! vals := verifiedCleartexts st sid in Ok (xor_fold vals)).
Proof.
  unfold combineShards, for_rangeM, verifiedCleartexts, verifiedIndices.
  rewrite combine_loop.
  destruct (mapM_result _ _) as [e|vals]; simpl; [done|].
  by rewrite Z.lxor_0_l.
Qed.

Lemma verifiedIndices_none st sid :
  (forall i, 0 <= i < totalShards (session_at st sid) ->
     isVerified (shard_at st sid i) = false) ->
  verifiedIndices st sid = [].
Proof.
  intros Hnone. unfold verifiedIndices.
  assert (forall l : list Z,
            (forall i, i ∈ l -> isVerified (shard_at st sid i) = false) ->
            List.filter (fun i => isVerified (shard_at st sid i)) l = []) as Hfilter.
  { induction l as [|i l IH]; intros Hl; simpl; [done|].
    rewrite (Hl i) by (by left). apply IH. intros j Hj. apply Hl. by right. }
  apply Hfilter. intros i Hi. apply elem_of_seqZ in Hi. apply Hnone. lia.
Qed.

(** What a run of verifications of one session ends in. *)
Lemma verifyAll_outcome sid calls : forall st st',
  wf st -> verifyAll sid calls st = inr st' ->
  totalShards (session_at st' sid) = totalShards (session_at st sid) /\
  (forall j,
     encryptedValue (shard_at st' sid j) = encryptedValue (shard_at st sid j) /\
     isVerified (shard_at st' sid j)
       = isVerified (shard_at st sid j) || bool_decide (j ∈ calls.*1.*1)) /\
  ((session_at st' sid = session_at st sid /\
    (calls = [] \/
     verifiedCount st sid + Z.of_nat (length calls) < threshold (session_at st sid))) \/
   (isComplete (session_at st sid) = false /\
    isComplete (session_at st' sid) = true /\
    combineShards st' sid = inr (decryptedValue (session_at st' sid)) /\
    verifiedCount st sid + Z.of_nat (length calls) = threshold (session_at st sid))).
Proof.
  induction calls as [|[[i clear] prf] calls IH]; intros st st' Hwf Hrun.
  - inversion Hrun; subst. split; [done|]. split; [|left; auto].
    intros j. by rewrite orb_false_r.
  - simpl in Hrun.
    destruct (verifyShard sid i clear prf st) as [e|mid] eqn:Hfirst; [discriminate|].
    simpl in Hrun.
    assert (wf mid) as Hwfmid.
    { by apply (wf_exec ({| msg_sender := 0; block_timestamp := 0 |},
                         VerifyShard sid i clear prf) st). }
    apply verifyShard_inv in Hfirst as (Hn & Hi & Hv & _ & _ & Hcase).
    destruct (IH mid st' Hwfmid Hrun) as (Htot & Hshards & Hend).
    assert (forall j,
              encryptedValue (shard_at (verified_state sid i st) sid j)
                = encryptedValue (shard_at st sid j) /\
              isVerified (shard_at (verified_state sid i st) sid j)
                = isVerified (shard_at st sid j) || bool_decide (j = i)) as Hmark.
    { intros j. rewrite shard_at_verified_state.
      destruct (decide ((sid, i) = (sid, j))) as [E|Hne].
      - inversion E; subst. simpl. rewrite bool_decide_eq_true_2 by done.
        by rewrite orb_true_r.
      - rewrite bool_decide_eq_false_2 by congruence. by rewrite orb_false_r. }
    assert (forall j, bool_decide (j ∈ i :: calls.*1.*1)
                      = bool_decide (j = i) || bool_decide (j ∈ calls.*1.*1)) as Hmem.
    { intros j. destruct (decide (j = i)) as [->|Hne].
      - rewrite (bool_decide_eq_true_2 (i ∈ i :: calls.*1.*1)) by (by left).
        by rewrite (bool_decide_eq_true_2 (i = i)).
      - rewrite (bool_decide_eq_false_2 (j = i)) by done. simpl.
        apply bool_decide_ext. rewrite elem_of_cons. tauto. }
    destruct Hcase as [[Hlt ->]|(Hge & Hopen & r & Hcomb & ->)].
    + split; [done|]. split.
      * intros j. destruct (Hshards j) as [He Hf]. destruct (Hmark j) as [He' Hf'].
        split; [congruence|]. simpl. rewrite Hmem, Hf, Hf'. by rewrite orb_assoc.
      * rewrite verifiedCount_verified_state in Hend by done.
        rewrite session_at_verified_state in Hend.
        destruct Hend as [[Hsame Hlen]|(Hop & Hcl & Hval & Hcount)].
        -- left. split; [done|]. right.
           destruct Hlen as [->|Hlen]; simpl length; lia.
        -- right. repeat split; try done. simpl length. lia.
    + rewrite totalShards_completed_state in Htot.
      split; [done|]. split.
      * intros j. destruct (Hshards j) as [He Hf]. destruct (Hmark j) as [He' Hf'].
        rewrite shard_at_completed_state in He, Hf.
        split; [congruence|]. simpl. rewrite Hmem, Hf, Hf'. by rewrite orb_assoc.
      * pose proof (wf_below _ Hwf sid Hn Hopen) as Hbelow.
        assert (isComplete (session_at (completed_state sid r (verified_state sid i st)) sid)
                = true) as Hdone.
        { rewrite session_at_completed_state. by destruct (decide (sid = sid)). }
        assert (threshold (session_at (completed_state sid r (verified_state sid i st)) sid)
                = threshold (session_at st sid)) as Hth.
        { rewrite session_at_completed_state. by destruct (decide (sid = sid)). }
        rewrite verifiedCount_completed_state in Hend.
        rewrite verifiedCount_verified_state in Hend by done.
        rewrite Hth in Hend.
        destruct Hend as [[Hsame Hlen]|(Hop & _)]; [|congruence].
        destruct Hlen as [->|Hlen]; [|lia].
        inversion Hrun; subst. right. repeat split; try done.
        -- rewrite combineShards_completed_state, Hcomb.
           rewrite session_at_completed_state. by destruct (decide (sid = sid)).
        -- simpl length. lia.
Qed.

End CombineSpec.

Section CombineClaim.
Context {fhe : FHE}.

(** C5.  [combineShards] is the exclusive-or fold, from 0, of the
    cleartexts the contract reads for the verified slots (and reverts
    exactly when one of them cannot be decoded); it returns 0 when no
    slot is verified; the fold is commutative and associative, hence
    the same on every permutation of its values; and from a reachable
    state two runs of verifications of one session that succeed and
    verify the same indices, in any order, end with the same
    [isComplete], the same stored value and the same combination. *)
Theorem combination_is_xor_fold st sid :
  reachable st ->
  combineShards st sid
    = (let! vals := verifiedCleartexts st sid in Ok (xor_fold vals)) /\
  ((forall i, 0 <= i < totalShards (session_at st sid) ->
      isVerified (shard_at st sid i) = false) ->
   combineShards st sid = inr 0) /\
  xor_fold [] = 0 /\
  (forall a b, xor_fold [a; b] = xor_fold [b; a]) /\
  (forall a b c, xor_fold [xor_fold [a; b]; c] = xor_fold [a; xor_fold [b; c]]) /\
  (forall l1 l2, xor_fold (l1 ++ l2) = Z.lxor (xor_fold l1) (xor_fold l2)) /\
  (forall l l', l ≡ₚ l' -> xor_fold l = xor_fold l') /\
  (forall calls1 calls2 st1 st2,
     calls1.*1.*1 ≡ₚ calls2.*1.*1 ->
     verifyAll sid calls1 st = inr st1 ->
     verifyAll sid calls2 st = inr st2 ->
     isComplete (session_at st1 sid) = isComplete (session_at st2 sid) /\
     decryptedValue (session_at st1 sid) = decryptedValue (session_at st2 sid) /\
     combineShards st1 sid = combineShards st2 sid).
Proof.
  intros Hr. pose proof (reachable_wf st Hr) as Hwf.
  split; [apply combineShards_xor_fold|].
  split.
  { intros Hnone. rewrite combineShards_xor_fold. unfold verifiedCleartexts.
    by rewrite verifiedIndices_none. }
  split; [done|].
  split. { intros a b. apply xor_fold_perm. apply perm_swap. }
  split.
  { intros a b c. rewrite !xor_fold_cons, !xor_fold_nil, !Z.lxor_0_r.
    by rewrite Z.lxor_assoc. }
  split; [apply xor_fold_app|].
  split; [apply xor_fold_perm|].
  intros calls1 calls2 st1 st2 Hperm Hrun1 Hrun2.
  destruct (verifyAll_outcome sid calls1 st st1 Hwf Hrun1) as (Htot1 & Hsh1 & Hend1).
  destruct (verifyAll_outcome sid calls2 st st2 Hwf Hrun2) as (Htot2 & Hsh2 & Hend2).
  assert (length calls1 = length calls2) as Hlen.
  { apply Permutation_length in Hperm. by rewrite !length_fmap in Hperm. }
  assert (combineShards st1 sid = combineShards st2 sid) as Hcomb.
  { apply combineShards_ext; [congruence|].
    intros j _. destruct (Hsh1 j) as [He1 Hf1]. destruct (Hsh2 j) as [He2 Hf2].
    split; [|congruence].
    rewrite Hf1, Hf2. f_equal. apply bool_decide_ext. by rewrite Hperm. }
  assert (forall calls' st',
            length calls' = 0%nat -> verifyAll sid calls' st = inr st' -> st' = st)
    as Hempty.
  { intros calls' st' Hl Hrun. destruct calls'; [|discriminate]. by inversion Hrun. }
  assert (isComplete (session_at st1 sid) = isComplete (session_at st2 sid) /\
          decryptedValue (session_at st1 sid) = decryptedValue (session_at st2 sid))
    as [Hc Hd]; [|done].
  destruct Hend1 as [[Hs1 Hl1]|(Ho1 & Hc1 & Hv1 & Hn1)];
    destruct Hend2 as [[Hs2 Hl2]|(Ho2 & Hc2 & Hv2 & Hn2)].
  - by rewrite Hs1, Hs2.
  - destruct Hl1 as [->|Hl1]; [|lia].
    assert (st2 = st) as -> by (apply (Hempty calls2); [by rewrite <- Hlen | done]).
    congruence.
  - destruct Hl2 as [->|Hl2]; [|lia].
    assert (st1 = st) as -> by (apply (Hempty calls1); [by rewrite Hlen | done]).
    congruence.
  - split; congruence.
Qed.

End CombineClaim.

Lemma combination_is_xor_fold_witness :
  decryptedValue (session_at
    (@run strictFHE [verify_tx 0 7; verify_tx 1 42; verify_tx 2 7] st_added) "s")
  = decryptedValue (session_at
    (@run strictFHE [verify_tx 2 7; verify_tx 0 7; verify_tx 1 42] st_added) "s").
Proof.
  destruct (@combination_is_xor_fold strictFHE st_added "s" reachable_st_added)
    as (_ & _ & _ & _ & _ & _ & _ & Horder).
  apply (Horder
    [(0, abi_encode_uint 7, someProof); (1, abi_encode_uint 42, someProof);
     (2, abi_encode_uint 7, someProof)]
    [(2, abi_encode_uint 7, someProof); (0, abi_encode_uint 7, someProof);
     (1, abi_encode_uint 42, someProof)]).
  - simpl. symmetry. apply (Permutation_cons_append [0; 1] 2).
  - by vm_compute.
  - by vm_compute.
Defined.

(** ** The scenario *)

Section Scenario.
Context {fhe : FHE}.

Lemma verifyShard_pending sid i clear prf st h v :
  name (session_at st sid) <> "" ->
  0 <= i < totalShards (session_at st sid) ->
  isVerified (shard_at st sid i) = false ->
  encryptedValue (shard_at st sid i) = h ->
  checkSignatures [h] clear prf = true ->
  abi_decode_uint32 clear = inr v ->
  v = publicValue1 (session_at st sid) \/ v = publicValue2 (session_at st sid) ->
  verifiedCount st sid + 1 < threshold (session_at st sid) ->
  verifyShard sid i clear prf st = inr (verified_state sid i st).
Proof.
  intros Hn Hi Hv <- Hsig Hdec Hcand Hlt. rewrite verifyShard_unverified by done.
  rewrite Hsig, Hdec, (proj2 (candidate_test_spec _ _ _) Hcand).
  by rewrite (proj2 (Z.leb_gt _ _)) by lia.
Qed.

Lemma verifyShard_completing sid i clear prf st h v r :
  name (session_at st sid) <> "" ->
  0 <= i < totalShards (session_at st sid) ->
  isVerified (shard_at st sid i) = false ->
  encryptedValue (shard_at st sid i) = h ->
  checkSignatures [h] clear prf = true ->
  abi_decode_uint32 clear = inr v ->
  v = publicValue1 (session_at st sid) \/ v = publicValue2 (session_at st sid) ->
  threshold (session_at st sid) <= verifiedCount st sid + 1 ->
  isComplete (session_at st sid) = false ->
  combineShards (verified_state sid i st) sid = inr r ->
  verifyShard sid i clear prf st
    = inr (completed_state sid r (verified_state sid i st)).
Proof.
  intros Hn Hi Hv <- Hsig Hdec Hcand Hge Hopen Hcomb.
  rewrite verifyShard_unverified by done.
  rewrite Hsig, Hdec, (proj2 (candidate_test_spec _ _ _) Hcand).
  rewrite (proj2 (Z.leb_le _ _)) by lia.
  rewrite completeSession_open by done. by rewrite Hcomb.
Qed.

Lemma combineShards_of_list st sid l vals :
  verifiedIndices st sid = l ->
  Forall2 (fun i v => shardCleartext st sid i = inr v) l vals ->
  combineShards st sid = inr (xor_fold vals).
Proof.
  intros Hl Hvals. rewrite combineShards_xor_fold. unfold verifiedCleartexts.
  rewrite Hl. clear Hl.
  assert (mapM_result (shardCleartext st sid) l = inr vals) as ->; [|done].
  induction Hvals as [|i v l vals Hv _ IH]; simpl; [done|].
  by rewrite Hv, IH.
Qed.

End Scenario.

Section ScenarioRun.
Context {fhe : FHE}.
Variable env : Env.
Variables ev h : Z -> Z.
Variables ip dp : Z -> list byte.

Hypothesis inputs : forall k, 0 <= k < 5 ->
  fromExternal (ev k) (ip k) = Some (h k) /\ h k <> 0 /\
  abi_decode_uint32 (getDecryptionProof (h k)) = inr (scenario_value k).
Hypothesis proofs : forall k, 0 <= k < 3 ->
  checkSignatures [h k] (abi_encode_uint (scenario_value k)) (dp k) = true.

Abbreviation created := (scenario_created env).
Abbreviation added := (scenario_added env h).
Abbreviation verified1 := (scenario_verified1 env h).
Abbreviation verified2 := (scenario_verified2 env h).
Abbreviation verified3 := (scenario_verified3 env h).

(** One [addShard] of the setup, run on the explicit state before it. *)
Ltac scenario_add k :=
  match goal with
  | |- context [step (env, AddShard "s" k (ev k) (ip k)) ?st] =>
      rewrite (step_succeeded (env, AddShard "s" k (ev k) (ip k)) st
                 (added_state env "s" k (h k) st));
      [| destruct (inputs k) as (Hev & Hh & _); [lia|];
         apply addShard_ok;
         [by vm_compute.. | exact Hev | exact Hh | by vm_compute]]
  end.

Lemma scenario_setup_runs :
  run (scenario_setup env ev ip) initState = added.
Proof.
  unfold scenario_setup, run. cbn [foldl].
  rewrite (step_succeeded _ initState created);
    [|by apply createSession_ok; vm_compute].
  scenario_add 0. scenario_add 1. scenario_add 2. scenario_add 3. scenario_add 4.
  reflexivity.
Qed.

Lemma exec_scenario_verify st k :
  exec (scenario_verify env dp k) st
  = verifyShard "s" k (abi_encode_uint (scenario_value k)) (dp k) st.
Proof. reflexivity. Qed.

Lemma scenario_first :
  exec (scenario_verify env dp 0) added = inr verified1.
Proof.
  assert (0 <= 0 < 3) as Hk by lia. pose proof (proofs 0 Hk) as Hsig.
  rewrite exec_scenario_verify. unfold scenario_verified1.
  apply (verifyShard_pending "s" 0 _ _ added (h 0) 7);
    [by vm_compute.. | exact Hsig | by vm_compute | left; by vm_compute | by vm_compute].
Qed.

Lemma scenario_second :
  exec (scenario_verify env dp 1) verified1 = inr verified2.
Proof.
  assert (0 <= 1 < 3) as Hk by lia. pose proof (proofs 1 Hk) as Hsig.
  rewrite exec_scenario_verify. unfold scenario_verified2.
  apply (verifyShard_pending "s" 1 _ _ verified1 (h 1) 42);
    [by vm_compute.. | exact Hsig | by vm_compute | right; by vm_compute | by vm_compute].
Qed.

Lemma scenario_combination :
  combineShards (verified_state "s" 2 verified2) "s" = inr 42.
Proof.
  apply (combineShards_of_list _ "s" [0; 1; 2] [7; 42; 7]); [by vm_compute|].
  repeat first [apply Forall2_nil_2 | apply Forall2_cons_2].
  - destruct (inputs 0) as (_ & _ & Hdec); [lia|]. exact Hdec.
  - destruct (inputs 1) as (_ & _ & Hdec); [lia|]. exact Hdec.
  - destruct (inputs 2) as (_ & _ & Hdec); [lia|]. exact Hdec.
Qed.

Lemma scenario_third :
  exec (scenario_verify env dp 2) verified2 = inr verified3.
Proof.
  assert (0 <= 2 < 3) as Hk by lia. pose proof (proofs 2 Hk) as Hsig.
  rewrite exec_scenario_verify. unfold scenario_verified3.
  apply (verifyShard_completing "s" 2 _ _ verified2 (h 2) 7 42);
    [by vm_compute.. | exact Hsig | by vm_compute | left; by vm_compute
    | by vm_compute | by vm_compute | apply scenario_combination].
Qed.

(** C6.  For every FHE library that accepts the five inputs, reads
    the cleartexts 7, 42, 7, 42, 7 for their handles and accepts the
    decryption proofs of shards 0, 1 and 2: in the session with
    threshold 3, 5 shards and candidates 7 and 42, the verifications
    of shards 0 and 1 succeed and leave the session incomplete, and
    the verification of shard 2 succeeds and completes it with the
    stored value 7 XOR 42 XOR 7 = 42. *)
Theorem scenario_completes_with_42 :
  let st0 := run (scenario_setup env ev ip) initState in
  let st1 := step (scenario_verify env dp 0) st0 in
  let st2 := step (scenario_verify env dp 1) st1 in
  let st3 := step (scenario_verify env dp 2) st2 in
  (threshold (session_at st0 "s") = 3 /\ totalShards (session_at st0 "s") = 5 /\
   publicValue1 (session_at st0 "s") = 7 /\ publicValue2 (session_at st0 "s") = 42 /\
   shardCount_at st0 "s" = 5 /\ verifiedCount st0 "s" = 0) /\
  (is_ok (exec (scenario_verify env dp 0) st0) /\
   verifiedCount st1 "s" = 1 /\ isComplete (session_at st1 "s") = false) /\
  (is_ok (exec (scenario_verify env dp 1) st1) /\
   verifiedCount st2 "s" = 2 /\ isComplete (session_at st2 "s") = false) /\
  (is_ok (exec (scenario_verify env dp 2) st2) /\
   verifiedCount st3 "s" = 3 /\ isComplete (session_at st3 "s") = true /\
   decryptedValue (session_at st3 "s") = 42 /\
   events st3 = events st2 ++ [ShardVerified "s" 2; SessionCompleted "s" 42]) /\
  Z.lxor (Z.lxor 7 42) 7 = 42.
Proof.
  intros st0 st1 st2 st3.
  assert (st0 = added) as E0 by apply scenario_setup_runs.
  assert (st1 = verified1) as E1.
  { unfold st1. rewrite E0. apply step_succeeded, scenario_first. }
  assert (st2 = verified2) as E2.
  { unfold st2. rewrite E1. apply step_succeeded, scenario_second. }
  assert (st3 = verified3) as E3.
  { unfold st3. rewrite E2. apply step_succeeded, scenario_third. }
  rewrite E3, E2, E1, E0.
  split; [by vm_compute|].
  split; [split; [|by vm_compute]; eexists; apply scenario_first|].
  split; [split; [|by vm_compute]; eexists; apply scenario_second|].
  split; [split; [|by vm_compute]; eexists; apply scenario_third|].
  reflexivity.
Qed.

End ScenarioRun.

Lemma scenario_completes_with_42_witness :
  decryptedValue (session_at
    (@run strictFHE
       (scenario_setup alice (fun k => 1000 + scenario_value k) (fun _ => someProof)
        ++ [scenario_verify alice (fun _ => someProof) 0;
            scenario_verify alice (fun _ => someProof) 1;
            scenario_verify alice (fun _ => someProof) 2])
       initState) "s") = 42.
Proof.
  unfold run. rewrite foldl_app. cbn [foldl].
  apply (@scenario_completes_with_42 strictFHE alice
           (fun k => 1000 + scenario_value k) (fun k => 1000 + scenario_value k)
           (fun _ => someProof) (fun _ => someProof)).
  - intros k Hk.
    assert (k = 0 \/ k = 1 \/ k = 2 \/ k = 3 \/ k = 4) as Hcases by lia.
    destruct Hcases as [->|[->|[->|[->| ->]]]]; by vm_compute.
  - intros k Hk.
    assert (k = 0 \/ k = 1 \/ k = 2) as Hcases by lia.
    destruct Hcases as [->|[->| ->]]; by vm_compute.
Defined.

(** * Further properties of the contract *)

(** ** Induction over the reachable states *)

Section ReachableCases.
Context {fhe : FHE}.

(** A property of the initial state that every successful entry point
    keeps holds in every reachable state. *)
Lemma reachable_cases (P : State -> Prop) :
  P initState ->
  (forall st env sid nm th tot pv1 pv2 d,
     reachable st -> P st -> msg_sender env <> 0 ->
     name (session_at st sid) = "" -> 0 < th <= tot ->
     P (created_state env sid nm th tot pv1 pv2 d st)) ->
  (forall st env sid i ev prf h,
     reachable st -> P st -> msg_sender env <> 0 ->
     name (session_at st sid) <> "" ->
     0 <= i < totalShards (session_at st sid) ->
     holder (shard_at st sid i) = 0 ->
     fromExternal ev prf = Some h -> h <> 0 ->
     P (added_state env sid i h st)) ->
  (forall st sid i clear prf v,
     reachable st -> P st ->
     name (session_at st sid) <> "" ->
     0 <= i < totalShards (session_at st sid) ->
     isVerified (shard_at st sid i) = false ->
     checkSignatures [encryptedValue (shard_at st sid i)] clear prf = true ->
     abi_decode_uint32 clear = inr v ->
     v = publicValue1 (session_at st sid) \/ v = publicValue2 (session_at st sid) ->
     verifiedCount st sid + 1 < threshold (session_at st sid) ->
     P (verified_state sid i st)) ->
  (forall st sid i clear prf v r,
     reachable st -> P st ->
     name (session_at st sid) <> "" ->
     0 <= i < totalShards (session_at st sid) ->
     isVerified (shard_at st sid i) = false ->
     checkSignatures [encryptedValue (shard_at st sid i)] clear prf = true ->
     abi_decode_uint32 clear = inr v ->
     v = publicValue1 (session_at st sid) \/ v = publicValue2 (session_at st sid) ->
     threshold (session_at st sid) <= verifiedCount st sid + 1 ->
     isComplete (session_at st sid) = false ->
     combineShards (verified_state sid i st) sid = inr r ->
     P (completed_state sid r (verified_state sid i st))) ->
  forall st, reachable st -> P st.
Proof.
  intros Hinit Hcreate Hadd Hverify Hcomplete st Hr.
  induction Hr as [|st tx Hr IH Htx]; [done|].
  unfold step. destruct (exec tx st) as [e|st'] eqn:Hrun; [done|].
  destruct tx as [env [sid nm th tot pv1 pv2 d|sid i ev prf|sid i clear prf]];
    simpl in Hrun; unfold valid_tx in Htx; simpl in Htx.
  - apply createSession_inv in Hrun as (Hn & Hth & ->). by apply Hcreate.
  - apply addShard_inv in Hrun as (Hn & Hi & Hh & h & Hev & Hh0 & ->).
    by apply (Hadd st env sid i ev prf h).
  - apply verifyShard_inv in Hrun as (Hn & Hi & Hv & Hsig & (v & Hdec & Hcand) & Hcase).
    destruct Hcase as [[Hlt ->]|(Hge & Hopen & r & Hcomb & ->)].
    + by apply (Hverify st sid i clear prf v).
    + by apply (Hcomplete st sid i clear prf v r).
Qed.

End ReachableCases.

(** ** Creating a session *)

(** X1.  [createSession] reverts with "Invalid threshold" exactly when
    the id is free and the threshold is 0 or exceeds [totalShards]; with
    such a threshold the call fails whatever the state and leaves no
    session, no registry entry and no event. *)
Theorem createSession_invalid_threshold env sid nm th tot pv1 pv2 d st :
  (createSession env sid nm th tot pv1 pv2 d st = inl (Revert "Invalid threshold")
   <-> name (session_at st sid) = "" /\ ~ 0 < th <= tot) /\
  (~ 0 < th <= tot ->
   (exists e, createSession env sid nm th tot pv1 pv2 d st = inl e) /\
   forall fhe, @step fhe (env, CreateSession sid nm th tot pv1 pv2 d) st = st).
Proof.
  split.
  - split.
    + intros Hrev. destruct (name_dec (name (session_at st sid))) as [Hn|Hn].
      * split; [done|]. intros Hth. rewrite createSession_ok in Hrev by done.
        discriminate.
      * rewrite createSession_exists in Hrev by done. discriminate.
    + intros [Hn Hth]. by apply createSession_bad_threshold.
  - intros Hth.
    assert (exists e, createSession env sid nm th tot pv1 pv2 d st = inl e) as [e He].
    { destruct (name_dec (name (session_at st sid))) as [Hn|Hn].
      - eexists. by apply createSession_bad_threshold.
      - eexists. by apply createSession_exists. }
    split; [eauto|]. intros fhe. by apply (step_reverted _ _ e).
Qed.

Lemma createSession_invalid_threshold_witness :
  createSession alice "z" "zero" 0 5 7 42 "no quorum" st_added
    = inl (Revert "Invalid threshold") /\
  @step strictFHE (alice, CreateSession "z" "over" 6 5 7 42 "too many") st_added
    = st_added.
Proof.
  split.
  - apply (createSession_invalid_threshold alice "z" "zero" 0 5 7 42 "no quorum" st_added).
    split; [by vm_compute | lia].
  - apply (createSession_invalid_threshold alice "z" "over" 6 5 7 42 "too many" st_added).
    lia.
Defined.

(** X2.  A [createSession] that succeeds stores what it was given: if
    the name is not empty [getSession] returns the arguments, the sender
    as creator, the block time, [isComplete = false] and value 0; the id
    is appended to the registry and one [SessionCreated] to the log; the
    other sessions, all shards and all shard counts are as before. *)
Theorem createSession_stores env sid nm th tot pv1 pv2 d st st' :
  createSession env sid nm th tot pv1 pv2 d st = inr st' ->
  (nm <> "" ->
   getSession st' sid
     = inr (nm, th, tot, pv1, pv2, d, msg_sender env, block_timestamp env, false, 0)) /\
  getAllSessionIds st' = inr (sessionIds st ++ [sid]) /\
  events st' = events st ++ [SessionCreated sid (msg_sender env)] /\
  (forall sid', sid' <> sid -> session_at st' sid' = session_at st sid') /\
  (forall sid' j, shard_at st' sid' j = shard_at st sid' j) /\
  (forall sid', shardCount_at st' sid' = shardCount_at st sid').
Proof.
  intros Hrun. apply createSession_inv in Hrun as (_ & _ & ->).
  split; [|split; [done|split; [done|split; [|done]]]].
  - intros Hnm. unfold getSession. rewrite session_at_created_state.
    destruct (decide (sid = sid)); [simpl | done].
    by rewrite (name_nonempty_true _ Hnm).
  - intros sid' Hne. rewrite session_at_created_state.
    by destruct (decide (sid = sid')) as [->|].
Qed.

Lemma createSession_stores_witness :
  getSession
    (created_state bob "v" "vault" 2 4 1 9 "second wallet" st_added) "v"
  = inr ("vault", 2, 4, 1, 9, "second wallet", 12, 200, false, 0).
Proof.
  apply (createSession_stores bob "v" "vault" 2 4 1 9 "second wallet" st_added);
    by vm_compute.
Defined.

Section Terms.
Context {fhe : FHE}.

(** X3.  In every reachable state an existing session has
    [0 < threshold <= totalShards], and no later transaction changes
    its name, threshold, number of shards, candidate values,
    description, creator or creation time. *)
Theorem session_terms_fixed st sid :
  reachable st ->
  name (session_at st sid) <> "" ->
  0 < threshold (session_at st sid) <= totalShards (session_at st sid) /\
  forall txs,
    same_terms (session_at st sid) (session_at (run txs st) sid) /\
    0 < threshold (session_at (run txs st) sid)
      <= totalShards (session_at (run txs st) sid).
Proof.
  intros Hr Hn. pose proof (reachable_wf st Hr) as Hwf.
  split; [by apply (wf_threshold _ Hwf)|].
  intros txs. split; [by apply run_same_terms|].
  apply (wf_threshold _ (wf_run txs st Hwf)). by apply run_exists.
Qed.

End Terms.

Lemma session_terms_fixed_witness :
  threshold (session_at (@run strictFHE [verify_tx 0 7; verify_tx 1 42] st_added) "s")
    = threshold (session_at st_added "s").
Proof.
  destruct (@session_terms_fixed strictFHE st_added "s" reachable_st_added)
    as [_ Hfixed]; [by vm_compute|].
  destruct (Hfixed [verify_tx 0 7; verify_tx 1 42]) as [(_ & Hth & _) _].
  exact Hth.
Defined.

(** ** Adding and reading a shard *)

Lemma shardCount_at_added_state env sid i h st sid' :
  shardCount_at (added_state env sid i h st) sid' =
  if decide (sid = sid') then shardCount_at st sid + 1 else shardCount_at st sid'.
Proof.
  unfold added_state, shardCount_at; simpl.
  destruct (decide (sid = sid')) as [<-|Hne].
  - by rewrite lookup_insert_eq.
  - by rewrite lookup_insert_ne.
Qed.

Section AddShard.
Context {fhe : FHE}.

(** X4.  On an existing session [addShard] refuses an index outside
    [0, totalShards) with "Invalid shard index"; on a free slot it
    fails inside the library when the input proof is rejected, and with
    "Invalid encrypted input" when the input yields the null handle.  In
    each case nothing is stored. *)
Theorem addShard_refusals env sid i ev prf st :
  name (session_at st sid) <> "" ->
  (~ 0 <= i < totalShards (session_at st sid) ->
   addShard env sid i ev prf st = inl (Revert "Invalid shard index")) /\
  (0 <= i < totalShards (session_at st sid) ->
   holder (shard_at st sid i) = 0 ->
   (fromExternal ev prf = None -> addShard env sid i ev prf st = inl FHERevert) /\
   (fromExternal ev prf = Some 0 ->
    addShard env sid i ev prf st = inl (Revert "Invalid encrypted input"))) /\
  (forall e, addShard env sid i ev prf st = inl e ->
   step (env, AddShard sid i ev prf) st = st).
Proof.
  intros Hn. split; [by apply addShard_bad_index|]. split.
  - intros Hi Hh. rewrite addShard_free by done.
    split; intros Hev; by rewrite Hev.
  - intros e He. by apply (step_reverted _ _ e).
Qed.

(** X5.  An [addShard] that succeeds stores the handle of its input,
    the sender as holder and an unset flag, which [getShard] returns;
    it adds one to the session's shard count and one [ShardAdded] to the
    log, and leaves every other slot, every other count, the sessions
    and the registry as they were. *)
Theorem addShard_stores env sid i ev prf st st' :
  addShard env sid i ev prf st = inr st' ->
  exists h,
    fromExternal ev prf = Some h /\ h <> 0 /\
    getShard st' sid i = inr (h, msg_sender env, false) /\
    shardCount_at st' sid = shardCount_at st sid + 1 /\
    (forall sid', sid' <> sid -> shardCount_at st' sid' = shardCount_at st sid') /\
    events st' = events st ++ [ShardAdded sid i (msg_sender env)] /\
    (forall sid' j, (sid', j) <> (sid, i) -> shard_at st' sid' j = shard_at st sid' j) /\
    (forall sid', session_at st' sid' = session_at st sid') /\
    sessionIds st' = sessionIds st.
Proof.
  intros Hrun. apply addShard_inv in Hrun as (Hn & Hi & _ & h & Hev & Hh & ->).
  exists h. split; [done|]. split; [done|]. split.
  { unfold getShard. rewrite session_at_added_state.
    rewrite (name_nonempty_true _ Hn). simpl.
    rewrite (index_test_true _ _ Hi). simpl.
    rewrite shard_at_added_state. by destruct (decide ((sid, i) = (sid, i))). }
  split.
  { rewrite shardCount_at_added_state. by destruct (decide (sid = sid)). }
  split.
  { intros sid' Hne. rewrite shardCount_at_added_state.
    by destruct (decide (sid = sid')) as [->|]. }
  split; [done|]. split; [|done].
  intros sid' j Hne. rewrite shard_at_added_state.
  by destruct (decide ((sid, i) = (sid', j))) as [E|]; [rewrite E in Hne|].
Qed.

End AddShard.

Lemma addShard_refusals_witness :
  @addShard strictFHE alice "s" 5 1007 someProof st_partial
    = inl (Revert "Invalid shard index") /\
  @addShard strictFHE alice "s" 3 1007 [] st_partial = inl FHERevert /\
  @addShard strictFHE alice "s" 3 0 someProof st_partial
    = inl (Revert "Invalid encrypted input").
Proof.
  assert (name (session_at st_partial "s") <> "") as Hn by (by vm_compute).
  split; [|split].
  - apply (@addShard_refusals strictFHE alice "s" 5 1007 someProof st_partial Hn).
    intros [_ Hlt]. by vm_compute in Hlt.
  - apply (@addShard_refusals strictFHE alice "s" 3 1007 [] st_partial Hn);
      by vm_compute.
  - apply (@addShard_refusals strictFHE alice "s" 3 0 someProof st_partial Hn);
      by vm_compute.
Defined.

Lemma addShard_stores_witness :
  exists h,
    getShard (added_state bob "s" 3 1042 st_partial) "s" 3 = inr (h, 12, false).
Proof.
  destruct (@addShard_stores strictFHE bob "s" 3 1042 someProof st_partial
              (added_state bob "s" 3 1042 st_partial)) as (h & _ & _ & Hget & _);
    [by vm_compute|].
  by exists h.
Defined.

(** X8.  [getShard] tests the session and the index, not the slot: on
    an existing session it returns the stored handle, holder and flag
    of a slot in range, which for a slot never written are the null
    handle, the zero address and [false]; outside the range it reverts
    with "Invalid shard index". *)
Theorem getShard_reads st sid i :
  name (session_at st sid) <> "" ->
  (0 <= i < totalShards (session_at st sid) ->
   getShard st sid i
     = inr (encryptedValue (shard_at st sid i), holder (shard_at st sid i),
            isVerified (shard_at st sid i)) /\
   (sessionShards st !! (sid, i) = None -> getShard st sid i = inr (0, 0, false))) /\
  (~ 0 <= i < totalShards (session_at st sid) ->
   getShard st sid i = inl (Revert "Invalid shard index")).
Proof.
  intros Hn. unfold getShard. rewrite (name_nonempty_true _ Hn). simpl. split.
  - intros Hi. rewrite (index_test_true _ _ Hi). simpl. split; [done|].
    intros Hnone. unfold shard_at. by rewrite Hnone.
  - intros Hi. by rewrite (index_test_false _ _ Hi).
Qed.

Lemma getShard_reads_witness :
  getShard st_partial "s" 4 = inr (0, 0, false) /\
  getShard st_partial "s" 7 = inl (Revert "Invalid shard index").
Proof.
  assert (name (session_at st_partial "s") <> "") as Hn by (by vm_compute).
  destruct (getShard_reads st_partial "s" 4 Hn) as [Hin _].
  destruct (getShard_reads st_partial "s" 7 Hn) as [_ Hout].
  split.
  - apply Hin; by vm_compute.
  - apply Hout. intros [_ Hlt]. by vm_compute in Hlt.
Defined.

(** ** Decoding a cleartext *)

Lemma be_uint_acc_nonneg (bs : list byte) (a : Z) :
  0 <= a -> 0 <= foldl (fun acc b => acc * 256 + Z.of_N (Byte.to_N b)) a bs.
Proof.
  revert a. induction bs as [|b bs IH]; intros a Ha; simpl; [done|].
  apply IH. lia.
Qed.

(** X9.  [abi.decode(data, (uint32))] reads the first 32-byte word: a
    value that fits [uint32], encoded as one word and followed by any
    bytes, decodes to itself; data shorter than one word and a word
    beyond [uint32] revert; what is decoded is always a [uint32]. *)
Theorem abi_decode_uint32_word :
  (forall v extra, 0 <= v <= max_uint32 ->
     abi_decode_uint32 (abi_encode_uint v ++ extra) = inr v) /\
  (forall data, (length data < 32)%nat -> abi_decode_uint32 data = inl Panic) /\
  (forall v extra, max_uint32 < v <= max_uint256 ->
     abi_decode_uint32 (abi_encode_uint v ++ extra) = inl Panic) /\
  (forall data v, abi_decode_uint32 data = inr v ->
     0 <= v <= max_uint32 /\ (32 <= length data)%nat).
Proof.
  assert (forall v extra, 0 <= v <= max_uint256 ->
            (Z.of_nat (length (abi_encode_uint v ++ extra)) <? 32) = false /\
            be_uint (take 32 (abi_encode_uint v ++ extra)) = v) as Hword.
  { intros v extra Hv.
    assert (length (abi_encode_uint v) = 32%nat) as Hlen.
    { unfold abi_encode_uint, be_bytes. by rewrite length_map, length_seq. }
    split.
    - apply Z.ltb_ge. rewrite length_app, Hlen. lia.
    - rewrite take_app_length' by done. unfold abi_encode_uint.
      rewrite be_uint_be_bytes. apply Z.mod_small.
      assert (max_uint256 < 256 ^ Z.of_nat 32) by (by vm_compute). lia. }
  split; [|split; [|split]].
  - intros v extra Hv. unfold abi_decode_uint32.
    assert (max_uint32 <= max_uint256) as Hle by (by vm_compute).
    destruct (Hword v extra) as [-> ->]; [lia|].
    by rewrite (proj2 (Z.leb_le _ _)) by lia.
  - intros data Hlen. unfold abi_decode_uint32.
    by rewrite (proj2 (Z.ltb_lt _ _)) by lia.
  - intros v extra Hv. unfold abi_decode_uint32.
    assert (0 <= max_uint32) as Hpos by (by vm_compute).
    destruct (Hword v extra) as [-> ->]; [lia|].
    by rewrite (proj2 (Z.leb_gt _ _)) by lia.
  - intros data v. unfold abi_decode_uint32.
    destruct (Z.of_nat (length data) <? 32) eqn:Hlen; [discriminate|].
    destruct (be_uint (take 32 data) <=? max_uint32) eqn:Hfit; [|discriminate].
    intros Hv. inversion Hv; subst. apply Z.ltb_ge in Hlen. apply Z.leb_le in Hfit.
    split; [|lia]. split; [|done]. by apply be_uint_acc_nonneg.
Qed.

Lemma abi_decode_uint32_word_witness :
  abi_decode_uint32 (abi_encode_uint 42 ++ [x01; x02]) = inr 42 /\
  abi_decode_uint32 [x00; x2a] = inl Panic /\
  abi_decode_uint32 (abi_encode_uint (2 ^ 32)) = inl Panic.
Proof.
  destruct abi_decode_uint32_word as (Hok & Hshort & Hbig & _).
  split; [|split].
  - apply Hok. by vm_compute.
  - apply Hshort. simpl. lia.
  - rewrite <- (app_nil_r (abi_encode_uint (2 ^ 32))). apply Hbig. by vm_compute.
Defined.

(** ** The stored value is a uint32 *)

Lemma uint32_log2 a : 0 <= a <= max_uint32 -> Z.log2 a < 32.
Proof.
  intros Ha. destruct (decide (a = 0)) as [->|Hne]; [done|].
  apply Z.log2_lt_pow2; [lia|].
  assert (max_uint32 < 2 ^ 32) by (by vm_compute). lia.
Qed.

Lemma lxor_uint32 a b :
  0 <= a <= max_uint32 -> 0 <= b <= max_uint32 ->
  0 <= Z.lxor a b <= max_uint32.
Proof.
  intros Ha Hb.
  assert (0 <= Z.lxor a b) as Hpos by (apply Z.lxor_nonneg; lia).
  split; [done|].
  destruct (decide (Z.lxor a b = 0)) as [->|Hne]; [by vm_compute|].
  assert (Z.log2 (Z.lxor a b) < 32) as Hlog.
  { pose proof (Z.log2_lxor a b) as Hmax.
    pose proof (uint32_log2 a Ha). pose proof (uint32_log2 b Hb). lia. }
  apply Z.log2_lt_pow2 in Hlog; [|lia].
  assert (2 ^ 32 = max_uint32 + 1) by (by vm_compute). lia.
Qed.

Lemma abi_decode_range data v :
  abi_decode_uint32 data = inr v -> 0 <= v <= max_uint32.
Proof.
  unfold abi_decode_uint32.
  destruct (Z.of_nat (length data) <? 32); [discriminate|].
  destruct (be_uint (take 32 data) <=? max_uint32) eqn:Hfit; [|discriminate].
  intros Hv. inversion Hv; subst. apply Z.leb_le in Hfit.
  split; [|done]. by apply be_uint_acc_nonneg.
Qed.

Lemma loopM_invariant {A} (P : A -> Prop) (body : A -> Z -> result A) l :
  (forall b i b', P b -> body b i = inr b' -> P b') ->
  forall a r, P a -> loopM body a l = inr r -> P r.
Proof.
  intros Hbody. induction l as [|i l IH]; intros a r Ha; simpl.
  - intros H. inversion H. by subst.
  - destruct (body a i) as [e|b] eqn:E; simpl; [discriminate|].
    apply IH. by apply (Hbody a i).
Qed.

Section StoreInvariant.
Context {fhe : FHE}.

Lemma combineShards_range st sid r :
  combineShards st sid = inr r -> 0 <= r <= max_uint32.
Proof.
  unfold combineShards, for_rangeM.
  apply (loopM_invariant (fun x => 0 <= x <= max_uint32)).
  - intros b i b' Hb. destruct (isVerified (shard_at st sid i)).
    + destruct (abi_decode_uint32 _) as [e|v] eqn:E; simpl; [discriminate|].
      inversion 1; subst. apply lxor_uint32; [done|]. by apply abi_decode_range in E.
    + by inversion 1; subst.
  - by vm_compute.
Qed.

Lemma count_events_snoc p l e :
  count_events p (l ++ [e]) = (count_events p l + if p e then 1 else 0)%nat.
Proof.
  unfold count_events. rewrite List.filter_app, length_app. simpl.
  by destruct (p e).
Qed.

Lemma stored_session_exists st sid :
  name (session_at st sid) <> "" -> is_Some (sessions st !! sid).
Proof.
  unfold session_at. destruct (sessions st !! sid); [eauto | done].
Qed.

Lemma wf_store_init : wf_store initState.
Proof.
  split.
  - intros sid i [sh Hsh]. simpl in Hsh. by rewrite lookup_empty in Hsh.
  - intros sid. simpl. rewrite lookup_empty. split.
    + by intros [x Hx].
    + intros H. by apply elem_of_nil in H.
  - done.
  - intros sid. unfold shardCount_at. simpl. by rewrite lookup_empty.
  - intros sid. by rewrite session_at_init.
  - intros sid. rewrite session_at_init. by vm_compute.
Qed.

Lemma wf_store_created env sid nm th tot pv1 pv2 d st :
  wf_store st -> name (session_at st sid) = "" ->
  wf_store (created_state env sid nm th tot pv1 pv2 d st).
Proof.
  intros Hs Hn. split.
  - intros sid' i Hsome.
    change (is_Some (sessionShards st !! (sid', i))) in Hsome.
    destruct (ws_shards _ Hs sid' i Hsome) as [Hn' Hi].
    rewrite session_at_created_state.
    destruct (decide (sid = sid')) as [<-|]; [contradiction | done].
  - intros sid'. unfold created_state. simpl.
    rewrite elem_of_app, list_elem_of_singleton.
    destruct (decide (sid = sid')) as [<-|Hne].
    + rewrite lookup_insert_eq. split; [by right | eauto].
    + rewrite lookup_insert_ne by done. rewrite (ws_registry _ Hs sid').
      split; [by left | intros [H|H]; [done | congruence]].
  - unfold created_state at 1. simpl. rewrite count_events_snoc. simpl.
    rewrite (ws_created _ Hs), length_app. simpl. done.
  - intros sid'. unfold created_state at 1. simpl. rewrite count_events_snoc. simpl.
    rewrite Nat.add_0_r. apply (ws_added _ Hs).
  - intros sid'. rewrite session_at_created_state.
    destruct (decide (sid = sid')); [done|]. apply (ws_unset _ Hs).
  - intros sid'. rewrite session_at_created_state.
    destruct (decide (sid = sid')); [by vm_compute|]. apply (ws_range _ Hs).
Qed.

Lemma wf_store_added env sid i h st :
  wf_store st -> name (session_at st sid) <> "" ->
  0 <= i < totalShards (session_at st sid) ->
  wf_store (added_state env sid i h st).
Proof.
  intros Hs Hn Hi. split.
  - intros sid' j. unfold added_state. simpl.
    change (session_at _ sid') with (session_at st sid').
    destruct (decide ((sid, i) = (sid', j))) as [E|Hne].
    + inversion E; subst. done.
    + rewrite lookup_insert_ne by done. apply (ws_shards _ Hs).
  - intros sid'. apply (ws_registry _ Hs).
  - unfold added_state at 1. simpl. rewrite count_events_snoc. simpl.
    rewrite Nat.add_0_r. apply (ws_created _ Hs).
  - intros sid'. unfold added_state at 1. simpl. rewrite count_events_snoc. simpl.
    rewrite shardCount_at_added_state.
    destruct (decide (sid = sid')) as [<-|Hne].
    + rewrite bool_decide_eq_true_2 by done. rewrite <- (ws_added _ Hs sid). lia.
    + rewrite bool_decide_eq_false_2 by done. rewrite <- (ws_added _ Hs sid'). lia.
  - intros sid'. apply (ws_unset _ Hs).
  - intros sid'. apply (ws_range _ Hs).
Qed.

Lemma wf_store_verified sid i st :
  wf_store st -> name (session_at st sid) <> "" ->
  0 <= i < totalShards (session_at st sid) ->
  wf_store (verified_state sid i st).
Proof.
  intros Hs Hn Hi. split.
  - intros sid' j. unfold verified_state. simpl.
    change (session_at _ sid') with (session_at st sid').
    destruct (decide ((sid, i) = (sid', j))) as [E|Hne].
    + inversion E; subst. done.
    + rewrite lookup_insert_ne by done. apply (ws_shards _ Hs).
  - intros sid'. apply (ws_registry _ Hs).
  - rewrite events_verified_state, count_events_snoc. simpl.
    rewrite Nat.add_0_r. apply (ws_created _ Hs).
  - intros sid'. rewrite events_verified_state, count_events_snoc. simpl.
    rewrite Nat.add_0_r. apply (ws_added _ Hs).
  - intros sid'. apply (ws_unset _ Hs).
  - intros sid'. apply (ws_range _ Hs).
Qed.

Lemma wf_store_completed sid r st :
  wf_store st -> name (session_at st sid) <> "" ->
  0 <= r <= max_uint32 ->
  wf_store (completed_state sid r st).
Proof.
  intros Hs Hn Hr. split.
  - intros sid' j Hsome.
    change (is_Some (sessionShards st !! (sid', j))) in Hsome.
    destruct (ws_shards _ Hs sid' j Hsome) as [Hn' Hj].
    rewrite totalShards_completed_state, session_at_completed_state.
    split; [|done]. by destruct (decide (sid = sid')) as [<-|].
  - intros sid'. unfold completed_state. simpl.
    destruct (decide (sid = sid')) as [<-|Hne].
    + rewrite lookup_insert_eq. split; [|eauto]. intros _.
      apply (ws_registry _ Hs). by apply stored_session_exists.
    + rewrite lookup_insert_ne by done. apply (ws_registry _ Hs).
  - rewrite events_completed_state, count_events_snoc. simpl.
    rewrite Nat.add_0_r. apply (ws_created _ Hs).
  - intros sid'. rewrite events_completed_state, count_events_snoc. simpl.
    rewrite Nat.add_0_r. apply (ws_added _ Hs).
  - intros sid'. rewrite session_at_completed_state.
    destruct (decide (sid = sid')); [done|]. apply (ws_unset _ Hs).
  - intros sid'. rewrite session_at_completed_state.
    destruct (decide (sid = sid')); [done|]. apply (ws_range _ Hs).
Qed.

Lemma reachable_wf_store st : reachable st -> wf_store st.
Proof.
  apply reachable_cases.
  - apply wf_store_init.
  - intros. by apply wf_store_created.
  - intros. by apply wf_store_added.
  - intros. by apply wf_store_verified.
  - intros st0 sid i clear prf v r Hr Hs Hn Hi Hv Hsig Hdec Hcand Hge Hopen Hcomb.
    apply wf_store_completed; [by apply wf_store_verified | done |].
    by apply (combineShards_range (verified_state sid i st0) sid).
Qed.

End StoreInvariant.

(** ** Counting the shards *)

Lemma count_le_length f l : foldl (count_body f) 0 l <= Z.of_nat (length l).
Proof.
  induction l as [|i l IH]; simpl; [lia|].
  rewrite count_acc. unfold count_body at 1. destruct (f i); lia.
Qed.

Lemma count_lt_length f l i :
  i ∈ l -> f i = false -> foldl (count_body f) 0 l < Z.of_nat (length l).
Proof.
  induction l as [|k l IH]; intros Hi Hf; [by apply elem_of_nil in Hi|].
  simpl foldl. rewrite count_acc. unfold count_body at 1.
  apply elem_of_cons in Hi as [<-|Hi].
  - rewrite Hf. pose proof (count_le_length f l). simpl length. lia.
  - specialize (IH Hi Hf). simpl length. destruct (f k); lia.
Qed.

Lemma length_seqZ_range n : 0 <= n -> Z.of_nat (length (seqZ 0 n)) = n.
Proof. intros Hn. rewrite length_seqZ. lia. Qed.

Lemma heldCount_ext st st' sid :
  totalShards (session_at st' sid) = totalShards (session_at st sid) ->
  (forall i, holder (shard_at st' sid i) = holder (shard_at st sid i)) ->
  heldCount st' sid = heldCount st sid.
Proof.
  intros Htot Hh. unfold heldCount. rewrite Htot.
  apply count_ext. intros i _. by rewrite Hh.
Qed.

Lemma heldCount_free st sid :
  (forall i, holder (shard_at st sid i) = 0) -> heldCount st sid = 0.
Proof.
  intros Hfree. unfold heldCount. apply count_none. intros i _. by rewrite Hfree.
Qed.

Section ShardCounts.
Context {fhe : FHE}.

Lemma unnamed_session_free st sid :
  wf st -> name (session_at st sid) = "" ->
  forall i, holder (shard_at st sid i) = 0.
Proof.
  intros Hwf Hn i. destruct (decide (holder (shard_at st sid i) = 0)) as [|E]; [done|].
  apply (wf_holder _ Hwf) in E as [E _]. contradiction.
Qed.

Lemma unnamed_session_unverified st sid :
  wf st -> name (session_at st sid) = "" ->
  forall i, isVerified (shard_at st sid i) = false.
Proof.
  intros Hwf Hn i. destruct (isVerified (shard_at st sid i)) eqn:E; [|done].
  apply (wf_verified _ Hwf) in E as [E _]. contradiction.
Qed.

Lemma reachable_shardCount st :
  reachable st -> forall sid, shardCount_at st sid = heldCount st sid.
Proof.
  apply (reachable_cases (fun st => forall sid, shardCount_at st sid = heldCount st sid)).
  - intros sid. unfold heldCount. by rewrite session_at_init.
  - intros st0 env sid nm th tot pv1 pv2 d Hr IH _ Hn _ sid'.
    change (shardCount_at (created_state env sid nm th tot pv1 pv2 d st0) sid')
      with (shardCount_at st0 sid').
    rewrite IH. destruct (decide (sid = sid')) as [<-|Hne].
    + pose proof (unnamed_session_free st0 sid (reachable_wf st0 Hr) Hn) as Hfree.
      rewrite (heldCount_free st0 sid Hfree). symmetry. by apply heldCount_free.
    + symmetry. apply heldCount_ext; [|done].
      rewrite session_at_created_state. by destruct (decide (sid = sid')).
  - intros st0 env sid i ev prf h Hr IH Hsender Hn Hi Hfree _ _ sid'.
    rewrite shardCount_at_added_state.
    destruct (decide (sid = sid')) as [<-|Hne].
    + rewrite IH. symmetry. unfold heldCount.
      change (session_at (added_state env sid i h st0) sid) with (session_at st0 sid).
      apply (count_flip _ _ _ i).
      * apply NoDup_seqZ.
      * apply elem_of_seqZ. lia.
      * by rewrite Hfree.
      * rewrite shard_at_added_state. destruct (decide ((sid, i) = (sid, i))); [|done].
        simpl. by rewrite (proj2 (Z.eqb_neq _ _) Hsender).
      * intros j Hj. rewrite shard_at_added_state.
        destruct (decide ((sid, i) = (sid, j))); [congruence | done].
    + rewrite IH. symmetry. apply heldCount_ext; [done|].
      intros j. rewrite shard_at_added_state.
      destruct (decide ((sid, i) = (sid', j))); [congruence | done].
  - intros st0 sid i clear prf v Hr IH _ _ _ _ _ _ _ sid'.
    change (shardCount_at (verified_state sid i st0) sid') with (shardCount_at st0 sid').
    rewrite IH. symmetry. apply heldCount_ext; [done|].
    intros j. rewrite shard_at_verified_state.
    by destruct (decide ((sid, i) = (sid', j))) as [E|]; [inversion E; subst|].
  - intros st0 sid i clear prf v r Hr IH _ _ _ _ _ _ _ _ _ sid'.
    change (shardCount_at (completed_state sid r (verified_state sid i st0)) sid')
      with (shardCount_at st0 sid').
    rewrite IH. symmetry. apply heldCount_ext.
    + by rewrite totalShards_completed_state.
    + intros j. rewrite shard_at_completed_state, shard_at_verified_state.
      by destruct (decide ((sid, i) = (sid', j))) as [E|]; [inversion E; subst|].
Qed.

(** X6.  In every reachable state the shard count of a session is the
    number of its slots that hold a shard, so it never exceeds
    [totalShards]; and while [totalShards] fits [uint256] the checked
    increment of [addShard] cannot overflow: the call never ends in a
    panic. *)
Theorem shardCount_counts_held_slots st sid :
  reachable st ->
  shardCount_at st sid = heldCount st sid /\
  0 <= shardCount_at st sid /\
  (0 <= totalShards (session_at st sid) ->
   shardCount_at st sid <= totalShards (session_at st sid)) /\
  (totalShards (session_at st sid) <= max_uint256 ->
   forall env i ev prf, addShard env sid i ev prf st <> inl Panic).
Proof.
  intros Hr. pose proof (reachable_shardCount st Hr sid) as Hcount.
  split; [done|]. rewrite Hcount. unfold heldCount. split; [apply count_nonneg|].
  split.
  - intros Htot. rewrite <- (length_seqZ_range _ Htot) at 2. apply count_le_length.
  - intros Hmax env i ev prf Hpanic.
    destruct (name_dec (name (session_at st sid))) as [Hn|Hn].
    { rewrite addShard_missing in Hpanic by done. discriminate. }
    destruct (decide (0 <= i < totalShards (session_at st sid))) as [Hi|Hi].
    2: { rewrite addShard_bad_index in Hpanic by done. discriminate. }
    destruct (decide (holder (shard_at st sid i) = 0)) as [Hh|Hh].
    2: { rewrite addShard_occupied in Hpanic by done. discriminate. }
    rewrite addShard_free in Hpanic by done.
    destruct (fromExternal ev prf) as [h|]; [|discriminate].
    destruct (h =? 0); [discriminate|].
    destruct (shardCount_at st sid + 1 <=? max_uint256) eqn:Hfit; [discriminate|].
    apply Z.leb_gt in Hfit. rewrite Hcount in Hfit. unfold heldCount in Hfit.
    assert (foldl (count_body (fun j => negb (holder (shard_at st sid j) =? 0))) 0
              (seqZ 0 (totalShards (session_at st sid)))
            < Z.of_nat (length (seqZ 0 (totalShards (session_at st sid))))) as Hlt.
    { apply (count_lt_length _ _ i); [apply elem_of_seqZ; lia | by rewrite Hh]. }
    rewrite length_seqZ_range in Hlt by lia. lia.
Qed.

(** X7.  The verified count is never negative nor above [totalShards];
    in a reachable state, with a library that rejects the null handle,
    it is at most the shard count of the session, and for an existing
    session at most the threshold. *)
Theorem verifiedCount_bounds st sid :
  0 <= verifiedCount st sid /\
  (0 <= totalShards (session_at st sid) ->
   verifiedCount st sid <= totalShards (session_at st sid)) /\
  (reachable st -> rejects_null fhe ->
   verifiedCount st sid <= shardCount_at st sid /\
   (name (session_at st sid) <> "" ->
    verifiedCount st sid <= threshold (session_at st sid))).
Proof.
  split; [apply verifiedCount_nonneg|]. split.
  - intros Htot. rewrite verifiedCount_unfold.
    rewrite <- (length_seqZ_range _ Htot) at 2. apply count_le_length.
  - intros Hr Hstrict. pose proof (reachable_wf st Hr) as Hwf.
    pose proof (reachable_wf_strict Hstrict st Hr) as Hs. split.
    + rewrite (reachable_shardCount st Hr sid), verifiedCount_unfold. unfold heldCount.
      apply count_le. intros i _ Hv. apply (wfs_held _ Hs) in Hv.
      by rewrite (proj2 (Z.eqb_neq _ _) Hv).
    + intros Hn. destruct (isComplete (session_at st sid)) eqn:Hc.
      * rewrite (wfs_complete _ Hs sid Hc). lia.
      * pose proof (wf_below _ Hwf sid Hn Hc). lia.
Qed.

End ShardCounts.

Lemma shardCount_counts_held_slots_witness :
  shardCount_at st_partial "s" = heldCount st_partial "s" /\
  shardCount_at st_partial "s" <= totalShards (session_at st_partial "s") /\
  @addShard strictFHE alice "s" 3 1042 someProof st_partial <> inl Panic.
Proof.
  destruct (@shardCount_counts_held_slots strictFHE st_partial "s" reachable_st_partial)
    as (Hheld & _ & Hle & Hsafe).
  split; [exact Hheld|]. split.
  - apply Hle. by vm_compute.
  - apply Hsafe. by vm_compute.
Defined.

Lemma verifiedCount_bounds_witness :
  verifiedCount st_done "s" <= shardCount_at st_done "s" /\
  verifiedCount st_done "s" <= threshold (session_at st_done "s").
Proof.
  destruct (@verifiedCount_bounds strictFHE st_done "s") as (_ & _ & Hreach).
  destruct (Hreach reachable_st_done strictFHE_rejects_null) as [Hcount Hth].
  split; [exact Hcount|]. apply Hth. by vm_compute.
Defined.

(** ** Storage, registry and log *)

Section StoreClaims.
Context {fhe : FHE}.

(** X10.  In every reachable state the stored value of a session is a
    [uint32], and it is 0 as long as the session is not complete; every
    value [combineShards] returns is a [uint32], so the exclusive-or
    never leaves the type. *)
Theorem stored_value_uint32 st sid :
  (forall r, combineShards st sid = inr r -> 0 <= r <= max_uint32) /\
  (reachable st ->
   0 <= decryptedValue (session_at st sid) <= max_uint32 /\
   (isComplete (session_at st sid) = false ->
    decryptedValue (session_at st sid) = 0)).
Proof.
  split; [apply combineShards_range|].
  intros Hr. pose proof (reachable_wf_store st Hr) as Hs.
  split; [apply (ws_range _ Hs) | apply (ws_unset _ Hs)].
Qed.

Lemma step_sessionIds tx st :
  sessionIds st `prefix_of` sessionIds (step tx st) /\
  events st `prefix_of` events (step tx st).
Proof.
  unfold step. destruct (exec tx st) as [e|st'] eqn:Hrun; [done|].
  destruct tx as [env [sid nm th tot pv1 pv2 d|sid i ev prf|sid i clear prf]];
    simpl in Hrun.
  - apply createSession_inv in Hrun as (_ & _ & ->). split; by eexists.
  - apply addShard_inv in Hrun as (_ & _ & _ & h & _ & _ & ->).
    split; [done | by eexists].
  - apply verifyShard_inv in Hrun as (_ & _ & _ & _ & _ & Hcase).
    destruct Hcase as [[_ ->]|(_ & _ & r & _ & ->)].
    + split; [done | by eexists].
    + split; [done|]. rewrite events_completed_state, events_verified_state.
      rewrite <- app_assoc. by eexists.
Qed.

Lemma run_sessionIds txs st :
  sessionIds st `prefix_of` sessionIds (run txs st) /\
  events st `prefix_of` events (run txs st).
Proof.
  revert st. induction txs as [|tx txs IH]; intros st; simpl; [done|].
  destruct (step_sessionIds tx st) as [Hids Hev].
  destruct (IH (step tx st)) as [Hids' Hev'].
  split; etrans; eauto.
Qed.

(** X11.  The registry lists exactly the ids under which a record is
    stored: every existing session is listed by [getAllSessionIds], the
    log holds one [SessionCreated] per entry, and later transactions
    only append to the registry. *)
Theorem registry_lists_stored_sessions st sid :
  reachable st ->
  (is_Some (sessions st !! sid) <-> sid ∈ sessionIds st) /\
  (name (session_at st sid) <> "" ->
   exists ids, getAllSessionIds st = inr ids /\ sid ∈ ids) /\
  count_events is_created_event (events st) = length (sessionIds st) /\
  (forall txs, sessionIds st `prefix_of` sessionIds (run txs st)).
Proof.
  intros Hr. pose proof (reachable_wf_store st Hr) as Hs.
  split; [apply (ws_registry _ Hs)|]. split.
  - intros Hn. exists (sessionIds st). split; [done|].
    apply (ws_registry _ Hs). by apply stored_session_exists.
  - split; [apply (ws_created _ Hs)|]. intros txs. apply run_sessionIds.
Qed.

(** X12.  Shards are stored only in the slots of existing sessions: in
    a reachable state, a slot outside [0, totalShards) or under an id
    without an existing session was never written and reads as the zero
    shard. *)
Theorem storage_within_bounds st sid i :
  reachable st ->
  ~ (name (session_at st sid) <> "" /\ 0 <= i < totalShards (session_at st sid)) ->
  sessionShards st !! (sid, i) = None /\ shard_at st sid i = zero_shard.
Proof.
  intros Hr Hout. pose proof (reachable_wf_store st Hr) as Hs.
  assert (sessionShards st !! (sid, i) = None) as Hnone.
  { destruct (sessionShards st !! (sid, i)) as [sh|] eqn:E; [|done].
    exfalso. apply Hout. apply (ws_shards _ Hs). by rewrite E. }
  split; [done|]. unfold shard_at. by rewrite Hnone.
Qed.

Lemma reachable_verified_events (strict : rejects_null fhe) st :
  reachable st ->
  forall sid,
    Z.of_nat (count_events (is_verified_event sid) (events st)) = verifiedCount st sid.
Proof.
  apply (reachable_cases (fun st => forall sid,
    Z.of_nat (count_events (is_verified_event sid) (events st)) = verifiedCount st sid)).
  - intros sid. rewrite verifiedCount_none; [done|].
    intros i. by rewrite shard_at_init.
  - intros st0 env sid nm th tot pv1 pv2 d Hr IH _ Hn _ sid'.
    unfold created_state at 1. simpl. rewrite count_events_snoc. simpl.
    rewrite Nat.add_0_r, IH. destruct (decide (sid = sid')) as [<-|Hne].
    + pose proof (unnamed_session_unverified st0 sid (reachable_wf st0 Hr) Hn) as Hnone.
      rewrite (verifiedCount_none st0 sid Hnone). symmetry. by apply verifiedCount_none.
    + symmetry. by apply verifiedCount_created_state.
  - intros st0 env sid i ev prf h Hr IH _ _ _ Hfree _ _ sid'.
    pose proof (reachable_wf_strict strict st0 Hr) as Hs.
    unfold added_state at 1. simpl. rewrite count_events_snoc. simpl.
    rewrite Nat.add_0_r, IH. symmetry. apply verifiedCount_added_state.
    by apply unheld_unverified.
  - intros st0 sid i clear prf v Hr IH _ Hi Hv _ _ _ _ sid'.
    rewrite events_verified_state, count_events_snoc. simpl.
    destruct (decide (sid = sid')) as [<-|Hne].
    + rewrite bool_decide_eq_true_2 by done.
      rewrite verifiedCount_verified_state by done. rewrite <- IH. lia.
    + rewrite bool_decide_eq_false_2 by done.
      rewrite verifiedCount_other_verified by done. rewrite <- IH. lia.
  - intros st0 sid i clear prf v r Hr IH _ Hi Hv _ _ _ _ _ _ sid'.
    rewrite events_completed_state, events_verified_state.
    rewrite !count_events_snoc. simpl. rewrite verifiedCount_completed_state.
    destruct (decide (sid = sid')) as [<-|Hne].
    + rewrite bool_decide_eq_true_2 by done.
      rewrite verifiedCount_verified_state by done. rewrite <- IH. lia.
    + rewrite bool_decide_eq_false_2 by done.
      rewrite verifiedCount_other_verified by done. rewrite <- IH. lia.
Qed.

(** X13.  The log agrees with the storage: in every reachable state
    the number of [ShardAdded] events of a session is its shard count
    and, with a library that rejects the null handle, the number of its
    [ShardVerified] events is its verified count; a transaction only
    appends to the log. *)
Theorem log_agrees_with_storage st sid :
  reachable st ->
  Z.of_nat (count_events (is_added_event sid) (events st)) = shardCount_at st sid /\
  (rejects_null fhe ->
   Z.of_nat (count_events (is_verified_event sid) (events st)) = verifiedCount st sid) /\
  (forall txs, events st `prefix_of` events (run txs st)).
Proof.
  intros Hr. pose proof (reachable_wf_store st Hr) as Hs.
  split; [apply (ws_added _ Hs)|]. split.
  - intros Hstrict. by apply reachable_verified_events.
  - intros txs. apply run_sessionIds.
Qed.

End StoreClaims.

Lemma stored_value_uint32_witness :
  0 <= decryptedValue (session_at st_done "s") <= max_uint32 /\
  decryptedValue (session_at st_added "s") = 0.
Proof.
  destruct (@stored_value_uint32 strictFHE st_done "s") as [_ Hdone].
  destruct (@stored_value_uint32 strictFHE st_added "s") as [_ Hadded].
  split.
  - apply (Hdone reachable_st_done).
  - apply (Hadded reachable_st_added). by vm_compute.
Defined.

Lemma registry_lists_stored_sessions_witness :
  exists ids, getAllSessionIds st_added = inr ids /\ "s" ∈ ids.
Proof.
  apply (@registry_lists_stored_sessions strictFHE st_added "s" reachable_st_added).
  by vm_compute.
Defined.

Lemma storage_within_bounds_witness :
  shard_at st_done "s" 5 = zero_shard /\ shard_at st_done "ghost" 0 = zero_shard.
Proof.
  split.
  - apply (@storage_within_bounds strictFHE st_done "s" 5 reachable_st_done).
    intros [_ [_ Hlt]]. by vm_compute in Hlt.
  - apply (@storage_within_bounds strictFHE st_done "ghost" 0 reachable_st_done).
    intros [Hn _]. by vm_compute in Hn.
Defined.

Lemma log_agrees_with_storage_witness :
  Z.of_nat (count_events (is_added_event "s") (events st_done)) = shardCount_at st_done "s" /\
  Z.of_nat (count_events (is_verified_event "s") (events st_done))
    = verifiedCount st_done "s".
Proof.
  destruct (@log_agrees_with_storage strictFHE st_done "s" reachable_st_done)
    as (Hadded & Hverified & _).
  split; [exact Hadded | exact (Hverified strictFHE_rejects_null)].
Defined.

(** ** What a transaction leaves alone *)

Section Isolation.
Context {fhe : FHE}.

(** X14.  Sessions are isolated: a transaction that names one session
    leaves the record, every slot, the shard count, the verified count
    and the combination of every other session as they were. *)
Theorem sessions_are_isolated tx st sid' :
  call_session (snd tx) <> sid' ->
  session_at (step tx st) sid' = session_at st sid' /\
  (forall j, shard_at (step tx st) sid' j = shard_at st sid' j) /\
  shardCount_at (step tx st) sid' = shardCount_at st sid' /\
  verifiedCount (step tx st) sid' = verifiedCount st sid' /\
  combineShards (step tx st) sid' = combineShards st sid'.
Proof.
  intros Hne. unfold step. destruct (exec tx st) as [e|st'] eqn:Hrun; [done|].
  destruct tx as [env [sid nm th tot pv1 pv2 d|sid i ev prf|sid i clear prf]];
    simpl in Hrun, Hne.
  - apply createSession_inv in Hrun as (_ & _ & ->).
    rewrite verifiedCount_created_state, combineShards_created_state by done.
    rewrite session_at_created_state. by destruct (decide (sid = sid')).
  - apply addShard_inv in Hrun as (_ & _ & _ & h & _ & _ & ->).
    assert (forall j, shard_at (added_state env sid i h st) sid' j = shard_at st sid' j)
      as Hshards.
    { intros j. rewrite shard_at_added_state.
      destruct (decide ((sid, i) = (sid', j))); [congruence | done]. }
    split; [done|]. split; [done|]. split.
    { rewrite shardCount_at_added_state. by destruct (decide (sid = sid')). }
    split.
    + apply verifiedCount_ext; [done|]. intros j _. by rewrite Hshards.
    + apply combineShards_ext; [done|]. intros j _. by rewrite Hshards.
  - apply verifyShard_inv in Hrun as (_ & _ & _ & _ & _ & Hcase).
    assert (forall j, shard_at (verified_state sid i st) sid' j = shard_at st sid' j)
      as Hshards.
    { intros j. rewrite shard_at_verified_state.
      destruct (decide ((sid, i) = (sid', j))); [congruence | done]. }
    destruct Hcase as [[_ ->]|(_ & _ & r & _ & ->)].
    + rewrite verifiedCount_other_verified, combineShards_other_verified by done.
      done.
    + rewrite verifiedCount_completed_state, combineShards_completed_state.
      rewrite verifiedCount_other_verified, combineShards_other_verified by done.
      rewrite session_at_completed_state. by destruct (decide (sid = sid')).
Qed.

(** X15.  A [verifyShard] that succeeds sets one flag and at most
    completes its session: no ciphertext handle, no holder and no other
    flag changes, nor any shard count, nor the registry, nor the terms
    of the session. *)
Theorem verifyShard_sets_one_flag sid i clear prf st st' :
  verifyShard sid i clear prf st = inr st' ->
  (forall sid' j,
     encryptedValue (shard_at st' sid' j) = encryptedValue (shard_at st sid' j) /\
     holder (shard_at st' sid' j) = holder (shard_at st sid' j) /\
     ((sid', j) <> (sid, i) ->
      isVerified (shard_at st' sid' j) = isVerified (shard_at st sid' j))) /\
  (forall sid', shardCount_at st' sid' = shardCount_at st sid') /\
  sessionIds st' = sessionIds st /\
  same_terms (session_at st sid) (session_at st' sid).
Proof.
  intros Hrun. apply verifyShard_inv in Hrun as (_ & _ & _ & _ & _ & Hcase).
  assert (forall sid' j,
     encryptedValue (shard_at (verified_state sid i st) sid' j)
       = encryptedValue (shard_at st sid' j) /\
     holder (shard_at (verified_state sid i st) sid' j) = holder (shard_at st sid' j) /\
     ((sid', j) <> (sid, i) ->
      isVerified (shard_at (verified_state sid i st) sid' j)
        = isVerified (shard_at st sid' j))) as Hshards.
  { intros sid' j. rewrite shard_at_verified_state.
    destruct (decide ((sid, i) = (sid', j))) as [E|]; [|done].
    inversion E; subst. done. }
  destruct Hcase as [[_ ->]|(_ & _ & r & _ & ->)].
  - split; [done|]. split; [done|]. split; [done|]. apply same_terms_refl.
  - split; [done|]. split; [done|]. split; [done|].
    rewrite session_at_completed_state, session_at_verified_state.
    destruct (decide (sid = sid)); [|done]. by repeat split.
Qed.

(** X16.  The verification that brings the count to the threshold
    decodes the bytes of every verified shard, the one being verified
    included: if one of them cannot be decoded the call panics and the
    session stays incomplete; otherwise the call completes the session
    with the exclusive-or of the decoded values. *)
Theorem completing_verification sid i clear prf st v :
  name (session_at st sid) <> "" ->
  0 <= i < totalShards (session_at st sid) ->
  isVerified (shard_at st sid i) = false ->
  checkSignatures [encryptedValue (shard_at st sid i)] clear prf = true ->
  abi_decode_uint32 clear = inr v ->
  v = publicValue1 (session_at st sid) \/ v = publicValue2 (session_at st sid) ->
  threshold (session_at st sid) <= verifiedCount st sid + 1 ->
  isComplete (session_at st sid) = false ->
  match verifiedCleartexts (verified_state sid i st) sid with
  | inr vals =>
      verifyShard sid i clear prf st
        = inr (completed_state sid (xor_fold vals) (verified_state sid i st))
  | inl _ =>
      verifyShard sid i clear prf st = inl Panic /\
      forall env, step (env, VerifyShard sid i clear prf) st = st
  end.
Proof.
  intros Hn Hi Hv Hsig Hdec Hcand Hge Hopen.
  pose proof (verifyShard_unverified sid i clear prf st Hn Hi Hv) as Hcase.
  rewrite Hsig, Hdec, (proj2 (candidate_test_spec _ _ _) Hcand) in Hcase.
  rewrite (proj2 (Z.leb_le _ _)) in Hcase by lia.
  rewrite completeSession_open in Hcase by done.
  pose proof (combineShards_xor_fold (verified_state sid i st) sid) as Hfold.
  destruct (verifiedCleartexts (verified_state sid i st) sid) as [e|vals]; simpl in Hfold.
  - destruct (combineShards (verified_state sid i st) sid) as [e'|r] eqn:Hcomb;
      [|discriminate].
    apply combineShards_error in Hcomb. subst.
    split; [done|]. intros env. by apply (step_reverted _ _ Panic).
  - by rewrite Hfold in Hcase.
Qed.

(** X20.  On an existing session [verifyShard] refuses an index outside
    [0, totalShards) with "Invalid shard index"; on an unverified slot
    it fails inside the library when the decryption proof is rejected,
    whatever the value, and panics when the proof is accepted but the
    cleartext data is shorter than one word.  No refusal changes the
    state. *)
Theorem verifyShard_refusals sid i clear prf st :
  name (session_at st sid) <> "" ->
  (~ 0 <= i < totalShards (session_at st sid) ->
   verifyShard sid i clear prf st = inl (Revert "Invalid shard index")) /\
  (0 <= i < totalShards (session_at st sid) ->
   isVerified (shard_at st sid i) = false ->
   (checkSignatures [encryptedValue (shard_at st sid i)] clear prf = false ->
    verifyShard sid i clear prf st = inl FHERevert) /\
   (checkSignatures [encryptedValue (shard_at st sid i)] clear prf = true ->
    (length clear < 32)%nat ->
    verifyShard sid i clear prf st = inl Panic)) /\
  (forall e env, verifyShard sid i clear prf st = inl e ->
   step (env, VerifyShard sid i clear prf) st = st).
Proof.
  intros Hn. split; [by apply verifyShard_bad_index|]. split.
  - intros Hi Hv. rewrite verifyShard_unverified by done. split.
    + by intros ->.
    + intros -> Hlen. unfold abi_decode_uint32.
      by rewrite (proj2 (Z.ltb_lt _ _)) by lia.
  - intros e env He. by apply (step_reverted _ _ e).
Qed.

End Isolation.

Lemma sessions_are_isolated_witness :
  session_at (@step strictFHE (alice, CreateSession "v" "vault" 1 2 0 1 "other") st_done) "s"
    = session_at st_done "s".
Proof.
  apply (@sessions_are_isolated strictFHE
           (alice, CreateSession "v" "vault" 1 2 0 1 "other") st_done "s").
  by vm_compute.
Defined.

Lemma verifyShard_sets_one_flag_witness :
  sessionIds (verified_state "s" 0 st_added) = sessionIds st_added.
Proof.
  apply (@verifyShard_sets_one_flag strictFHE "s" 0 (abi_encode_uint 7) someProof
           st_added (verified_state "s" 0 st_added)).
  by vm_compute.
Defined.

Lemma completing_verification_witness :
  @verifyShard brokenFHE "s" 2 (abi_encode_uint 7) someProof
    (@run strictFHE [verify_tx 0 7; verify_tx 1 42] st_added) = inl Panic.
Proof.
  pose proof (@completing_verification brokenFHE "s" 2 (abi_encode_uint 7) someProof
                (@run strictFHE [verify_tx 0 7; verify_tx 1 42] st_added) 7) as H.
  assert (@verifiedCleartexts brokenFHE
            (verified_state "s" 2 (@run strictFHE [verify_tx 0 7; verify_tx 1 42] st_added))
            "s" = inl Panic) as Hbytes by (by vm_compute).
  rewrite Hbytes in H. apply H; clear H Hbytes.
  - by vm_compute.
  - by vm_compute.
  - by vm_compute.
  - by vm_compute.
  - by vm_compute.
  - left. by vm_compute.
  - by vm_compute.
  - by vm_compute.
Defined.

Lemma verifyShard_refusals_witness :
  @verifyShard strictFHE "s" 9 (abi_encode_uint 7) someProof st_added
    = inl (Revert "Invalid shard index") /\
  @verifyShard strictFHE "s" 0 (abi_encode_uint 42) someProof st_added = inl FHERevert /\
  @verifyShard laxFHE "s" 0 [x07] someProof st_added = inl Panic.
Proof.
  assert (name (session_at st_added "s") <> "") as Hn by (by vm_compute).
  split; [|split].
  - apply (@verifyShard_refusals strictFHE "s" 9 (abi_encode_uint 7) someProof st_added Hn).
    intros [_ Hlt]. by vm_compute in Hlt.
  - apply (@verifyShard_refusals strictFHE "s" 0 (abi_encode_uint 42) someProof st_added Hn);
      by vm_compute.
  - apply (@verifyShard_refusals laxFHE "s" 0 [x07] someProof st_added Hn).
    + by vm_compute.
    + by vm_compute.
    + by vm_compute.
    + simpl. lia.
Defined.

(** ** The value a complete session stores *)

Lemma xor_fold_candidates a b vals :
  Forall (fun v => v = a \/ v = b) vals ->
  xor_fold vals = 0 \/ xor_fold vals = a \/ xor_fold vals = b
  \/ xor_fold vals = Z.lxor a b.
Proof.
  induction 1 as [|v vals Hv _ IH]; [by left|].
  rewrite xor_fold_cons.
  destruct Hv as [->| ->]; destruct IH as [->|[->|[->| ->]]].
  - right; left. apply Z.lxor_0_r.
  - left. apply Z.lxor_nilpotent.
  - right; right; right. done.
  - right; right; left. by rewrite <- Z.lxor_assoc, Z.lxor_nilpotent, Z.lxor_0_l.
  - right; right; left. apply Z.lxor_0_r.
  - right; right; right. apply Z.lxor_comm.
  - left. apply Z.lxor_nilpotent.
  - right; left.
    by rewrite (Z.lxor_comm a b), <- Z.lxor_assoc, Z.lxor_nilpotent, Z.lxor_0_l.
Qed.

Lemma mapM_result_Forall2 {A B} (f : A -> result B) l vals :
  mapM_result f l = inr vals -> Forall2 (fun i v => f i = inr v) l vals.
Proof.
  revert vals. induction l as [|i l IH]; intros vals; simpl.
  - intros H. inversion H. constructor.
  - destruct (f i) as [e|v] eqn:E; simpl; [discriminate|].
    destruct (mapM_result f l) as [e|vs]; simpl; [discriminate|].
    intros H. inversion H; subst. constructor; [done|]. by apply IH.
Qed.

Lemma count_filter_length (f : Z -> bool) l :
  foldl (count_body f) 0 l = Z.of_nat (length (List.filter f l)).
Proof.
  induction l as [|i l IH]; simpl; [done|].
  rewrite count_acc, IH. unfold count_body. destruct (f i); simpl length; lia.
Qed.

Lemma strictFHE_consistent : consistent strictFHE.
Proof.
  intros h clear prf v Hsig Hdec. simpl in *. unfold strict_checkSignatures in Hsig.
  rewrite Hdec in Hsig.
  apply andb_prop in Hsig as [_ Hv]. apply Z.eqb_eq in Hv.
  pose proof (abi_decode_range clear v Hdec) as Hrange.
  unfold mock_getDecryptionProof. rewrite <- Hv, Z.max_r by lia.
  by apply abi_decode_encode.
Qed.

Section Parity.
Context {fhe : FHE}.
Hypothesis strict : rejects_null fhe.
Hypothesis bound : consistent fhe.

Lemma read_candidates_verified sid i clear prf v st :
  verified_read_candidates st ->
  checkSignatures [encryptedValue (shard_at st sid i)] clear prf = true ->
  abi_decode_uint32 clear = inr v ->
  v = publicValue1 (session_at st sid) \/ v = publicValue2 (session_at st sid) ->
  verified_read_candidates (verified_state sid i st).
Proof.
  intros IH Hsig Hdec Hcand sid' j. unfold shardCleartext.
  rewrite session_at_verified_state, shard_at_verified_state.
  destruct (decide ((sid, i) = (sid', j))) as [E|Hne].
  - inversion E; subst. intros _. exists v. split; [|done].
    simpl. by apply (bound _ clear prf).
  - apply IH.
Qed.

Lemma reachable_read_candidates st : reachable st -> verified_read_candidates st.
Proof.
  apply reachable_cases.
  - intros sid i. by rewrite shard_at_init.
  - intros st0 env sid nm th tot pv1 pv2 d Hr IH _ Hn _ sid' j Hv.
    rewrite shard_at_created_state in Hv.
    destruct (decide (sid = sid')) as [<-|Hne].
    + by rewrite (unnamed_session_unverified st0 sid (reachable_wf st0 Hr) Hn) in Hv.
    + rewrite session_at_created_state.
      destruct (decide (sid = sid')); [done|]. by apply IH.
  - intros st0 env sid i ev prf h Hr IH _ _ _ _ _ _ sid' j. unfold shardCleartext.
    rewrite session_at_added_state, shard_at_added_state.
    destruct (decide ((sid, i) = (sid', j))); [done|]. apply IH.
  - intros st0 sid i clear prf v Hr IH _ _ _ Hsig Hdec Hcand _.
    by apply (read_candidates_verified sid i clear prf v).
  - intros st0 sid i clear prf v r Hr IH _ _ _ Hsig Hdec Hcand _ _ _ sid' j Hv.
    rewrite shard_at_completed_state in Hv.
    destruct (read_candidates_verified sid i clear prf v st0 IH Hsig Hdec Hcand sid' j Hv)
      as (w & Hw & Hcw).
    exists w. split; [done|].
    rewrite session_at_completed_state, session_at_verified_state.
    rewrite session_at_verified_state in Hcw.
    by destruct (decide (sid = sid')) as [<-|].
Qed.

(** X17.  With a library that rejects the null handle and whose
    decryption proofs bind the cleartext later read for a handle, the
    value of a complete session is the exclusive-or of exactly
    [threshold] values, each one of the two candidates: it is 0, one
    candidate, the other, or the exclusive-or of both. *)
Theorem stored_value_is_candidate_parity st sid :
  reachable st ->
  isComplete (session_at st sid) = true ->
  exists vals,
    Z.of_nat (length vals) = threshold (session_at st sid) /\
    Forall (fun v => v = publicValue1 (session_at st sid)
                     \/ v = publicValue2 (session_at st sid)) vals /\
    decryptedValue (session_at st sid) = xor_fold vals /\
    (decryptedValue (session_at st sid) = 0
     \/ decryptedValue (session_at st sid) = publicValue1 (session_at st sid)
     \/ decryptedValue (session_at st sid) = publicValue2 (session_at st sid)
     \/ decryptedValue (session_at st sid)
        = Z.lxor (publicValue1 (session_at st sid)) (publicValue2 (session_at st sid))).
Proof.
  intros Hr Hc. pose proof (reachable_wf_strict strict st Hr) as Hs.
  pose proof (reachable_read_candidates st Hr) as Hread.
  pose proof (wfs_value _ Hs sid Hc) as Hvalue.
  rewrite combineShards_xor_fold in Hvalue. unfold verifiedCleartexts in Hvalue.
  destruct (mapM_result (shardCleartext st sid) (verifiedIndices st sid))
    as [e|vals] eqn:Hvals; [discriminate|].
  assert (decryptedValue (session_at st sid) = xor_fold vals) as Hfold
    by (simpl in Hvalue; unfold Ok in Hvalue; by inversion Hvalue).
  apply mapM_result_Forall2 in Hvals.
  assert (Forall (fun v => v = publicValue1 (session_at st sid)
                           \/ v = publicValue2 (session_at st sid)) vals) as Hcand.
  { assert (Forall (fun i => isVerified (shard_at st sid i) = true)
              (verifiedIndices st sid)) as Hflags.
    { apply Forall_forall. intros i Hi. unfold verifiedIndices in Hi.
      apply list_elem_of_In, filter_In in Hi. by destruct Hi. }
    clear Hvalue Hfold. induction Hvals as [|i v l vals Hiv _ IH]; [constructor|].
    apply Forall_cons in Hflags as [Hi Hflags]. constructor; [|by apply IH].
    destruct (Hread sid i Hi) as (w & Hw & Hcw). congruence. }
  exists vals. split.
  { apply Forall2_length in Hvals. rewrite <- Hvals.
    rewrite <- (wfs_complete _ Hs sid Hc), verifiedCount_unfold.
    unfold verifiedIndices. symmetry. apply count_filter_length. }
  split; [done|]. split; [done|].
  rewrite Hfold. by apply xor_fold_candidates.
Qed.

End Parity.

Lemma stored_value_is_candidate_parity_witness :
  decryptedValue (session_at st_done "s") = 0
  \/ decryptedValue (session_at st_done "s") = publicValue1 (session_at st_done "s")
  \/ decryptedValue (session_at st_done "s") = publicValue2 (session_at st_done "s")
  \/ decryptedValue (session_at st_done "s")
     = Z.lxor (publicValue1 (session_at st_done "s")) (publicValue2 (session_at st_done "s")).
Proof.
  destruct (@stored_value_is_candidate_parity strictFHE strictFHE_rejects_null
              strictFHE_consistent st_done "s" reachable_st_done)
    as (vals & _ & _ & _ & Hclass); [by vm_compute|].
  exact Hclass.
Defined.

(** * The front end *)

(** X18.  [addToHistory] keeps the ten most recent entries, newest
    first: after any sequence of additions to the empty history, the
    history is the first ten of the added entries in reverse order. *)
Theorem history_keeps_ten_newest (adds : list (Z * string * string)) :
  foldl (fun h a => App.addToHistory a.1.1 a.1.2 a.2 h) [] adds
  = take 10 (reverse (map (fun a => App.mkEntry a.1.2 a.1.1 a.2) adds)) /\
  length (foldl (fun h a => App.addToHistory a.1.1 a.1.2 a.2 h) [] adds)
  = Nat.min 10 (length adds).
Proof.
  assert (foldl (fun h a => App.addToHistory a.1.1 a.1.2 a.2 h) [] adds
          = take 10 (reverse (map (fun a => App.mkEntry a.1.2 a.1.1 a.2) adds))) as Heq.
  { induction adds as [|a adds IH] using rev_ind; [done|].
    rewrite foldl_app, map_app, reverse_app. simpl. rewrite IH.
    unfold App.addToHistory. f_equal. rewrite take_take. by f_equal. }
  split; [done|]. rewrite Heq, length_take, length_reverse, length_map. lia.
Qed.

Lemma strip_non_digits_all_digits value : App.all_digits (App.strip_non_digits value).
Proof.
  induction value as [|c rest IH]; simpl; [by intros c []|].
  destruct (App.is_digit c) eqn:Hc; [|done].
  intros c' [<-|Hin]; [done | by apply IH].
Qed.

Lemma strip_non_digits_fixed value :
  App.all_digits value -> App.strip_non_digits value = value.
Proof.
  induction value as [|c rest IH]; intros Hall; simpl; [done|].
  rewrite (Hall c) by (by left). f_equal. apply IH.
  intros c' Hin. apply Hall. by right.
Qed.

(** X19.  [handleChange] keeps the shard value a string of digits: it
    strips every other character of what is typed into that field
    (digits are kept as typed, and stripping twice changes nothing), so
    from the initial form data, after any sequence of input events, the
    field holds digits only, and when the submit button is enabled it
    and the name are not empty. *)
Theorem shardValue_holds_digits (changes : list (string * string)) :
  (forall value, App.all_digits (App.strip_non_digits value)) /\
  (forall value, App.all_digits value -> App.strip_non_digits value = value) /\
  exists s,
    foldl (fun d c => App.handleChange c.1 c.2 d) App.initialGuardianData changes
      !! "shardValue" = Some s /\
    App.all_digits s /\
    forall adding isEncrypting,
      App.submitDisabled adding isEncrypting
        (foldl (fun d c => App.handleChange c.1 c.2 d) App.initialGuardianData changes)
        = false ->
      adding = false /\ isEncrypting = false /\ s <> "" /\
      exists n,
        foldl (fun d c => App.handleChange c.1 c.2 d) App.initialGuardianData changes
          !! "name" = Some n /\ n <> "".
Proof.
  split; [apply strip_non_digits_all_digits|]. split; [apply strip_non_digits_fixed|].
  assert (exists s,
    foldl (fun d c => App.handleChange c.1 c.2 d) App.initialGuardianData changes
      !! "shardValue" = Some s /\ App.all_digits s) as (s & Hs & Hdigits).
  { induction changes as [|[nm value] changes IH] using rev_ind.
    - exists "". split; [by vm_compute | by intros c []].
    - destruct IH as (s & Hs & Hdigits). rewrite foldl_app. simpl.
      unfold App.handleChange.
      destruct (String.eqb nm "shardValue") eqn:E.
      + apply String.eqb_eq in E. subst. rewrite lookup_insert_eq.
        eexists. split; [done|]. apply strip_non_digits_all_digits.
      + apply String.eqb_neq in E. rewrite lookup_insert_ne by done. eauto. }
  exists s. split; [done|]. split; [done|].
  intros adding isEncrypting Hsubmit. unfold App.submitDisabled in Hsubmit.
  rewrite Hs in Hsubmit.
  apply orb_false_elim in Hsubmit as [Hsubmit Hvalue].
  apply orb_false_elim in Hsubmit as [Hsubmit Hname].
  apply orb_false_elim in Hsubmit as [Hadding Henc].
  split; [done|]. split; [done|]. split.
  - simpl in Hvalue. by apply String.eqb_neq in Hvalue.
  - destruct (foldl _ _ changes !! "name") as [n|]; [|done].
    exists n. split; [done|]. simpl in Hname. by apply String.eqb_neq in Hname.
Qed.

Lemma shardValue_holds_digits_witness :
  App.strip_non_digits "42" = "42".
Proof.
  destruct (shardValue_holds_digits []) as (_ & Hfixed & _).
  apply Hfixed. intros c Hin. simpl in Hin.
  destruct Hin as [<-|[<-|[]]]; reflexivity.
Defined.
